(** * Modulo Krinkle tiling generator: a shallow embedding of [KrinkleGenerator]

    The development follows [src/app.js], class [KrinkleGenerator]
    (lines 697-1161) together with the global [TILING_CONFIG] (lines 14-42).

    Conventions of the embedding.
    - The integer parameters [m], [k], [n], [rows], the row, column, tile and
      wedge indices are JavaScript numbers holding integers; they are
      modelled by [Z].  The JavaScript remainder [a % b] truncates towards
      zero and is [Z.rem]; [a % 0] is [NaN], modelled by [None].
    - Coordinates are IEEE doubles in the source.  They are modelled by the
      exact reals [R] with [cos], [sin], [sqrt] and [PI] of the Standard
      Library: every statement about coordinates is a statement in exact
      arithmetic.
      Division by [n = 0], which gives [NaN] or an infinity in the
      source, has no counterpart in [R]; the statements about coordinates
      are meant for [n <> 0].
    - [Math.floor] of a quotient of non-negative integers is [Z.div].
    - A loop [for (let j = a; j < b; j++)] whose body does not assign [j]
      is a recursion on the number of iterations left; a [break] returns
      from it.
    - The generator object ([this]) and the global [TILING_CONFIG] are
      explicit arguments; a method returns its result together with the new
      state of the generator.  [console.error] and [console.warn] append an
      event to the [console] field of the state; [console.log] is not
      modelled, nor is the array [wedge_offsets], which the source fills and
      passes on but never reads. *)

From Stdlib Require Import String Ascii.
From Stdlib Require Import ZArith List Bool Lia Reals Lra QArith Qround Sorted.
Import ListNotations.

Open Scope Z_scope.

(** ** JavaScript helpers *)

Module JS.

(** [a % b] on integer-valued numbers; [NaN] when [b] is zero. *)
Definition rem (a b : Z) : option Z :=
  if b =? 0 then None else Some (Z.rem a b).

(** [arr[i]] for a number [i]: [undefined] out of range. *)
Definition index {A : Type} (arr : list A) (i : Z) : option A :=
  if i <? 0 then None else nth_error arr (Z.to_nat i).

(** [arr[i] = v] for an index inside the array. An index beyond the end would
    extend the array in JavaScript; the generator only assigns at an index
    returned by a search of the same array, and the model leaves the array
    unchanged otherwise. *)
Fixpoint assign {A : Type} (arr : list A) (i : nat) (v : A) : list A :=
  match arr, i with
  | [], _ => []
  | _ :: rest, O => v :: rest
  | a :: rest, S i' => a :: assign rest i' v
  end.

(** [arr.slice(0, arr.length - 1)]. *)
Definition slice_init {A : Type} (arr : list A) : list A :=
  firstn (length arr - 1) arr.

(** The integers [lo, lo+1, ..., lo+cnt-1]. *)
Fixpoint range (cnt : nat) (lo : Z) : list Z :=
  match cnt with
  | O => []
  | S cnt' => lo :: range cnt' (lo + 1)
  end.

End JS.

(** ** Data model *)

Record Point : Type := mkPoint { px : R; py : R }.

Definition origin : Point := mkPoint 0%R 0%R.

(** A colour value: the palette's template strings
    [hsla(h, s%, l%, 0.6)], a literal CSS string, or [undefined] (a palette
    lookup that misses). *)
Inductive Color : Type :=
| Hsla (h s l : Z)
| CssLiteral (s : string)
| ColorUndefined.

(** The metadata object of a polygon; an absent property is [None]. *)
Record Meta : Type := mkMeta {
  closureError : option R;
  hasShortPeriod : option bool;
  wedgeIndex : option Z;
  tileIndex : option Z;
  meta_r : option Z;
  meta_c : option Z;
  isCopy : option bool
}.

Definition empty_meta : Meta :=
  mkMeta None None None None None None None.

Definition set_wedgeIndex (w : option Z) (mt : Meta) : Meta :=
  mkMeta (closureError mt) (hasShortPeriod mt) w (tileIndex mt)
         (meta_r mt) (meta_c mt) (isCopy mt).

Definition set_isCopy (b : option bool) (mt : Meta) : Meta :=
  mkMeta (closureError mt) (hasShortPeriod mt) (wedgeIndex mt) (tileIndex mt)
         (meta_r mt) (meta_c mt) b.

Record Polygon : Type := mkPolygon {
  path : list Point;
  color : Color;
  stroke : string;
  meta : Meta
}.

(** [TILING_CONFIG]: a per-wedge rule, one entry of [wedges] and the whole
    configuration.  The numeric keys of an entry are an association list. *)
Record WedgeRule : Type := mkRule {
  reverse : option bool;
  startColor : option Z
}.

Record WedgeParams : Type := mkParams {
  params_c : Z; params_m : Z; params_k : Z; params_n : Z
}.

Record WedgeItem : Type := mkItem {
  params : option WedgeParams;
  rules : list (Z * WedgeRule)
}.

Record Config : Type := mkConfig {
  colorCount : Z;
  wedges : list WedgeItem
}.

Inductive LogEvent : Type :=
| ParameterError                (* "Parameter Error: n must be >= k" *)
| DirectionNotFound (i : Z).    (* "Warning: direction i not found ..." *)

(** The fields of a [KrinkleGenerator] object, and what it wrote to the
    console. *)
Record Generator : Type := mkGenerator {
  polygons : list Polygon;
  palette : list Color;
  paletteType : string;
  currentParams : Z * Z * Z;
  console : list LogEvent
}.

(** The constructor. *)
Definition new_generator : Generator :=
  mkGenerator [] [] "color"%string (0, 0, 0) [].

Definition set_polygons (ps : list Polygon) (g : Generator) : Generator :=
  mkGenerator ps (palette g) (paletteType g) (currentParams g) (console g).

Definition set_currentParams (p : Z * Z * Z) (g : Generator) : Generator :=
  mkGenerator (polygons g) (palette g) (paletteType g) p (console g).

Definition log (e : LogEvent) (g : Generator) : Generator :=
  mkGenerator (polygons g) (palette g) (paletteType g) (currentParams g)
              (console g ++ [e]).

(** The configuration as the file declares it (lines 14-42), with the colour
    count left open: the user interface assigns [TILING_CONFIG.colorCount]. *)
Definition default_wedges : list WedgeItem :=
  [ mkItem (Some (mkParams 3 3 7 14))
      [ (0, mkRule (Some false) (Some 0));
        (1, mkRule (Some true) (Some 1));
        (2, mkRule (Some false) (Some 2));
        (3, mkRule (Some true) (Some 1));
        (4, mkRule (Some false) (Some 0));
        (5, mkRule (Some true) (Some 2));
        (6, mkRule (Some false) (Some 0));
        (7, mkRule (Some true) (Some 2));
        (8, mkRule (Some false) (Some 1));
        (9, mkRule (Some true) (Some 0));
        (10, mkRule (Some false) (Some 1));
        (11, mkRule (Some true) (Some 2));
        (12, mkRule (Some false) (Some 0));
        (13, mkRule (Some true) (Some 2)) ] ].

Definition TILING_CONFIG (count : Z) : Config := mkConfig count default_wedges.

(** ** Boundary sequences (lines 802-824, 902-909, 1003-1012) *)

(** The loop [for (j = ...; j < k; j++)] that fills [l_seq], entered with
    [cnt] iterations left; [acc] is the array so far and [short] the flag
    [hasShortPeriod]. *)
Fixpoint l_seq_loop (cnt : nat) (m k j : Z) (acc : list Z) (short : bool)
  : list Z * bool :=
  match cnt with
  | O => (acc, short)
  | S cnt' =>
      if (0 <? j) && (Z.rem (j * m) k =? 0) then (acc, true)
      else l_seq_loop cnt' m k (j + 1) (acc ++ [Z.rem (j * m) k]) short
  end.

(** The loop that fills [u_seq]; it starts at [j = 1] and has no test on
    [j]. *)
Fixpoint u_seq_loop (cnt : nat) (m k j : Z) (acc : list Z) (short : bool)
  : list Z * bool :=
  match cnt with
  | O => (acc, short)
  | S cnt' =>
      if Z.rem (j * m) k =? 0 then (acc, true)
      else u_seq_loop cnt' m k (j + 1) (acc ++ [Z.rem (j * m) k]) short
  end.

(** [l_seq] with the flag, after [l_seq.push(k)]. *)
Definition build_l_seq (m k : Z) (short : bool) : list Z * bool :=
  let '(acc, short') := l_seq_loop (Z.to_nat k) m k 0 [] short in
  (acc ++ [k], short').

(** [u_seq] with the flag, after [u_seq.push(0)]. *)
Definition build_u_seq (m k : Z) (short : bool) : list Z * bool :=
  let '(acc, short') := u_seq_loop (Z.to_nat (k - 1)) m k 1 [k] short in
  (acc ++ [0], short').

(** The three results of the boundary sequence builder, as
    [generatePrototile] computes them. *)
Definition boundary_sequences (m k : Z) : list Z * list Z * bool :=
  let '(l_seq, short1) := build_l_seq m k false in
  let '(u_seq, short2) := build_u_seq m k short1 in
  (l_seq, u_seq, short2).

(** ** Palette and colour index (lines 708-780) *)

Definition obind {A B : Type} (o : option A) (f : A -> option B) : option B :=
  match o with
  | Some a => f a
  | None => None
  end.

Notation "x <- e ;; k" := (obind e (fun x => k))
  (at level 61, e at next level, right associativity).

(** One entry of the palette.  [Math.floor] is taken of the exact value. *)
Definition palette_entry (type : string) (count i : Z) : Color :=
  if String.eqb type "gray" then
    let l := if 1 <? count then 25 + (55 * i) / (count - 1) else 25 in
    Hsla 0 0 l
  else
    Hsla ((360 * i) / count) 70 60.

Fixpoint palette_loop (cnt : nat) (type : string) (count i : Z)
                      (acc : list Color) : list Color :=
  match cnt with
  | O => acc
  | S cnt' =>
      palette_loop cnt' type count (i + 1) (acc ++ [palette_entry type count i])
  end.

(** [generatePalette(count, type)]; a missing argument is [None]. *)
Definition generatePalette (cfg : Config) (count : option Z)
                           (type : option string) (g : Generator) : Generator :=
  let count := match count with Some c => c | None => colorCount cfg end in
  let type := match type with Some t => t | None => paletteType g end in
  mkGenerator (polygons g)
              (palette_loop (Z.to_nat count) type count 0 [])
              type (currentParams g) (console g).

(** [item[wedgeIndex]] *)
Fixpoint lookup_rule (rs : list (Z * WedgeRule)) (wedgeIndex : Z)
  : option WedgeRule :=
  match rs with
  | [] => None
  | (key, rule) :: rest =>
      if key =? wedgeIndex then Some rule else lookup_rule rest wedgeIndex
  end.

Definition no_rule : WedgeRule := mkRule None None.

(** The loop over [config.wedges] that sets [wedgeConfig]. *)
Fixpoint find_wedge_config (items : list WedgeItem) (count m k n : Z)
                           (wedgeIndex : Z) : WedgeRule :=
  match items with
  | [] => no_rule
  | item :: rest =>
      match params item with
      | Some p =>
          if (params_c p =? count) && (params_m p =? m) &&
             (params_k p =? k) && (params_n p =? n)
          then match lookup_rule (rules item) wedgeIndex with
               | Some rule => rule
               | None => no_rule
               end
          else find_wedge_config rest count m k n wedgeIndex
      | None => find_wedge_config rest count m k n wedgeIndex
      end
  end.

(** [getColorIndex(r, c, wedgeIndex)]; [None] is [NaN]. *)
Definition getColorIndex (cfg : Config) (g : Generator) (r c wedgeIndex : Z)
  : option Z :=
  let count := colorCount cfg in
  let '(m, k, n) := currentParams g in
  if (m =? 0) || (k =? 0) || (n =? 0) then JS.rem wedgeIndex count
  else
    let wedgeConfig := find_wedge_config (wedges cfg) count m k n wedgeIndex in
    let reverse :=
      match reverse wedgeConfig with
      | Some b => b
      | None => negb (Z.rem wedgeIndex 2 =? 0)
      end in
    startColor <-
      match startColor wedgeConfig with
      | Some s => Some s
      | None => JS.rem wedgeIndex count
      end ;;
    baseIndex <-
      (if reverse
       then (q <- JS.rem (r + c) count ;; JS.rem (count - q) count)
       else JS.rem (r + c) count) ;;
    JS.rem (baseIndex + startColor) count.

(** [this.palette[idx]] *)
Definition palette_color (g : Generator) (idx : option Z) : Color :=
  match idx with
  | Some i =>
      match JS.index (palette g) i with
      | Some col => col
      | None => ColorUndefined
      end
  | None => ColorUndefined
  end.

(** ** Prototile (lines 789-871) *)

Open Scope R_scope.

(** The helper [getVector]: unit length 100 in direction [dirIndex] of [n]. *)
Definition getVector (n dirIndex : Z) : Point :=
  let angle := (IZR dirIndex * 2 * PI) / IZR n in
  let len := 100 in
  mkPoint (cos angle * len) (sin angle * len).

(** [for (let d of l_seq)]: forward steps, each new position pushed. *)
Fixpoint walk_forward (n : Z) (ds : list Z) (current : Point)
                      (pth : list Point) : Point * list Point :=
  match ds with
  | [] => (current, pth)
  | d :: rest =>
      let v := getVector n d in
      let current' := mkPoint (px current + px v) (py current + py v) in
      walk_forward n rest current' (pth ++ [current'])
  end.

(** [for (let d of u_seq_rev)]: backward steps. *)
Fixpoint walk_backward (n : Z) (ds : list Z) (current : Point)
                       (pth : list Point) : Point * list Point :=
  match ds with
  | [] => (current, pth)
  | d :: rest =>
      let v := getVector n d in
      let current' := mkPoint (px current - px v) (py current - py v) in
      walk_backward n rest current' (pth ++ [current'])
  end.

(** [Math.hypot(x, y)] *)
Definition hypot (x y : R) : R := sqrt (x * x + y * y).

Open Scope Z_scope.

(** [generatePrototile(m, k, n)]: the returned array and the new state. *)
Definition generatePrototile (m k n : Z) (g : Generator)
  : list Polygon * Generator :=
  let g := set_polygons [] g in
  let g := if n <? k then log ParameterError g else g in
  let g := if n <? k then log ParameterError g else g in
  let '(l_seq, hasShortPeriod) := build_l_seq m k false in
  let '(u_seq, hasShortPeriod) := build_u_seq m k hasShortPeriod in
  let '(current, pth) := walk_forward n l_seq origin [origin] in
  let u_seq_rev := rev u_seq in
  let '(current, pth) := walk_backward n u_seq_rev current pth in
  let closureError := hypot (px current) (py current) in
  let poly :=
    mkPolygon pth (CssLiteral "rgba(88, 166, 255, 0.4)") "#58a6ff"
      (mkMeta (Some closureError) (Some hasShortPeriod)
              None None None None None) in
  let g := set_polygons (polygons g ++ [poly]) g in
  (polygons g, g).

(** ** Wedge (lines 880-975) *)

(** The loop that sums [getVector(l_seq[j])] into [d0]. *)
Fixpoint d0_loop (cnt : nat) (m k n j : Z) (l_seq : list Z) (d0 : Point)
  : Point :=
  match cnt with
  | O => d0
  | S cnt' =>
      if (0 <? j) && (Z.rem (j * m) k =? 0) then d0
      else
        let v := getVector n (nth (Z.to_nat j) l_seq 0) in
        d0_loop cnt' m k n (j + 1) l_seq
                (mkPoint (px d0 + px v) (py d0 + py v))
  end.

(** [basePoly.path.map(p => ({x: p.x + shiftX, y: p.y + shiftY}))] *)
Definition shift_path (shiftX shiftY : R) (pth : list Point) : list Point :=
  map (fun p => mkPoint (px p + shiftX) (py p + shiftY)) pth.

(** The tile pushed for row [r] and column [c]. *)
Definition wedge_tile (cfg : Config) (g : Generator) (basePath : list Point)
                      (d0 d1 : Point) (r c tileIndex : Z) : Polygon :=
  let shiftX := (IZR r * px d0 + IZR c * px d1)%R in
  let shiftY := (IZR r * py d0 + IZR c * py d1)%R in
  let newPath := shift_path shiftX shiftY basePath in
  let colorIdx := getColorIndex cfg g r c 0 in
  mkPolygon newPath (palette_color g colorIdx) "#888"
    (mkMeta None None (Some 0) (Some tileIndex) (Some r) (Some c) None).

(** [for (let c = 0; c <= r; c++)]: the state is [tileIndex] and the
    generator, whose [polygons] grow. *)
Fixpoint wedge_cols (cnt : nat) (cfg : Config) (basePath : list Point)
                    (d0 d1 : Point) (r c : Z) (tileIndex : Z) (g : Generator)
  : Z * Generator :=
  match cnt with
  | O => (tileIndex, g)
  | S cnt' =>
      let tile := wedge_tile cfg g basePath d0 d1 r c tileIndex in
      wedge_cols cnt' cfg basePath d0 d1 r (c + 1) (tileIndex + 1)
                 (set_polygons (polygons g ++ [tile]) g)
  end.

(** [for (let r = 0; r < rows; r++)] *)
Fixpoint wedge_rows (cnt : nat) (cfg : Config) (basePath : list Point)
                    (d0 d1 : Point) (r : Z) (tileIndex : Z) (g : Generator)
  : Z * Generator :=
  match cnt with
  | O => (tileIndex, g)
  | S cnt' =>
      let '(tileIndex', g') :=
        wedge_cols (Z.to_nat (r + 1)) cfg basePath d0 d1 r 0 tileIndex g in
      wedge_rows cnt' cfg basePath d0 d1 (r + 1) tileIndex' g'
  end.

(** [generateWedge(m, k, n, rows)] *)
Definition generateWedge (cfg : Config) (m k n rows : Z) (g : Generator)
  : list Polygon * Generator :=
  let g := set_currentParams (m, k, n) g in
  let '(basePolygons, g) := generatePrototile m k n g in
  match basePolygons with
  | [] => (basePolygons, g)
  | basePoly :: _ =>
      if (length (path basePoly) =? 0)%nat then (basePolygons, g)
      else
        let '(acc, _) := l_seq_loop (Z.to_nat k) m k 0 [] false in
        let l_seq := acc ++ [k] in
        let d0 := d0_loop (Z.to_nat k) m k n 0 l_seq origin in
        let vk := getVector n k in
        let v0 := getVector n 0 in
        let d1 := mkPoint (px vk - px v0) (py vk - py v0) in
        let g := set_polygons [] g in
        let g := generatePalette cfg None None g in
        let '(_, g) :=
          wedge_rows (Z.to_nat rows) cfg (path basePoly) d0 d1 0 0 g in
        (polygons g, g)
  end.

(** ** Tiling by front tracking (lines 985-1160) *)

(** [w_limit = isOffset ? (n / 2) : n], a number that need not be an
    integer. *)
Definition w_limit (isOffset : bool) (n : Z) : Q :=
  if isOffset then (inject_Z n / inject_Z 2)%Q else inject_Z n.

(** How often [for (let i = 1; i < w_limit; i++)] runs its body. *)
Definition wedge_iterations (isOffset : bool) (n : Z) : nat :=
  Z.to_nat (Qceiling (w_limit isOffset n) - 1).

(** The search for [j_star]; [None] is [-1]. *)
Fixpoint find_j_star (front_directions : list Z) (i : Z) : option nat :=
  match front_directions with
  | [] => None
  | d :: rest =>
      if d =? i then Some O else option_map S (find_j_star rest i)
  end.

(** [startX], [startY]: the sum of [getVector(front_directions[idx])] over
    the entries given. *)
Fixpoint start_pos (n : Z) (ds : list Z) (start : Point) : Point :=
  match ds with
  | [] => start
  | d :: rest =>
      let v := getVector n d in
      start_pos n rest (mkPoint (px start + px v) (py start + py v))
  end.

Definition unit_angle (n : Z) : R := (2 * PI / IZR n)%R.

(** The polygon that [addTransformedWedge] pushes for [p]. *)
Definition transformed_tile (cfg : Config) (g : Generator) (n : Z)
                            (offsetX offsetY : R) (rotationIndex : Z)
                            (p : Polygon) : Polygon :=
  let rotAngle := (IZR rotationIndex * unit_angle n)%R in
  let cos := cos rotAngle in
  let sin := sin rotAngle in
  let newPath :=
    map (fun pt => mkPoint ((px pt * cos - py pt * sin) + offsetX)
                           ((px pt * sin + py pt * cos) + offsetY))
        (path p) in
  let r := match meta_r (meta p) with Some v => v | None => 0 end in
  let c := match meta_c (meta p) with Some v => v | None => 0 end in
  let cIdx := getColorIndex cfg g r c rotationIndex in
  mkPolygon newPath (palette_color g cIdx) "#888"
            (set_wedgeIndex (Some rotationIndex) (meta p)).

(** [polys.forEach(p => ...)] *)
Fixpoint push_transformed (cfg : Config) (n : Z) (offsetX offsetY : R)
                          (rotationIndex : Z) (polys : list Polygon)
                          (g : Generator) : Generator :=
  match polys with
  | [] => g
  | p :: rest =>
      let tile := transformed_tile cfg g n offsetX offsetY rotationIndex p in
      push_transformed cfg n offsetX offsetY rotationIndex rest
                       (set_polygons (polygons g ++ [tile]) g)
  end.

(** [addTransformedWedge(polys, offsetX, offsetY, rotationIndex, _)]; the
    fifth argument is not used by the source. *)
Definition addTransformedWedge (cfg : Config) (n : Z) (polys : list Polygon)
                               (offsetX offsetY : R) (rotationIndex : Z)
                               (g : Generator) : Generator :=
  let g :=
    if Z.of_nat (length (palette g)) =? colorCount cfg then g
    else generatePalette cfg None None g in
  push_transformed cfg n offsetX offsetY rotationIndex polys g.

(** The state of the placement loop: the front and the generator. *)
Record TilingState : Type := mkTilingState {
  front : list Z;
  gen : Generator
}.

(** The body of the placement loop for wedge [i]. *)
Definition tiling_step (cfg : Config) (k n : Z) (baseWedge : list Polygon)
                       (i : Z) (st : TilingState) : TilingState :=
  match find_j_star (front st) i with
  | None => mkTilingState (front st) (log (DirectionNotFound i) (gen st))
  | Some j_star =>
      let start := start_pos n (firstn j_star (front st)) origin in
      let g := addTransformedWedge cfg n baseWedge (px start) (py start) i
                                   (gen st) in
      mkTilingState (JS.assign (front st) j_star (i + k)) g
  end.

Fixpoint tiling_loop (cnt : nat) (cfg : Config) (k n : Z)
                     (baseWedge : list Polygon) (i : Z) (st : TilingState)
  : TilingState :=
  match cnt with
  | O => st
  | S cnt' =>
      tiling_loop cnt' cfg k n baseWedge (i + 1)
                  (tiling_step cfg k n baseWedge i st)
  end.

(** The copy that the offset mode pushes for [p]. *)
Definition reflected_tile (pivot : Point) (p : Polygon) : Polygon :=
  let newPath :=
    map (fun pt => mkPoint (2 * px pivot - px pt) (2 * py pivot - py pt))%R
        (path p) in
  mkPolygon newPath (color p) (stroke p)
    (set_wedgeIndex (option_map (fun w => w + 10000) (wedgeIndex (meta p)))
                    (set_isCopy (Some true) (meta p))).

(** [currentPolys.forEach(p => ...)] *)
Fixpoint push_reflected (pivot : Point) (currentPolys : list Polygon)
                        (g : Generator) : Generator :=
  match currentPolys with
  | [] => g
  | p :: rest =>
      push_reflected pivot rest
        (set_polygons (polygons g ++ [reflected_tile pivot p]) g)
  end.

(** [generateTiling] up to the call that places wedge 0 (lines 985-1084):
    the base wedge and the state in which the placement loop is entered, or
    the generator when the function returns [[]] at line 1027. *)
Definition tiling_init (cfg : Config) (m k n rows : Z) (g : Generator)
  : Generator + (list Polygon * TilingState) :=
  let g := set_currentParams (m, k, n) g in
  let '(u_seq, _) := build_u_seq m k false in
  let '(wedge0Polys, g) := generateWedge cfg m k n rows g in
  if (length wedge0Polys =? 0)%nat then inl g
  else
    let baseWedge := wedge0Polys in
    let g := set_polygons [] g in
    let front_directions := JS.slice_init u_seq in
    let g := addTransformedWedge cfg n baseWedge 0 0 0 g in
    inr (baseWedge, mkTilingState front_directions g).

(** Steps 1 and 2 of [generateTiling]: the state after the placement
    loop. *)
Definition tiling_primary (cfg : Config) (m k n rows : Z) (isOffset : bool)
                          (g : Generator) : Generator + TilingState :=
  match tiling_init cfg m k n rows g with
  | inl g => inl g
  | inr (baseWedge, st) =>
      inr (tiling_loop (wedge_iterations isOffset n) cfg k n baseWedge 1 st)
  end.

(** Step 3: the 180-degree copy of the offset mode.  [currentPolys] is a
    deep copy ([JSON.parse(JSON.stringify(...))]) of the polygons placed so
    far; the values of the model are immutable, so the copy is the list
    itself. *)
Definition offset_copy (n : Z) (g : Generator) : Generator :=
  let v0 := getVector n 0 in
  let pivot := mkPoint (px v0 / 2) (py v0 / 2) in
  let currentPolys := polygons g in
  push_reflected pivot currentPolys g.

(** [generateTiling(m, k, n, rows, isOffset)] *)
Definition generateTiling (cfg : Config) (m k n rows : Z) (isOffset : bool)
                          (g : Generator) : list Polygon * Generator :=
  match tiling_primary cfg m k n rows isOffset g with
  | inl g => ([], g)
  | inr st =>
      let g := if isOffset then offset_copy n (gen st) else gen st in
      (polygons g, g)
  end.

(** ** The parameter update of the user interface (lines 1221-1376)

    [updateTiling] reads the controls, adjusts [k], computes [n], validates
    and calls the generator.  The values read from the controls are the
    fields of [Controls]; what it writes to the page (labels, status text,
    renderer options) is not modelled, except for the validation error,
    which is an outcome of its own.  The body of the [setTimeout] callback
    is run in place. *)

(** [function gcd(a, b) { return b === 0 ? a : gcd(b, a % b); }], with a
    bound on the depth of the recursion: [None] when the bound is
    reached. *)
Fixpoint gcd_rec (fuel : nat) (a b : Z) : option Z :=
  match fuel with
  | O => None
  | S fuel' => if b =? 0 then Some a else gcd_rec fuel' b (Z.rem a b)
  end.

(** [while (gcd(m, k) !== 1) { k++; }], with a bound [fuel] on the number
    of tests and the bound [gfuel] for each call of [gcd]. *)
Fixpoint coprime_loop (fuel gfuel : nat) (m k : Z) : option Z :=
  match fuel with
  | O => None
  | S fuel' =>
      d <- gcd_rec gfuel m k ;;
      if d =? 1 then Some k else coprime_loop fuel' gfuel m (k + 1)
  end.

(** The control that raised the event, if any. *)
Inductive EventTarget : Type :=
| OnInputM
| OnInputK
| OnOtherInput
| NoEvent.

(** Lines 1229-1240: [k] after "Enforce m < k". *)
Definition enforce_m_lt_k (target : EventTarget) (m k : Z) : Z :=
  match target with
  | OnInputM => if k <=? m then m + 1 else k
  | OnInputK => if k <=? m then m + 1 else k
  | OnOtherInput => k
  | NoEvent => k
  end.

(** Lines 1307-1314: the parameter [n]. *)
Definition parameter_n (isOffset : bool) (m k t : Z) : Z :=
  if isOffset then 2 * (t * k - m) else k * t.

(** The values of the controls: [m], [k], [t], the offset box, the display
    mode, the rows, and the fill mode when it is [count-type]. *)
Record Controls : Type := mkControls {
  in_m : Z;
  in_k : Z;
  in_t : Z;
  in_offset : bool;
  in_mode : string;
  in_rows : Z;
  in_fill : option (Z * string)
}.

(** What [updateTiling] ends with: the validation error of line 1318, or
    the polygons handed to the renderer; both with the adjusted [k], with
    [n], the configuration and the generator as they are left. *)
Inductive Outcome : Type :=
| ValidationError (k n : Z) (cfg : Config) (g : Generator)
| Displayed (k n : Z) (cfg : Config) (polys : list Polygon) (g : Generator).

Definition updateTiling (fuel : nat) (target : EventTarget) (ui : Controls)
                        (cfg : Config) (g : Generator) : option Outcome :=
  let k := in_k ui in
  let m := in_m ui in
  let k := enforce_m_lt_k target m k in
  k <- coprime_loop fuel fuel m k ;;
  let t := in_t ui in
  let isOffset := in_offset ui in
  let mode := in_mode ui in
  let rows := in_rows ui in
  let '(cfg, g) :=
    match in_fill ui with
    | Some (count, type) =>
        let cfg := mkConfig count (wedges cfg) in
        (cfg, generatePalette cfg (Some count) (Some type) g)
    | None => (cfg, g)
    end in
  let n := parameter_n isOffset m k t in
  if n <? k then Some (ValidationError k n cfg g)
  else
    let '(polygons, g) :=
      if String.eqb mode "wedge" then generateWedge cfg m k n rows g
      else if String.eqb mode "tiling"
           then generateTiling cfg m k n rows isOffset g
           else generatePrototile m k n g in
    Some (Displayed k n cfg polygons g).

(** ** Renderer: hit test and centring (lines 392-437, 633-691)

    The canvas and its drawing context are not modelled; of the renderer
    state only the viewport ([scale], [offsetX], [offsetY]) and the canvas
    size are. Comparisons of coordinates are those of the reals. *)

Definition Rltb (a b : R) : bool := if Rlt_dec a b then true else false.

(** The loop of [isPointInPoly]: [pj] is [path[j]], the point before the
    current one. *)
Fixpoint ray_loop (x y : R) (pts : list Point) (pj : Point) (inside : bool)
  : bool :=
  match pts with
  | [] => inside
  | pi :: rest =>
      let xi := px pi in let yi := py pi in
      let xj := px pj in let yj := py pj in
      let intersect :=
        negb (Bool.eqb (Rltb y yi) (Rltb y yj)) &&
        Rltb x ((xj - xi) * (y - yi) / (yj - yi) + xi)%R in
      ray_loop x y rest pi (if intersect then negb inside else inside)
  end.

(** [isPointInPoly(x, y, path)]; the loop starts with [j = path.length - 1]. *)
Definition isPointInPoly (x y : R) (pth : list Point) : bool :=
  ray_loop x y pth (last pth origin) false.


Record Viewport : Type := mkViewport {
  scale : R;
  offsetX : R;
  offsetY : R;
  canvasWidth : R;
  canvasHeight : R
}.

(** The world point of a canvas point (lines 644-645). *)
Definition to_world (v : Viewport) (canvasX canvasY : R) : R * R :=
  (((canvasX - offsetX v) / scale v)%R, ((canvasY - offsetY v) / scale v)%R).

(** Where [draw] puts a world point on the canvas: [translate(offsetX,
    offsetY)] then [scale(scale, scale)] (lines 449-450). *)
Definition to_canvas (v : Viewport) (wx wy : R) : R * R :=
  ((wx * scale v + offsetX v)%R, (wy * scale v + offsetY v)%R).


(** The bounds of [autoCenter] while it scans the points: [None] stands for
    the initial [Infinity] and [-Infinity], before the first point. *)
Definition Bounds : Type := option (R * R * R * R).

Definition bounds_point (b : Bounds) (p : Point) : Bounds :=
  match b with
  | None => Some (px p, px p, py p, py p)
  | Some (minX, maxX, minY, maxY) =>
      Some (if Rltb (px p) minX then px p else minX,
            if Rltb maxX (px p) then px p else maxX,
            if Rltb (py p) minY then py p else minY,
            if Rltb maxY (py p) then py p else maxY)
  end.

Definition bounds_path (b : Bounds) (pth : list Point) : Bounds :=
  fold_left bounds_point pth b.

Definition bounds_polygons (polys : list Polygon) : Bounds :=
  fold_left (fun b poly => bounds_path b (path poly)) polys None.

(** [autoCenter(polygons)] for an array of polygons: the new viewport. *)
Definition autoCenter (v : Viewport) (polys : list Polygon) : Viewport :=
  match bounds_polygons polys with
  | None => v
  | Some (minX, maxX, minY, maxY) =>
      let width := (maxX - minX)%R in
      let height := (maxY - minY)%R in
      let padding := 50%R in
      let targetW := (width + padding * 2)%R in
      let targetH := (height + padding * 2)%R in
      let scaleX := (canvasWidth v / targetW)%R in
      let scaleY := (canvasHeight v / targetH)%R in
      let scale' := Rmin (Rmin scaleX scaleY) 5 in
      let cx := ((minX + maxX) / 2)%R in
      let cy := ((minY + maxY) / 2)%R in
      mkViewport scale'
                 (canvasWidth v / 2 - cx * scale')%R
                 (canvasHeight v / 2 - cy * scale')%R
                 (canvasWidth v) (canvasHeight v)
  end.

(** [Math.min(Math.max(0.1, s), 20)], the limit on the zoom (lines 197 and
    240). *)
Definition clamp_scale (s : R) : R := Rmin (Rmax (1 / 10) s) 20.

(** What changes the viewport: the wheel (lines 233-247), a mouse move
    while dragging (lines 131-138, [dx] and [dy] being the distance from the
    last position), a two-finger move (lines 187-211, with the distance
    [dist] between the fingers and the one remembered, [lastPinchDist]),
    [autoCenter], [resize] with the new client size of the canvas, and
    [centerView]. *)
Inductive ViewEvent : Type :=
| Wheel (deltaY : R)
| Drag (dx dy : R)
| Pinch (dx dy dist lastPinchDist : R)
| AutoCenter (polys : list Polygon)
| Resize (clientWidth clientHeight : R)
| CenterView.

Definition view_step (v : Viewport) (e : ViewEvent) : Viewport :=
  match e with
  | Wheel deltaY =>
      let zoomSensitivity := (1 / 1000)%R in
      let delta := (- deltaY * zoomSensitivity)%R in
      let newScale := clamp_scale (scale v + delta) in
      mkViewport newScale (offsetX v) (offsetY v)
                 (canvasWidth v) (canvasHeight v)
  | Drag dx dy =>
      mkViewport (scale v) (offsetX v + dx)%R (offsetY v + dy)%R
                 (canvasWidth v) (canvasHeight v)
  | Pinch dx dy dist lastPinchDist =>
      let scale' :=
        if Rltb 0 lastPinchDist
        then let zoomFactor := (dist / lastPinchDist)%R in
             clamp_scale (scale v * zoomFactor)
        else scale v in
      mkViewport scale' (offsetX v + dx)%R (offsetY v + dy)%R
                 (canvasWidth v) (canvasHeight v)
  | AutoCenter polys => autoCenter v polys
  | Resize clientWidth clientHeight =>
      mkViewport (scale v) (offsetX v) (offsetY v) clientWidth clientHeight
  | CenterView =>
      mkViewport (scale v) (canvasWidth v / 2)%R (canvasHeight v / 2)%R
                 (canvasWidth v) (canvasHeight v)
  end.

(** * Definitions for the statements

    What the theorems below speak about: the quantities of the
    specification, and names for the states and intermediate results of the
    methods above. *)

(** The interior term of both sequences, as the specification writes it. *)
Definition term (m k j : Z) : Z := (j * m) mod k.

(** The index at which a loop entered at [j] with [cnt] iterations left
    stops: the first index whose term is zero, or [j + cnt]. *)
Fixpoint first_stop (cnt : nat) (m k j : Z) : Z :=
  match cnt with
  | O => j
  | S cnt' => if Z.rem (j * m) k =? 0 then j else first_stop cnt' m k (j + 1)
  end.

(** The stopping index of both sequences of [(m, k)]. *)
Definition stop_index (m k : Z) : Z := first_stop (Z.to_nat (k - 1)) m k 1.

Open Scope R_scope.

(** The coordinate sums of the direction vectors of a sequence. *)
Fixpoint sum_x (n : Z) (ds : list Z) : R :=
  match ds with
  | [] => 0
  | d :: rest => px (getVector n d) + sum_x n rest
  end.

Fixpoint sum_y (n : Z) (ds : list Z) : R :=
  match ds with
  | [] => 0
  | d :: rest => py (getVector n d) + sum_y n rest
  end.

Open Scope Z_scope.

(** The polygon of [generatePrototile], independently of the generator. *)
Definition prototile (m k n : Z) : Polygon :=
  match fst (generatePrototile m k n new_generator) with
  | poly :: _ => poly
  | [] => mkPolygon [] ColorUndefined "" empty_meta
  end.

(** The base index and the final index as the specification writes them. *)
Definition spec_base_index (count r c : Z) (rv : bool) : Z :=
  if rv then (count - ((r + c) mod count)) mod count else (r + c) mod count.

Definition spec_color_index (count r c : Z) (rv : bool) (sc : Z) : Z :=
  (spec_base_index count r c rv + sc) mod count.

(** The triangular number [r (r + 1) / 2]: the tile index at which row [r]
    starts. *)
Definition tri (r : Z) : Z := r * (r + 1) / 2.

(** The tiles of row [r] of a wedge, columns [c, c+1, ...], when the tile
    index of column [c] is [t]. *)
Definition row_tiles (cfg : Config) (basePath : list Point) (d0 d1 : Point)
                     (g : Generator) (r t : Z) (cnt : nat) (c : Z)
  : list Polygon :=
  map (fun c' => wedge_tile cfg g basePath d0 d1 r c' (t + (c' - c)))
      (JS.range cnt c).

(** The cells [(r, c)] with [0 <= c <= r < rows], row by row. *)
Definition wedge_cells (rows : Z) : list (Z * Z) :=
  flat_map (fun r => map (fun c => (r, c)) (JS.range (Z.to_nat (r + 1)) 0))
           (JS.range (Z.to_nat rows) 0).

(** The palette is the one that [generatePalette()] would build. *)
Definition palette_ready (cfg : Config) (g : Generator) : Prop :=
  palette g =
  palette_loop (Z.to_nat (colorCount cfg)) (paletteType g) (colorCount cfg)
               0 [].

(** What [generatePrototile] writes to the console. *)
Definition parameter_errors (k n : Z) : list LogEvent :=
  if n <? k then [ParameterError; ParameterError] else [].

(** The generator as [generateWedge] leaves it, up to [polygons] and
    [console]: the palette of the colour count and palette type, and the
    current parameters. *)
Definition tiling_env (cfg : Config) (m k n : Z) (type : string) : Generator :=
  mkGenerator []
    (palette_loop (Z.to_nat (colorCount cfg)) type (colorCount cfg) 0 [])
    type (m, k, n) [].

(** The wedges that the placement loop places, in order, each with its
    start position; the loop is entered at [i] with [cnt] iterations
    left. *)
Fixpoint placements (k n : Z) (cnt : nat) (i : Z) (front_directions : list Z)
  : list (Z * Point) :=
  match cnt with
  | O => []
  | S cnt' =>
      match find_j_star front_directions i with
      | None => placements k n cnt' (i + 1) front_directions
      | Some j_star =>
          (i, start_pos n (firstn j_star front_directions) origin)
          :: placements k n cnt' (i + 1)
                        (JS.assign front_directions j_star (i + k))
      end
  end.

(** The wedges that the loop skips. *)
Fixpoint skipped (k : Z) (cnt : nat) (i : Z) (front_directions : list Z)
  : list Z :=
  match cnt with
  | O => []
  | S cnt' =>
      match find_j_star front_directions i with
      | None => i :: skipped k cnt' (i + 1) front_directions
      | Some j_star =>
          skipped k cnt' (i + 1) (JS.assign front_directions j_star (i + k))
      end
  end.

(** The front after the loop. *)
Fixpoint front_after (k : Z) (cnt : nat) (i : Z) (front_directions : list Z)
  : list Z :=
  match cnt with
  | O => front_directions
  | S cnt' =>
      match find_j_star front_directions i with
      | None => front_after k cnt' (i + 1) front_directions
      | Some j_star =>
          front_after k cnt' (i + 1)
                      (JS.assign front_directions j_star (i + k))
      end
  end.

(** The polygons pushed for a placed wedge. *)
Definition placed_wedge (n : Z) (cfg : Config) (baseWedge : list Polygon)
                        (g : Generator) (ip : Z * Point) : list Polygon :=
  map (transformed_tile cfg g n (px (snd ip)) (py (snd ip)) (fst ip))
      baseWedge.

(** The state in which [generateTiling] enters the placement loop. *)
Definition entry_state (cfg : Config) (m k n rows : Z) (g : Generator)
  : TilingState :=
  mkTilingState
    (removelast (fst (build_u_seq m k false)))
    (mkGenerator (fst (generateWedge cfg m k n rows g))
       (palette (tiling_env cfg m k n (paletteType g)))
       (paletteType g) (m, k, n) (console g ++ parameter_errors k n)).

(** The state after [t] iterations of the placement loop. *)
Definition run_state (cfg : Config) (m k n rows : Z) (g : Generator)
                     (t : nat) : TilingState :=
  tiling_loop t cfg k n (fst (generateWedge cfg m k n rows g)) 1
              (entry_state cfg m k n rows g).

(** Rotation about the origin and translation, as the specification
    describes the copy of a wedge. *)
Definition rotate (theta : R) (p : Point) : Point :=
  mkPoint (px p * cos theta - py p * sin theta)
          (px p * sin theta + py p * cos theta).

Definition translate (v p : Point) : Point :=
  mkPoint (px p + px v) (py p + py v).

(** The pivot of the offset mode: half of [getVector(0)]. *)
Definition pivot (n : Z) : Point :=
  mkPoint (px (getVector n 0) / 2) (py (getVector n 0) / 2).

(** The polygons of the primary pass: those of the state that
    [tiling_primary] returns, none when [generateTiling] returns early. *)
Definition primary_polygons (cfg : Config) (m k n rows : Z) (isOffset : bool)
                            (g : Generator) : list Polygon :=
  match tiling_primary cfg m k n rows isOffset g with
  | inl _ => []
  | inr st => polygons (gen st)
  end.

(** Wedge [i] was placed in the run: it was found in the front in its
    iteration. *)
Definition placed (cfg : Config) (m k n rows : Z) (g : Generator) (i : Z)
  : Prop :=
  In i (front (run_state cfg m k n rows g (Z.to_nat (i - 1)))).

(** What of a polygon is not colour: its path, stroke and metadata. *)
Definition geometry (p : Polygon) : list Point * string * Meta :=
  (path p, stroke p, meta p).

(** The front holds every value of the window [lo, lo + k). *)
Definition window (k lo : Z) (fr : list Z) : Prop :=
  forall v, lo <= v < lo + k -> In v fr.

(** A property of every pair of neighbours in a list. *)
Fixpoint consecutive {A : Type} (P : A -> A -> Prop) (l : list A) : Prop :=
  match l with
  | [] => True
  | a :: tl =>
      match tl with
      | [] => True
      | b :: _ => P a b
      end /\ consecutive P tl
  end.

(** The step from [p] to [q] is a direction vector of [n], forward or
    backward. *)
Definition lattice_edge (n : Z) (p q : Point) : Prop :=
  exists d : Z,
    (px q - px p = px (getVector n d) /\
     py q - py p = py (getVector n d))%R \/
    (px q - px p = - px (getVector n d) /\
     py q - py p = - py (getVector n d))%R.

(** The step from [p] to [q] has the unit length 100. *)
Definition unit_edge (p q : Point) : Prop :=
  ((px q - px p) * (px q - px p) + (py q - py p) * (py q - py p) =
   100 * 100)%R.

(** A map of the plane that takes lattice edges to lattice edges. *)
Definition edge_preserving (n : Z) (f : Point -> Point) : Prop :=
  forall a b, lattice_edge n a b -> lattice_edge n (f a) (f b).

(** All the points that [autoCenter] scans, in scanning order. *)
Definition all_points (polys : list Polygon) : list Point :=
  flat_map path polys.

(** [box] is the bounding box of [pts]: it contains every point, and each
    of its four sides passes through one. *)
Definition bounding_box (pts : list Point) (box : R * R * R * R) : Prop :=
  let '(minX, maxX, minY, maxY) := box in
  (forall p, In p pts ->
             (minX <= px p <= maxX)%R /\ (minY <= py p <= maxY)%R) /\
  (exists p, In p pts /\ px p = minX) /\
  (exists p, In p pts /\ px p = maxX) /\
  (exists p, In p pts /\ py p = minY) /\
  (exists p, In p pts /\ py p = maxY).


(** A resize to a canvas of positive size; any other event. *)
Definition keeps_canvas_positive (e : ViewEvent) : Prop :=
  match e with
  | Resize clientWidth clientHeight =>
      (0 < clientWidth)%R /\ (0 < clientHeight)%R
  | _ => True
  end.

(** * Properties *)

(** ** Boundary sequences *)

Lemma rem_is_term (m k j : Z) :
  0 <= m -> 0 < k -> 0 <= j -> Z.rem (j * m) k = term m k j.
Proof.
  intros Hm Hk Hj. unfold term. apply Z.rem_mod_nonneg; nia.
Qed.

Lemma range_length (cnt : nat) (lo : Z) : length (JS.range cnt lo) = cnt.
Proof.
  revert lo. induction cnt as [|cnt IH]; intros lo; simpl; [reflexivity|].
  now rewrite IH.
Qed.

Lemma range_In (cnt : nat) (lo x : Z) :
  In x (JS.range cnt lo) <-> lo <= x < lo + Z.of_nat cnt.
Proof.
  revert lo. induction cnt as [|cnt IH]; intros lo; simpl.
  - split; [tauto | lia].
  - rewrite IH. lia.
Qed.

(** Past its first iteration the loop of [l_seq] is the loop of [u_seq]. *)
Lemma l_seq_loop_pos (cnt : nat) (m k j : Z) (acc : list Z) (short : bool) :
  0 < j -> l_seq_loop cnt m k j acc short = u_seq_loop cnt m k j acc short.
Proof.
  revert j acc. induction cnt as [|cnt IH]; intros j acc Hj; simpl.
  - reflexivity.
  - assert (Hb : (0 <? j) = true) by (apply Z.ltb_lt; lia).
    rewrite Hb. simpl. destruct (Z.rem (j * m) k =? 0); [reflexivity|].
    apply IH. lia.
Qed.

Lemma first_stop_spec (m k : Z) (cnt : nat) :
  forall j : Z,
    j <= first_stop cnt m k j <= j + Z.of_nat cnt /\
    (forall j', j <= j' < first_stop cnt m k j -> Z.rem (j' * m) k <> 0) /\
    (first_stop cnt m k j < j + Z.of_nat cnt ->
     Z.rem (first_stop cnt m k j * m) k = 0).
Proof.
  induction cnt as [|cnt IH]; intros j; cbn [first_stop].
  - repeat split; lia.
  - destruct (Z.rem (j * m) k =? 0) eqn:Hz.
    + apply Z.eqb_eq in Hz. repeat split; try lia; intros; exact Hz.
    + apply Z.eqb_neq in Hz. destruct (IH (j + 1)) as (Hp & Hnz & Hstop).
      split; [lia|]. split.
      * intros j' Hj'. destruct (Z.eq_dec j' j) as [->|Hne]; [exact Hz|].
        apply Hnz. lia.
      * intros Hlt. apply Hstop. lia.
Qed.

(** What the loop of [u_seq] computes. *)
Lemma u_seq_loop_spec (m k : Z) (cnt : nat) :
  forall (j : Z) (acc : list Z) (short : bool),
    u_seq_loop cnt m k j acc short =
      (acc ++ map (fun j' => Z.rem (j' * m) k)
                  (JS.range (Z.to_nat (first_stop cnt m k j - j)) j),
       if first_stop cnt m k j <? j + Z.of_nat cnt then true else short).
Proof.
  induction cnt as [|cnt IH]; intros j acc short;
    cbn [u_seq_loop first_stop].
  - rewrite Z.sub_diag. cbn. rewrite app_nil_r.
    replace (j <? j + 0) with false by (symmetry; apply Z.ltb_ge; lia).
    reflexivity.
  - destruct (Z.rem (j * m) k =? 0) eqn:Hz.
    + rewrite Z.sub_diag. cbn [Z.to_nat JS.range map]. rewrite app_nil_r.
      replace (j <? j + Z.of_nat (S cnt)) with true
        by (symmetry; apply Z.ltb_lt; lia).
      reflexivity.
    + rewrite IH.
      pose proof (first_stop_spec m k cnt (j + 1)) as (Hp & _ & _).
      replace (Z.to_nat (first_stop cnt m k (j + 1) - j))
        with (S (Z.to_nat (first_stop cnt m k (j + 1) - (j + 1)))) by lia.
      cbn [JS.range map]. rewrite <- app_assoc. cbn [app].
      replace (j + 1 + Z.of_nat cnt) with (j + Z.of_nat (S cnt)) by lia.
      reflexivity.
Qed.

Lemma stop_index_spec (m k : Z) :
  0 < k ->
  1 <= stop_index m k <= k /\
  (forall j, 1 <= j < stop_index m k -> Z.rem (j * m) k <> 0) /\
  (stop_index m k < k -> Z.rem (stop_index m k * m) k = 0).
Proof.
  intros Hk. unfold stop_index.
  destruct (first_stop_spec m k (Z.to_nat (k - 1)) 1) as (Hp & Hnz & Hstop).
  split; [lia|]. split; [exact Hnz|]. intros Hlt. apply Hstop. lia.
Qed.

Lemma build_u_seq_spec (m k : Z) (short : bool) :
  0 < k ->
  build_u_seq m k short =
    (k :: map (fun j => Z.rem (j * m) k)
              (JS.range (Z.to_nat (stop_index m k - 1)) 1) ++ [0],
     if stop_index m k <? k then true else short).
Proof.
  intros Hk. unfold build_u_seq. rewrite u_seq_loop_spec.
  fold (stop_index m k).
  replace (1 + Z.of_nat (Z.to_nat (k - 1))) with k by lia.
  reflexivity.
Qed.

Lemma build_l_seq_spec (m k : Z) (short : bool) :
  0 < k ->
  build_l_seq m k short =
    (0 :: map (fun j => Z.rem (j * m) k)
              (JS.range (Z.to_nat (stop_index m k - 1)) 1) ++ [k],
     if stop_index m k <? k then true else short).
Proof.
  intros Hk. unfold build_l_seq.
  replace (Z.to_nat k) with (S (Z.to_nat (k - 1))) by lia.
  cbn [l_seq_loop]. replace (0 <? 0) with false by reflexivity.
  cbn [andb]. change (0 + 1) with 1.
  rewrite l_seq_loop_pos by lia. rewrite u_seq_loop_spec.
  fold (stop_index m k).
  replace (1 + Z.of_nat (Z.to_nat (k - 1))) with k by lia.
  rewrite Z.mul_0_l, Z.rem_0_l by lia. reflexivity.
Qed.

Lemma boundary_sequences_spec (m k : Z) :
  0 < k ->
  boundary_sequences m k =
    (0 :: map (fun j => Z.rem (j * m) k)
              (JS.range (Z.to_nat (stop_index m k - 1)) 1) ++ [k],
     k :: map (fun j => Z.rem (j * m) k)
              (JS.range (Z.to_nat (stop_index m k - 1)) 1) ++ [0],
     stop_index m k <? k).
Proof.
  intros Hk. unfold boundary_sequences.
  rewrite build_l_seq_spec by exact Hk.
  rewrite build_u_seq_spec by exact Hk.
  destruct (stop_index m k <? k); reflexivity.
Qed.

Lemma build_u_seq_flag (m k : Z) (s : bool) :
  fst (build_u_seq m k s) = fst (build_u_seq m k false).
Proof. unfold build_u_seq. rewrite !u_seq_loop_spec. reflexivity. Qed.

Lemma boundary_sequences_U (m k : Z) :
  snd (fst (boundary_sequences m k)) = fst (build_u_seq m k false).
Proof.
  unfold boundary_sequences. destruct (build_l_seq m k false) as [l s1].
  pose proof (build_u_seq_flag m k s1) as H.
  destruct (build_u_seq m k s1) as [u s2]. exact H.
Qed.

Lemma boundary_sequences_L (m k : Z) :
  fst (fst (boundary_sequences m k)) = fst (build_l_seq m k false).
Proof.
  unfold boundary_sequences. destruct (build_l_seq m k false) as [l s1].
  destruct (build_u_seq m k s1) as [u s2]. reflexivity.
Qed.

Lemma gcd_gives_zero_term (m k : Z) :
  0 < m -> 0 < k -> 1 < Z.gcd m k ->
  exists j, 0 < j < k /\ term m k j = 0.
Proof.
  intros Hm Hk Hg.
  destruct (Z.gcd_divide_l m k) as [a Ha].
  destruct (Z.gcd_divide_r m k) as [b Hb].
  set (g := Z.gcd m k) in *.
  exists b. split; [nia|].
  unfold term. replace (b * m) with (a * k) by nia.
  apply Z.mod_mul. lia.
Qed.

(** ** The walk of the prototile *)

Open Scope R_scope.

Lemma sum_x_app (n : Z) (a b : list Z) :
  sum_x n (a ++ b) = sum_x n a + sum_x n b.
Proof. induction a as [|d a IH]; simpl; [lra | rewrite IH; lra]. Qed.

Lemma sum_y_app (n : Z) (a b : list Z) :
  sum_y n (a ++ b) = sum_y n a + sum_y n b.
Proof. induction a as [|d a IH]; simpl; [lra | rewrite IH; lra]. Qed.

Lemma sum_x_rev (n : Z) (a : list Z) : sum_x n (rev a) = sum_x n a.
Proof.
  induction a as [|d a IH]; simpl; [reflexivity|].
  rewrite sum_x_app, IH. simpl. lra.
Qed.

Lemma sum_y_rev (n : Z) (a : list Z) : sum_y n (rev a) = sum_y n a.
Proof.
  induction a as [|d a IH]; simpl; [reflexivity|].
  rewrite sum_y_app, IH. simpl. lra.
Qed.

Lemma walk_forward_fst (n : Z) (ds : list Z) :
  forall current pth,
    fst (walk_forward n ds current pth) =
    mkPoint (px current + sum_x n ds) (py current + sum_y n ds).
Proof.
  induction ds as [|d ds IH]; intros current pth; simpl.
  - destruct current; simpl. f_equal; lra.
  - rewrite IH. simpl. f_equal; lra.
Qed.

Lemma walk_backward_fst (n : Z) (ds : list Z) :
  forall current pth,
    fst (walk_backward n ds current pth) =
    mkPoint (px current - sum_x n ds) (py current - sum_y n ds).
Proof.
  induction ds as [|d ds IH]; intros current pth; simpl.
  - destruct current; simpl. f_equal; lra.
  - rewrite IH. simpl. f_equal; lra.
Qed.

(** The path always ends at the current position, and keeps its first
    point. *)
Lemma walk_forward_last (n : Z) (ds : list Z) :
  forall current pth,
    last pth origin = current ->
    last (snd (walk_forward n ds current pth)) origin =
    fst (walk_forward n ds current pth).
Proof.
  induction ds as [|d ds IH]; intros current pth Hl; simpl.
  - exact Hl.
  - apply IH. apply last_last.
Qed.

Lemma walk_backward_last (n : Z) (ds : list Z) :
  forall current pth,
    last pth origin = current ->
    last (snd (walk_backward n ds current pth)) origin =
    fst (walk_backward n ds current pth).
Proof.
  induction ds as [|d ds IH]; intros current pth Hl; simpl.
  - exact Hl.
  - apply IH. apply last_last.
Qed.

Lemma walk_forward_length (n : Z) (ds : list Z) :
  forall current pth,
    length (snd (walk_forward n ds current pth)) =
    (length pth + length ds)%nat.
Proof.
  induction ds as [|d ds IH]; intros current pth; simpl.
  - lia.
  - rewrite IH, length_app. simpl. lia.
Qed.

Lemma walk_backward_length (n : Z) (ds : list Z) :
  forall current pth,
    length (snd (walk_backward n ds current pth)) =
    (length pth + length ds)%nat.
Proof.
  induction ds as [|d ds IH]; intros current pth; simpl.
  - lia.
  - rewrite IH, length_app. simpl. lia.
Qed.

Lemma walk_forward_hd (n : Z) (ds : list Z) :
  forall current pth,
    pth <> [] ->
    hd origin (snd (walk_forward n ds current pth)) = hd origin pth.
Proof.
  induction ds as [|d ds IH]; intros current pth Hne; simpl.
  - reflexivity.
  - rewrite IH; destruct pth; simpl; congruence.
Qed.

Lemma walk_backward_hd (n : Z) (ds : list Z) :
  forall current pth,
    pth <> [] ->
    hd origin (snd (walk_backward n ds current pth)) = hd origin pth.
Proof.
  induction ds as [|d ds IH]; intros current pth Hne; simpl.
  - reflexivity.
  - rewrite IH; destruct pth; simpl; congruence.
Qed.

Lemma hypot_0 : hypot 0 0 = 0.
Proof. unfold hypot. rewrite Rmult_0_l, Rplus_0_l. apply sqrt_0. Qed.

Open Scope Z_scope.

Lemma generatePrototile_result (m k n : Z) (g : Generator) :
  fst (generatePrototile m k n g) = [prototile m k n].
Proof.
  unfold prototile, generatePrototile.
  destruct (build_l_seq m k false) as [l_seq s1].
  destruct (build_u_seq m k s1) as [u_seq s2].
  destruct (walk_forward n l_seq origin [origin]) as [c1 p1].
  destruct (walk_backward n (rev u_seq) c1 p1) as [c2 p2].
  destruct (n <? k); reflexivity.
Qed.

(** In exact arithmetic the walk along [L] and back along [U] ends where it
    started, whenever [k] is positive. *)
Lemma prototile_closed (m k n : Z) :
  0 < k ->
  last (path (prototile m k n)) origin = origin /\
  hd origin (path (prototile m k n)) = origin /\
  closureError (meta (prototile m k n)) = Some 0%R.
Proof.
  intros Hk. unfold prototile, generatePrototile.
  rewrite build_l_seq_spec, build_u_seq_spec by exact Hk.
  set (mid := map (fun j => Z.rem (j * m) k)
                  (JS.range (Z.to_nat (stop_index m k - 1)) 1)).
  set (L := 0 :: mid ++ [k]). set (U := k :: mid ++ [0]).
  pose proof (walk_forward_fst n L origin [origin]) as Hf.
  pose proof (walk_forward_last n L origin [origin] eq_refl) as Hfl.
  pose proof (walk_forward_hd n L origin [origin] ltac:(discriminate)) as Hfh.
  pose proof (walk_forward_length n L origin [origin]) as Hlen.
  destruct (walk_forward n L origin [origin]) as [c1 p1].
  cbn [fst snd] in Hf, Hfl, Hfh, Hlen.
  assert (Hne : p1 <> []) by (intros ->; simpl in Hlen; lia).
  pose proof (walk_backward_fst n (rev U) c1 p1) as Hb.
  pose proof (walk_backward_last n (rev U) c1 p1 Hfl) as Hbl.
  pose proof (walk_backward_hd n (rev U) c1 p1 Hne) as Hbh.
  destruct (walk_backward n (rev U) c1 p1) as [c2 p2].
  cbn [fst snd] in Hb, Hbl, Hbh.
  assert (Hc2 : c2 = origin).
  { rewrite Hb, Hf, sum_x_rev, sum_y_rev. unfold L, U, origin.
    cbn [sum_x sum_y px py]. rewrite !sum_x_app, !sum_y_app.
    cbn [sum_x sum_y]. f_equal; lra. }
  destruct (n <? k); cbn; (split; [congruence|]);
    (split; [rewrite Hbh, Hfh; reflexivity|]);
    rewrite Hc2; cbn; rewrite hypot_0; reflexivity.
Qed.

(** ** The builder's results *)

(** The flag that [generatePrototile] reports is the builder's. *)
Lemma prototile_hasShortPeriod (m k n : Z) :
  hasShortPeriod (meta (prototile m k n)) =
  Some (snd (boundary_sequences m k)).
Proof.
  unfold prototile, generatePrototile, boundary_sequences.
  destruct (build_l_seq m k false) as [l_seq s1].
  destruct (build_u_seq m k s1) as [u_seq s2].
  destruct (walk_forward n l_seq origin [origin]) as [c1 p1].
  destruct (walk_backward n (rev u_seq) c1 p1) as [c2 p2].
  destruct (n <? k); reflexivity.
Qed.

(** The path that [generatePrototile] returns is the path of the two
    walks. *)
Lemma prototile_path (m k n : Z) :
  let L := fst (fst (boundary_sequences m k)) in
  let U := snd (fst (boundary_sequences m k)) in
  path (prototile m k n) =
  snd (walk_backward n (rev U)
         (fst (walk_forward n L origin [origin]))
         (snd (walk_forward n L origin [origin]))).
Proof.
  unfold prototile, generatePrototile, boundary_sequences.
  destruct (build_l_seq m k false) as [l_seq s1].
  destruct (build_u_seq m k s1) as [u_seq s2]. cbn [fst snd].
  destruct (walk_forward n l_seq origin [origin]) as [c1 p1]. cbn [fst snd].
  destruct (walk_backward n (rev u_seq) c1 p1) as [c2 p2].
  destruct (n <? k); reflexivity.
Qed.

(** C5.  For positive [m] and [k] the builder stops at an index [p] in
    [1..k], the first positive index whose term [(j*m) mod k] is zero or [k]
    when there is none; [L] is the terms of [0..p-1] followed by the sentinel
    [k], [U] is [k], the terms of [1..p-1] and the sentinel [0];
    [hasShortPeriod] holds exactly when the stop is early ([p < k]), that is
    exactly when some [0 < j < k] has a zero term; without an early stop both
    sequences are the full ones; when [gcd m k > 1] the flag is set and each
    sequence has fewer than [k] (hence fewer than [k+1]) entries before its
    sentinel; the flag is the [hasShortPeriod] of the polygon that
    [generatePrototile] returns; and for [(3, 7)] the sequences are the ones
    of the specification's example. *)
Theorem C5_boundary_sequences (m k : Z) (Hm : 0 < m) (Hk : 0 < k) :
  (exists p L U short,
     boundary_sequences m k = (L, U, short) /\
     1 <= p <= k /\
     (forall j, 0 < j < p -> term m k j <> 0) /\
     (p < k -> term m k p = 0) /\
     L = map (term m k) (JS.range (Z.to_nat p) 0) ++ [k] /\
     U = [k] ++ map (term m k) (JS.range (Z.to_nat (p - 1)) 1) ++ [0] /\
     (short = true <-> p < k) /\
     (short = true <-> exists j, 0 < j < k /\ term m k j = 0) /\
     (short = false ->
      L = map (term m k) (JS.range (Z.to_nat k) 0) ++ [k] /\
      U = [k] ++ map (term m k) (JS.range (Z.to_nat (k - 1)) 1) ++ [0]) /\
     (1 < Z.gcd m k ->
      short = true /\
      Z.of_nat (length L) - 1 < k /\ Z.of_nat (length U) - 1 < k) /\
     (forall n g, exists poly,
        fst (generatePrototile m k n g) = [poly] /\
        hasShortPeriod (meta poly) = Some short)) /\
  boundary_sequences 3 7 =
    ([0; 3; 6; 2; 5; 1; 4; 7], [7; 3; 6; 2; 5; 1; 4; 0], false).
Proof.
  split; [|reflexivity].
  destruct (stop_index_spec m k Hk) as (Hp & Hnz & Hstop).
  set (p := stop_index m k) in *.
  assert (Hmap : forall cnt lo, 0 <= lo ->
            map (fun j => Z.rem (j * m) k) (JS.range cnt lo) =
            map (term m k) (JS.range cnt lo)).
  { intros cnt lo Hlo. apply map_ext_in. intros j Hj.
    apply range_In in Hj. apply rem_is_term; lia. }
  assert (HL : 0 :: map (fun j => Z.rem (j * m) k)
                        (JS.range (Z.to_nat (p - 1)) 1) ++ [k] =
               map (term m k) (JS.range (Z.to_nat p) 0) ++ [k]).
  { replace (Z.to_nat p) with (S (Z.to_nat (p - 1))) by lia.
    cbn [JS.range map app]. change (0 + 1) with 1.
    rewrite Hmap by lia. unfold term at 2.
    rewrite Z.mul_0_l, Z.mod_0_l by lia. reflexivity. }
  assert (HU : k :: map (fun j => Z.rem (j * m) k)
                        (JS.range (Z.to_nat (p - 1)) 1) ++ [0] =
               [k] ++ map (term m k) (JS.range (Z.to_nat (p - 1)) 1) ++ [0]).
  { rewrite Hmap by lia. reflexivity. }
  assert (Hshort : (p <? k) = true <-> p < k) by apply Z.ltb_lt.
  assert (Hex : p < k <-> exists j, 0 < j < k /\ term m k j = 0).
  { split.
    - intros Hlt. exists p. split; [lia|].
      rewrite <- rem_is_term by lia. apply Hstop, Hlt.
    - intros (j & Hj & Hz). destruct (Z.lt_ge_cases p k) as [|Hge]; [assumption|].
      exfalso. apply (Hnz j); [lia|]. rewrite rem_is_term by lia. exact Hz. }
  exists p, (map (term m k) (JS.range (Z.to_nat p) 0) ++ [k]),
    ([k] ++ map (term m k) (JS.range (Z.to_nat (p - 1)) 1) ++ [0]), (p <? k).
  split.
  { rewrite boundary_sequences_spec by exact Hk. fold p.
    rewrite HL, HU. reflexivity. }
  split; [exact Hp|]. split.
  { intros j Hj. rewrite <- rem_is_term by lia. apply Hnz. lia. }
  split.
  { intros Hlt. rewrite <- rem_is_term by lia. apply Hstop, Hlt. }
  split; [reflexivity|]. split; [reflexivity|]. split; [exact Hshort|].
  split; [rewrite Hshort; exact Hex|]. split.
  { intros Hf. apply Z.ltb_ge in Hf. replace p with k by lia. split; reflexivity. }
  split.
  { intros Hg. assert (Hlt : p < k).
    { apply Hex. apply gcd_gives_zero_term; assumption. }
    split; [apply Hshort, Hlt|].
    repeat (rewrite ?length_app, ?length_map, ?range_length; cbn [length app]).
    lia. }
  intros n g. exists (prototile m k n).
  split; [apply generatePrototile_result|].
  rewrite prototile_hasShortPeriod, boundary_sequences_spec by exact Hk.
  reflexivity.
Qed.

(** The theorem at [(m, k) = (2, 6)], where the sequences stop at [j = 3]. *)
Lemma C5_boundary_sequences_witness :
  0 < 2 /\ 0 < 6 /\
  boundary_sequences 2 6 = ([0; 2; 4; 6], [6; 2; 4; 0], true) /\
  boundary_sequences 3 7 =
    ([0; 3; 6; 2; 5; 1; 4; 7], [7; 3; 6; 2; 5; 1; 4; 0], false).
Proof.
  split; [lia|]. split; [lia|]. split; [reflexivity|].
  exact (proj2 (C5_boundary_sequences 2 6 ltac:(lia) ltac:(lia))).
Defined.

(** ** The closure property *)

(** C3.  For coprime [(m, k)] with [1 <= m < k] and [n >= k], the walk of
    [generatePrototile(m, k, n)], forward through [L] and then backward
    through the reversed [U], ends at the origin in exact arithmetic: the
    final accumulated position is [(0, 0)]; the returned polygon's path is
    the path of this walk, it starts and ends at the origin, and the
    reported [closureError] is [0]. *)
Theorem C3_prototile_closure (m k n : Z) (g : Generator)
    (Hm : 1 <= m < k) (Hcoprime : Z.gcd m k = 1) (Hn : k <= n) :
  (forall L U short,
     boundary_sequences m k = (L, U, short) ->
     fst (walk_backward n (rev U)
            (fst (walk_forward n L origin [origin]))
            (snd (walk_forward n L origin [origin]))) = origin) /\
  exists poly,
    fst (generatePrototile m k n g) = [poly] /\
    (forall L U short,
       boundary_sequences m k = (L, U, short) ->
       path poly =
       snd (walk_backward n (rev U)
              (fst (walk_forward n L origin [origin]))
              (snd (walk_forward n L origin [origin])))) /\
    hd origin (path poly) = origin /\
    last (path poly) origin = origin /\
    closureError (meta poly) = Some 0%R.
Proof.
  assert (Hk : 0 < k) by lia. split.
  - intros L U short HB. rewrite boundary_sequences_spec in HB by exact Hk.
    injection HB as <- <- _.
    rewrite walk_backward_fst, walk_forward_fst, sum_x_rev, sum_y_rev.
    unfold origin. cbn [sum_x sum_y px py].
    rewrite !sum_x_app, !sum_y_app. cbn [sum_x sum_y]. f_equal; lra.
  - exists (prototile m k n).
    destruct (prototile_closed m k n Hk) as (Hl & Hh & Hc).
    split; [apply generatePrototile_result|]. split.
    { intros L U short HB. pose proof (prototile_path m k n) as Hp.
      cbn zeta in Hp. rewrite HB in Hp. exact Hp. }
    repeat split; assumption.
Qed.

(** The theorem at [generatePrototile(3, 7, 14)]. *)
Lemma C3_prototile_closure_witness :
  1 <= 3 < 7 /\ Z.gcd 3 7 = 1 /\ 7 <= 14 /\
  exists poly,
    fst (generatePrototile 3 7 14 new_generator) = [poly] /\
    hd origin (path poly) = origin /\
    last (path poly) origin = origin /\
    closureError (meta poly) = Some 0%R.
Proof.
  split; [lia|]. split; [reflexivity|]. split; [lia|].
  destruct (proj2 (C3_prototile_closure 3 7 14 new_generator
                     ltac:(lia) eq_refl ltac:(lia)))
    as (poly & Hres & _ & Hh & Hl & Hc).
  exists poly. repeat split; assumption.
Defined.

(** ** Parameter check *)

(** C1.  The code at [n < k]: [generatePrototile(1, 3, 2)] reports the
    parameter error on the console twice and still returns a list of one
    polygon whose path has nine points; [generateTiling(1, 3, 2, 2, false)]
    over it returns six polygons, two wedges of three tiles. *)
Theorem C1_parameter_violation_not_aborted :
  (2 <? 3) = true /\
  console (snd (generatePrototile 1 3 2 new_generator)) =
    [ParameterError; ParameterError] /\
  map (fun p => length (path p)) (fst (generatePrototile 1 3 2 new_generator))
    = [9%nat] /\
  map (fun p => (wedgeIndex (meta p), tileIndex (meta p)))
      (fst (generateTiling (TILING_CONFIG 3) 1 3 2 2 false new_generator)) =
    [(Some 0, Some 0); (Some 0, Some 1); (Some 0, Some 2);
     (Some 1, Some 0); (Some 1, Some 1); (Some 1, Some 2)].
Proof.
  repeat split; vm_compute; reflexivity.
Qed.

(** ** Colour index *)

Lemma spec_base_index_range (count r c : Z) (rv : bool) :
  0 < count -> 0 <= spec_base_index count r c rv < count.
Proof.
  intros H. unfold spec_base_index. destruct rv; apply Z.mod_pos_bound; lia.
Qed.

Lemma js_rem_nonneg (a b : Z) :
  0 <= a -> 0 < b -> JS.rem a b = Some (a mod b).
Proof.
  intros Ha Hb. unfold JS.rem.
  replace (b =? 0) with false by (symmetry; apply Z.eqb_neq; lia).
  now rewrite Z.rem_mod_nonneg by lia.
Qed.

(** With a positive count, non-negative indices and a rule whose start
    colour, when given, is not negative, the index is the specification's. *)
Lemma color_index_of_rule (count r c w : Z) (rule : WedgeRule) :
  0 < count -> 0 <= r -> 0 <= c -> 0 <= w ->
  (forall s, startColor rule = Some s -> 0 <= s) ->
  let rv := match reverse rule with
            | Some b => b
            | None => negb (Z.rem w 2 =? 0)
            end in
  (sc <- match startColor rule with
         | Some s => Some s
         | None => JS.rem w count
         end ;;
   baseIndex <- (if rv
                 then (q <- JS.rem (r + c) count ;; JS.rem (count - q) count)
                 else JS.rem (r + c) count) ;;
   JS.rem (baseIndex + sc) count) =
  Some (spec_color_index count r c rv
          match startColor rule with Some s => s | None => w mod count end).
Proof.
  intros Hcount Hr Hc Hw Hs rv.
  assert (Hq : 0 <= (r + c) mod count < count) by (apply Z.mod_pos_bound; lia).
  assert (Hsc : exists sc,
            match startColor rule with
            | Some s => Some s
            | None => JS.rem w count
            end = Some sc /\
            sc = match startColor rule with
                 | Some s => s | None => w mod count end /\ 0 <= sc).
  { destruct (startColor rule) as [s|].
    - exists s. repeat split. apply Hs. reflexivity.
    - exists (w mod count). rewrite js_rem_nonneg by lia.
      repeat split. apply Z.mod_pos_bound; lia. }
  destruct Hsc as (sc & -> & <- & Hsc0). cbn [obind].
  pose proof (spec_base_index_range count r c rv Hcount) as Hb.
  unfold spec_color_index. unfold spec_base_index in *.
  destruct rv.
  - rewrite js_rem_nonneg by lia. cbn [obind].
    rewrite js_rem_nonneg by lia. cbn [obind].
    rewrite js_rem_nonneg by lia. reflexivity.
  - rewrite js_rem_nonneg by lia. cbn [obind].
    rewrite js_rem_nonneg by lia. reflexivity.
Qed.

(** The rules that the file declares give start colours in [0..2]. *)
Lemma default_wedges_startColor (count m k n w s : Z) :
  startColor (find_wedge_config default_wedges count m k n w) = Some s ->
  0 <= s.
Proof.
  unfold default_wedges. cbn [find_wedge_config params rules].
  cbn [params_c params_m params_k params_n].
  destruct ((3 =? count) && (3 =? m) && (7 =? k) && (14 =? n));
    [|discriminate].
  cbn [lookup_rule].
  repeat match goal with
         | |- context [if ?a =? ?b then _ else _] => destruct (a =? b)
         end; cbn; intros H; inversion H; lia.
Qed.

(** C9.  With [TILING_CONFIG.colorCount = count > 0] and row, column and
    wedge indices that are not negative, [getColorIndex(r, c, wedgeIndex)]
    returns an integer in [[0, count)]; and when the current parameters are
    set (none of [m], [k], [n] is zero) it is
    [(baseIndex + startColor) mod count] with the base index of the
    specification, where [reverse] and [startColor] are those of the
    per-wedge entry when it gives them and otherwise
    [wedgeIndex mod 2 <> 0] and [wedgeIndex mod count]. *)
Theorem C9_color_index (count r c w : Z) (g : Generator)
    (Hcount : 0 < count) (Hr : 0 <= r) (Hc : 0 <= c) (Hw : 0 <= w) :
  let cfg := TILING_CONFIG count in
  (exists v, getColorIndex cfg g r c w = Some v /\ 0 <= v < count) /\
  (forall m k n,
     currentParams g = (m, k, n) -> m <> 0 -> k <> 0 -> n <> 0 ->
     let rule := find_wedge_config (wedges cfg) count m k n w in
     exists rv sc,
       getColorIndex cfg g r c w = Some (spec_color_index count r c rv sc) /\
       (forall b, reverse rule = Some b -> rv = b) /\
       (reverse rule = None -> rv = negb (w mod 2 =? 0)) /\
       (forall s, startColor rule = Some s -> sc = s) /\
       (startColor rule = None -> sc = w mod count)).
Proof.
  intros cfg.
  assert (Hset : forall m k n,
     currentParams g = (m, k, n) -> m <> 0 -> k <> 0 -> n <> 0 ->
     let rule := find_wedge_config (wedges cfg) count m k n w in
     exists rv sc,
       getColorIndex cfg g r c w = Some (spec_color_index count r c rv sc) /\
       (forall b, reverse rule = Some b -> rv = b) /\
       (reverse rule = None -> rv = negb (w mod 2 =? 0)) /\
       (forall s, startColor rule = Some s -> sc = s) /\
       (startColor rule = None -> sc = w mod count)).
  { intros m k n Hp Hm Hk Hn rule.
    exists (match reverse rule with
            | Some b => b | None => negb (Z.rem w 2 =? 0) end),
           (match startColor rule with
            | Some s => s | None => w mod count end).
    split.
    - unfold getColorIndex. rewrite Hp.
      replace (m =? 0) with false by (symmetry; apply Z.eqb_neq; exact Hm).
      replace (k =? 0) with false by (symmetry; apply Z.eqb_neq; exact Hk).
      replace (n =? 0) with false by (symmetry; apply Z.eqb_neq; exact Hn).
      cbn [orb]. apply color_index_of_rule; try assumption.
      intros s Hs. exact (default_wedges_startColor count m k n w s Hs).
    - repeat split.
      + intros b ->. reflexivity.
      + intros ->. now rewrite Z.rem_mod_nonneg by lia.
      + intros s ->. reflexivity.
      + intros ->. reflexivity. }
  split; [|exact Hset].
  destruct (currentParams g) as [[m k] n] eqn:Hp.
  destruct (Z.eq_dec m 0) as [Hm|Hm];
    [|destruct (Z.eq_dec k 0) as [Hk|Hk];
      [|destruct (Z.eq_dec n 0) as [Hn|Hn]]].
  4: { destruct (Hset m k n eq_refl Hm Hk Hn) as (rv & sc & Heq & _).
       eexists. split; [exact Heq|]. apply Z.mod_pos_bound; lia. }
  all: exists (w mod count); split; [|apply Z.mod_pos_bound; lia].
  all: unfold getColorIndex; rewrite Hp; subst.
  - cbn [Z.eqb orb]. apply js_rem_nonneg; lia.
  - rewrite Z.eqb_refl, orb_true_r. cbn [orb]. apply js_rem_nonneg; lia.
  - rewrite Z.eqb_refl, orb_true_r. apply js_rem_nonneg; lia.
Qed.

(** The theorem at wedge 1 of the declared entry for [(3, 7, 14)] with three
    colours, row 2 and column 1: reversed, start colour 1, index 1. *)
Lemma C9_color_index_witness :
  0 < 3 /\ 0 <= 2 /\ 0 <= 1 /\ 0 <= 1 /\
  (exists v,
     getColorIndex (TILING_CONFIG 3)
       (set_currentParams (3, 7, 14) new_generator) 2 1 1 = Some v /\
     0 <= v < 3) /\
  (3 <> 0 /\ 7 <> 0 /\ 14 <> 0 /\
   exists rv sc,
     getColorIndex (TILING_CONFIG 3)
       (set_currentParams (3, 7, 14) new_generator) 2 1 1 =
     Some (spec_color_index 3 2 1 rv sc) /\
     rv = true /\ sc = 1).
Proof.
  split; [lia|]. split; [lia|]. split; [lia|]. split; [lia|].
  pose proof (C9_color_index 3 2 1 1
                (set_currentParams (3, 7, 14) new_generator)
                ltac:(lia) ltac:(lia) ltac:(lia) ltac:(lia)) as [H1 H2].
  split; [exact H1|].
  split; [lia|]. split; [lia|]. split; [lia|].
  destruct (H2 3 7 14 eq_refl ltac:(lia) ltac:(lia) ltac:(lia))
    as (rv & sc & Heq & Hrv & _ & Hsc & _).
  exists rv, sc. split; [exact Heq|]. split.
  - apply Hrv. reflexivity.
  - apply Hsc. reflexivity.
Defined.

(** ** Wedge *)

Lemma range_snoc (cnt : nat) (lo : Z) :
  JS.range (S cnt) lo = JS.range cnt lo ++ [lo + Z.of_nat cnt].
Proof.
  revert lo. induction cnt as [|cnt IH]; intros lo.
  - cbn. now rewrite Z.add_0_r.
  - change (JS.range (S (S cnt)) lo) with (lo :: JS.range (S cnt) (lo + 1)).
    rewrite IH. cbn [JS.range app].
    replace (lo + Z.of_nat (S cnt)) with (lo + 1 + Z.of_nat cnt) by lia.
    reflexivity.
Qed.

Lemma range_app (a b : nat) (lo : Z) :
  JS.range (a + b) lo = JS.range a lo ++ JS.range b (lo + Z.of_nat a).
Proof.
  revert lo. induction a as [|a IH]; intros lo.
  - cbn. now rewrite Z.add_0_r.
  - cbn [Nat.add JS.range app]. rewrite IH.
    replace (lo + Z.of_nat (S a)) with (lo + 1 + Z.of_nat a) by lia.
    reflexivity.
Qed.

(** Reading an array at the indices of its own range gives the array. *)
Lemma nth_range (l pre : list Z) (d : Z) :
  map (fun j => nth (Z.to_nat j) (pre ++ l) d)
      (JS.range (length l) (Z.of_nat (length pre))) = l.
Proof.
  revert pre. induction l as [|a l IH]; intros pre; [reflexivity|].
  cbn [length JS.range map]. rewrite Nat2Z.id, nth_middle. f_equal.
  specialize (IH (pre ++ [a])).
  rewrite <- app_assoc, length_app in IH. cbn [length app] in IH.
  replace (Z.of_nat (length pre) + 1) with (Z.of_nat (length pre + 1)) by lia.
  exact IH.
Qed.

(** The loop of [d0] past its first iteration. *)
Lemma d0_loop_spec (m k n : Z) (l_seq : list Z) (cnt : nat) :
  forall (j : Z) (d0 : Point),
    0 < j ->
    let ds := map (fun j' => nth (Z.to_nat j') l_seq 0)
                  (JS.range (Z.to_nat (first_stop cnt m k j - j)) j) in
    d0_loop cnt m k n j l_seq d0 =
    mkPoint (px d0 + sum_x n ds) (py d0 + sum_y n ds).
Proof.
  induction cnt as [|cnt IH]; intros j d0 Hj; cbn [d0_loop first_stop].
  - rewrite Z.sub_diag. cbn. destruct d0; cbn. f_equal; lra.
  - replace (0 <? j) with true by (symmetry; apply Z.ltb_lt; lia).
    cbn [andb]. destruct (Z.rem (j * m) k =? 0).
    + rewrite Z.sub_diag. cbn. destruct d0; cbn. f_equal; lra.
    + rewrite IH by lia.
      pose proof (first_stop_spec m k cnt (j + 1)) as (Hp & _ & _).
      replace (Z.to_nat (first_stop cnt m k (j + 1) - j))
        with (S (Z.to_nat (first_stop cnt m k (j + 1) - (j + 1)))) by lia.
      cbn [JS.range map sum_x sum_y px py]. f_equal; lra.
Qed.

(** [d0] is the sum of the direction vectors of [l_seq] without its last
    entry. *)
Lemma d0_spec (m k n : Z) :
  0 < k ->
  let l_seq := fst (build_l_seq m k false) in
  d0_loop (Z.to_nat k) m k n 0 l_seq origin =
  mkPoint (sum_x n (removelast l_seq)) (sum_y n (removelast l_seq)).
Proof.
  intros Hk l_seq. subst l_seq.
  rewrite build_l_seq_spec by exact Hk. cbn [fst].
  set (mid := map (fun j => Z.rem (j * m) k)
                  (JS.range (Z.to_nat (stop_index m k - 1)) 1)).
  set (l_seq := 0 :: mid ++ [k]).
  assert (Hrl : removelast l_seq = 0 :: mid).
  { unfold l_seq. change (0 :: mid ++ [k]) with ((0 :: mid) ++ [k]).
    apply removelast_last. }
  replace (Z.to_nat k) with (S (Z.to_nat (k - 1))) by lia.
  cbn [d0_loop]. replace (0 <? 0) with false by reflexivity. cbn [andb].
  change (0 + 1) with 1. rewrite d0_loop_spec by lia.
  fold (stop_index m k).
  assert (Hmid : map (fun j' => nth (Z.to_nat j') l_seq 0)
                     (JS.range (Z.to_nat (stop_index m k - 1)) 1) = mid).
  { assert (Hlen : length mid = Z.to_nat (stop_index m k - 1)).
    { unfold mid. now rewrite length_map, range_length. }
    rewrite <- Hlen.
    assert (Hn := nth_range mid [0] 0).
    assert (Hn2 : forall j, In j (JS.range (length mid) 1) ->
              nth (Z.to_nat j) l_seq 0 = nth (Z.to_nat j) ([0] ++ mid) 0).
    { intros j Hj%range_In. unfold l_seq.
      change (0 :: mid ++ [k]) with ((0 :: mid) ++ [k]).
      apply app_nth1. cbn [length app]. lia. }
    rewrite (map_ext_in _ _ _ Hn2). exact Hn. }
  rewrite Hmid, Hrl. unfold l_seq, origin.
  cbn [nth Z.to_nat sum_x sum_y px py]. f_equal; lra.
Qed.

Lemma tri_succ (r : Z) : tri (r + 1) = tri r + (r + 1).
Proof.
  unfold tri. replace ((r + 1) * (r + 1 + 1)) with (r * (r + 1) + (r + 1) * 2)
    by ring.
  apply Z.div_add. lia.
Qed.

Lemma tri_nonneg (r : Z) : 0 <= r -> 0 <= tri r.
Proof. intros H. unfold tri. apply Z.div_pos; nia. Qed.

Section WedgeLoops.

Variables (cfg : Config) (basePath : list Point) (d0 d1 : Point).

Lemma wedge_cols_spec (r : Z) (cnt : nat) :
  forall (c t : Z) (g : Generator),
    wedge_cols cnt cfg basePath d0 d1 r c t g =
    (t + Z.of_nat cnt,
     set_polygons
       (polygons g ++ row_tiles cfg basePath d0 d1 g r t cnt c) g).
Proof.
  induction cnt as [|cnt IH]; intros c t g; cbn [wedge_cols].
  - unfold row_tiles. cbn. rewrite app_nil_r, Z.add_0_r.
    destruct g; reflexivity.
  - rewrite IH. f_equal; [lia|]. unfold row_tiles, set_polygons.
    cbn [polygons palette paletteType currentParams console JS.range map].
    rewrite <- app_assoc. cbn [app]. rewrite Z.sub_diag, Z.add_0_r.
    do 3 f_equal. apply map_ext. intros c'.
    replace (t + 1 + (c' - (c + 1))) with (t + (c' - c)) by lia.
    reflexivity.
Qed.

Lemma wedge_rows_spec (cnt : nat) :
  forall (r : Z) (g : Generator),
    0 <= r ->
    wedge_rows cnt cfg basePath d0 d1 r (tri r) g =
    (tri (r + Z.of_nat cnt),
     set_polygons
       (polygons g ++
        flat_map (fun r' => row_tiles cfg basePath d0 d1 g r' (tri r')
                                      (Z.to_nat (r' + 1)) 0)
                 (JS.range cnt r)) g).
Proof.
  induction cnt as [|cnt IH]; intros r g Hr; cbn [wedge_rows].
  - cbn. rewrite app_nil_r, Z.add_0_r. destruct g; reflexivity.
  - rewrite wedge_cols_spec.
    replace (tri r + Z.of_nat (Z.to_nat (r + 1))) with (tri (r + 1))
      by (rewrite tri_succ; lia).
    rewrite IH by lia. f_equal.
    + f_equal. lia.
    + unfold set_polygons.
      cbn [polygons palette paletteType currentParams console
           JS.range flat_map].
      rewrite <- app_assoc. reflexivity.
Qed.

End WedgeLoops.

(** The result of [generateWedge], tile by tile. *)
Lemma generateWedge_spec (cfg : Config) (m k n rows : Z) (g : Generator) :
  0 < k ->
  let l_seq := fst (build_l_seq m k false) in
  let d0 := mkPoint (sum_x n (removelast l_seq)) (sum_y n (removelast l_seq)) in
  let d1 := mkPoint (px (getVector n k) - px (getVector n 0))
                    (py (getVector n k) - py (getVector n 0)) in
  let g' := generatePalette cfg None None
              (set_polygons []
                 (snd (generatePrototile m k n
                         (set_currentParams (m, k, n) g)))) in
  fst (generateWedge cfg m k n rows g) =
  flat_map (fun r =>
              map (fun c => wedge_tile cfg g' (path (prototile m k n))
                                       d0 d1 r c (tri r + c))
                  (JS.range (Z.to_nat (r + 1)) 0))
           (JS.range (Z.to_nat rows) 0).
Proof.
  intros Hk l_seq d0 d1 g'. unfold generateWedge.
  pose proof (generatePrototile_result m k n (set_currentParams (m, k, n) g))
    as Hres.
  pose proof (prototile_closed m k n Hk) as (_ & Hhd & _).
  subst g'.
  destruct (generatePrototile m k n (set_currentParams (m, k, n) g))
    as [basePolygons g1].
  cbn [fst snd] in *. subst basePolygons.
  destruct (path (prototile m k n)) as [|p0 rest] eqn:Hpath.
  - exfalso. revert Hpath. unfold prototile, generatePrototile.
    destruct (build_l_seq m k false) as [ls s1].
    destruct (build_u_seq m k s1) as [us s2].
    pose proof (walk_forward_length n ls origin [origin]) as H1.
    destruct (walk_forward n ls origin [origin]) as [c1 p1].
    pose proof (walk_backward_length n (rev us) c1 p1) as H2.
    destruct (walk_backward n (rev us) c1 p1) as [c2 p2].
    cbn [fst snd length] in *.
    destruct (n <? k); cbn; intros ->; cbn in H2; lia.
  - cbn [length Nat.eqb].
    pose proof (d0_spec m k n Hk) as Hd0. cbn zeta in Hd0.
    unfold build_l_seq in Hd0. subst l_seq. unfold build_l_seq in d0.
    destruct (l_seq_loop (Z.to_nat k) m k 0 [] false) as [acc s].
    cbn [fst] in *. rewrite Hd0. fold d0. fold d1.
    change 0 with (tri 0) at 2.
    rewrite wedge_rows_spec by lia. cbn [fst snd polygons set_polygons].
    unfold generatePalette at 1. cbn [polygons app].
    apply flat_map_ext. intros r. unfold row_tiles.
    apply map_ext. intros c. rewrite Z.sub_0_r. reflexivity.
Qed.

Lemma range_shift (cnt : nat) (lo : Z) :
  JS.range cnt lo = map (fun c => lo + c) (JS.range cnt 0).
Proof.
  revert lo. induction cnt as [|cnt IH]; intros lo; [reflexivity|].
  cbn [JS.range map]. rewrite Z.add_0_r. f_equal.
  rewrite (IH (lo + 1)), (IH (0 + 1)), map_map.
  apply map_ext. intros c. lia.
Qed.

Lemma wedge_cells_In (rows r c : Z) :
  In (r, c) (wedge_cells rows) <-> 0 <= c <= r /\ r < rows.
Proof.
  unfold wedge_cells. rewrite in_flat_map. split.
  - intros (r' & Hr' & Hin). apply range_In in Hr'.
    apply in_map_iff in Hin as (c' & Heq & Hc'). apply range_In in Hc'.
    injection Heq as <- <-. lia.
  - intros [Hc Hr]. exists r. split; [apply range_In; lia|].
    apply in_map_iff. exists c. split; [reflexivity|]. apply range_In. lia.
Qed.

(** Row by row the tile indices count up from zero. *)
Lemma cells_tile_indices (cnt : nat) :
  flat_map (fun r => map (fun c => tri r + c) (JS.range (Z.to_nat (r + 1)) 0))
           (JS.range cnt 0) =
  JS.range (Z.to_nat (tri (Z.of_nat cnt))) 0.
Proof.
  induction cnt as [|cnt IH]; [reflexivity|].
  rewrite range_snoc, flat_map_app, IH. cbn [flat_map]. rewrite app_nil_r.
  rewrite Z.add_0_l, <- range_shift.
  pose proof (tri_nonneg (Z.of_nat cnt) ltac:(lia)) as Ht.
  replace (Z.to_nat (tri (Z.of_nat (S cnt))))
    with (Z.to_nat (tri (Z.of_nat cnt)) + Z.to_nat (Z.of_nat cnt + 1))%nat.
  - rewrite range_app. do 2 f_equal. lia.
  - replace (Z.of_nat (S cnt)) with (Z.of_nat cnt + 1) by lia.
    rewrite tri_succ. lia.
Qed.

(** C6.  For [0 < k <= n] and [rows >= 0], [generateWedge(m, k, n, rows)] returns
    one polygon per cell [(r, c)] with [0 <= c <= r < rows], in row-major
    order: [rows (rows + 1) / 2] polygons whose tile indices are
    [0, 1, ..., count - 1] in this order; the polygon of [(r, c)] carries
    [r], [c] and wedge index [0], and its path is the prototile's path
    translated by [r d0 + c d1], where [d0] is the sum of the direction
    vectors of [L] without its final sentinel and [d1] is
    [getVector(k) - getVector(0)]. *)
Theorem C6_wedge (cfg : Config) (m k n rows : Z) (g : Generator)
    (Hk : 0 < k) (Hn : k <= n) (Hrows : 0 <= rows) :
  let wedge := fst (generateWedge cfg m k n rows g) in
  let L := fst (fst (boundary_sequences m k)) in
  let d0x := sum_x n (removelast L) in
  let d0y := sum_y n (removelast L) in
  let d1x := (px (getVector n k) - px (getVector n 0))%R in
  let d1y := (py (getVector n k) - py (getVector n 0))%R in
  Z.of_nat (length wedge) = rows * (rows + 1) / 2 /\
  map (fun p => tileIndex (meta p)) wedge =
    map Some (JS.range (length wedge) 0) /\
  map (fun p => (meta_r (meta p), meta_c (meta p))) wedge =
    map (fun rc => (Some (fst rc), Some (snd rc))) (wedge_cells rows) /\
  (forall r c, In (r, c) (wedge_cells rows) <-> 0 <= c <= r /\ r < rows) /\
  forall i r c p,
    nth_error (wedge_cells rows) i = Some (r, c) ->
    nth_error wedge i = Some p ->
    path p =
      map (fun q => mkPoint (px q + (IZR r * d0x + IZR c * d1x))
                            (py q + (IZR r * d0y + IZR c * d1y)))
          (path (prototile m k n)) /\
    wedgeIndex (meta p) = Some 0 /\
    tileIndex (meta p) = Some (Z.of_nat i).
Proof.
  intros wedge L d0x d0y d1x d1y.
  assert (HL : L = fst (build_l_seq m k false)).
  { unfold L, boundary_sequences.
    destruct (build_l_seq m k false) as [l s1].
    destruct (build_u_seq m k s1) as [u s2]. reflexivity. }
  pose proof (generateWedge_spec cfg m k n rows g Hk) as Hspec.
  cbn zeta in Hspec. rewrite <- HL in Hspec.
  fold d0x d0y d1x d1y wedge in Hspec.
  set (g' := generatePalette cfg None None
               (set_polygons []
                  (snd (generatePrototile m k n
                          (set_currentParams (m, k, n) g))))) in *.
  set (tile := fun r c =>
         wedge_tile cfg g' (path (prototile m k n))
                    (mkPoint d0x d0y) (mkPoint d1x d1y) r c (tri r + c)) in *.
  assert (Hidx : map (fun p => tileIndex (meta p)) wedge =
                 map Some (JS.range (Z.to_nat (tri rows)) 0)).
  { rewrite Hspec.
    rewrite <- (Z2Nat.id rows) at 2 by exact Hrows.
    rewrite <- cells_tile_indices.
    rewrite !flat_map_concat_map, !concat_map, !map_map. f_equal.
    apply map_ext. intros r. rewrite !map_map. reflexivity. }
  assert (Hlen : length wedge = Z.to_nat (tri rows)).
  { apply (f_equal (@length _)) in Hidx.
    now rewrite !length_map, range_length in Hidx. }
  assert (Hcells : map (fun p => tile (fst p) (snd p)) (wedge_cells rows) =
                   wedge).
  { rewrite Hspec. unfold wedge_cells.
    rewrite !flat_map_concat_map, !concat_map, !map_map. f_equal.
    apply map_ext. intros r. rewrite !map_map. reflexivity. }
  split. { rewrite Hlen. pose proof (tri_nonneg rows Hrows). unfold tri in *. lia. }
  split. { rewrite Hlen. exact Hidx. }
  split. { rewrite <- Hcells, map_map. reflexivity. }
  split. { intros r c. apply wedge_cells_In. }
  intros i r c p Hcell Hp.
  assert (Hp' : p = tile r c).
  { rewrite <- Hcells in Hp.
    rewrite nth_error_map, Hcell in Hp. cbn in Hp. congruence. }
  split; [subst p; reflexivity|]. split; [subst p; reflexivity|].
  assert (Hi : nth_error (map (fun p => tileIndex (meta p)) wedge) i =
               Some (tileIndex (meta p))).
  { rewrite nth_error_map, Hp. reflexivity. }
  rewrite Hidx in Hi. rewrite nth_error_map in Hi.
  destruct (nth_error (JS.range (Z.to_nat (tri rows)) 0) i) as [t|] eqn:Ht;
    [|discriminate].
  cbn in Hi. injection Hi as <-. f_equal.
  clear - Ht. revert Ht. generalize (Z.to_nat (tri rows)). intros cnt.
  replace (Z.of_nat i) with (0 + Z.of_nat i) by lia. generalize 0.
  revert i. induction cnt as [|cnt IH]; intros i lo Ht.
  - destruct i; discriminate.
  - destruct i as [|i]; cbn in Ht.
    + injection Ht as <-. lia.
    + apply IH in Ht. lia.
Qed.

(** The theorem at [generateWedge(3, 7, 14, 3)]: six polygons, the fifth
    of which is the tile of row 2 and column 1. *)
Lemma C6_wedge_witness :
  let wedge := fst (generateWedge (TILING_CONFIG 3) 3 7 14 3 new_generator) in
  0 < 7 /\ 7 <= 14 /\ 0 <= 3 /\
  Z.of_nat (length wedge) = 6 /\
  nth_error (wedge_cells 3) 4 = Some (2, 1) /\
  exists p,
    nth_error wedge 4 = Some p /\
    wedgeIndex (meta p) = Some 0 /\ tileIndex (meta p) = Some 4.
Proof.
  intros wedge.
  pose proof (C6_wedge (TILING_CONFIG 3) 3 7 14 3 new_generator
                ltac:(lia) ltac:(lia) ltac:(lia)) as H.
  cbn zeta in H. fold wedge in H.
  destruct H as (Hlen & _ & _ & _ & Htile).
  split; [lia|]. split; [lia|]. split; [lia|]. split; [exact Hlen|].
  split; [reflexivity|].
  destruct (nth_error wedge 4) as [p|] eqn:Hp.
  - exists p. split; [reflexivity|].
    destruct (Htile 4%nat 2 1 p eq_refl Hp) as (_ & Hw & Ht).
    split; assumption.
  - apply nth_error_None in Hp. change (3 * (3 + 1) / 2) with 6 in Hlen. lia.
Defined.

(** ** The generator's state across the methods *)

Lemma prototile_path_nonempty (m k n : Z) : path (prototile m k n) <> [].
Proof.
  unfold prototile, generatePrototile.
  destruct (build_l_seq m k false) as [ls s1].
  destruct (build_u_seq m k s1) as [us s2].
  pose proof (walk_forward_length n ls origin [origin]) as H1.
  destruct (walk_forward n ls origin [origin]) as [c1 p1].
  pose proof (walk_backward_length n (rev us) c1 p1) as H2.
  destruct (walk_backward n (rev us) c1 p1) as [c2 p2].
  cbn [fst snd length] in *.
  destruct (n <? k); cbn; intros ->; cbn in H2; lia.
Qed.

Lemma generatePrototile_state (m k n : Z) (g : Generator) :
  snd (generatePrototile m k n g) =
  mkGenerator [prototile m k n] (palette g) (paletteType g) (currentParams g)
              (console g ++ parameter_errors k n).
Proof.
  unfold prototile, generatePrototile, parameter_errors.
  destruct (build_l_seq m k false) as [l_seq s1].
  destruct (build_u_seq m k s1) as [u_seq s2].
  destruct (walk_forward n l_seq origin [origin]) as [c1 p1].
  destruct (walk_backward n (rev u_seq) c1 p1) as [c2 p2].
  destruct (n <? k); unfold set_polygons, log; cbn;
    rewrite <- ?app_assoc, ?app_nil_r; reflexivity.
Qed.

(** The state that [generateWedge] leaves. *)
Lemma generateWedge_state (cfg : Config) (m k n rows : Z) (g : Generator) :
  snd (generateWedge cfg m k n rows g) =
  mkGenerator (fst (generateWedge cfg m k n rows g))
    (palette_loop (Z.to_nat (colorCount cfg)) (paletteType g) (colorCount cfg)
                  0 [])
    (paletteType g) (m, k, n) (console g ++ parameter_errors k n).
Proof.
  unfold generateWedge.
  pose proof (generatePrototile_result m k n (set_currentParams (m, k, n) g))
    as Hres.
  pose proof (generatePrototile_state m k n (set_currentParams (m, k, n) g))
    as Hst.
  destruct (generatePrototile m k n (set_currentParams (m, k, n) g))
    as [basePolygons g1].
  cbn [fst snd] in *. subst basePolygons g1.
  pose proof (prototile_path_nonempty m k n) as Hne.
  destruct (path (prototile m k n)) as [|p0 rest]; [congruence|].
  cbn [length Nat.eqb].
  destruct (l_seq_loop (Z.to_nat k) m k 0 [] false) as [acc s].
  match goal with
  | |- context [wedge_rows ?c ?cf ?bp ?a ?b 0 0 ?gg] =>
      change (wedge_rows c cf bp a b 0 0 gg)
        with (wedge_rows c cf bp a b 0 (tri 0) gg);
      rewrite (wedge_rows_spec cf bp a b c 0 gg) by lia
  end.
  reflexivity.
Qed.

(** ** Placement loop *)

Lemma transformed_tile_env (cfg : Config) (g1 g2 : Generator) (n : Z)
      (ox oy : R) (i : Z) (p : Polygon) :
  palette g1 = palette g2 -> currentParams g1 = currentParams g2 ->
  transformed_tile cfg g1 n ox oy i p = transformed_tile cfg g2 n ox oy i p.
Proof.
  intros Hp Hc. unfold transformed_tile, getColorIndex, palette_color.
  rewrite Hp, Hc. reflexivity.
Qed.

Lemma push_transformed_spec (cfg : Config) (n : Z) (ox oy : R) (i : Z)
      (polys : list Polygon) :
  forall g,
    push_transformed cfg n ox oy i polys g =
    set_polygons (polygons g ++ map (transformed_tile cfg g n ox oy i) polys)
                 g.
Proof.
  induction polys as [|p polys IH]; intros g; cbn [push_transformed map].
  - rewrite app_nil_r. destruct g; reflexivity.
  - rewrite IH. unfold set_polygons.
    cbn [polygons palette paletteType currentParams console].
    rewrite <- app_assoc. reflexivity.
Qed.

Lemma addTransformedWedge_ready (cfg : Config) (n : Z) (polys : list Polygon)
      (ox oy : R) (i : Z) (g : Generator) :
  palette_ready cfg g ->
  addTransformedWedge cfg n polys ox oy i g =
  set_polygons (polygons g ++ map (transformed_tile cfg g n ox oy i) polys) g.
Proof.
  intros Hr. unfold addTransformedWedge.
  assert (Hg : (if Z.of_nat (length (palette g)) =? colorCount cfg then g
                else generatePalette cfg None None g) = g).
  { destruct (Z.of_nat (length (palette g)) =? colorCount cfg);
      [reflexivity|].
    unfold generatePalette. rewrite <- Hr. destruct g; reflexivity. }
  rewrite Hg. apply push_transformed_spec.
Qed.

Section Placement.

Variables (k n : Z) (cfg : Config) (baseWedge : list Polygon).

Lemma tiling_loop_spec (cnt : nat) :
  forall (i : Z) (st : TilingState),
    palette_ready cfg (gen st) ->
    tiling_loop cnt cfg k n baseWedge i st =
    mkTilingState
      (front_after k cnt i (front st))
      (mkGenerator
         (polygons (gen st) ++
          flat_map (placed_wedge n cfg baseWedge (gen st))
                   (placements k n cnt i (front st)))
         (palette (gen st)) (paletteType (gen st)) (currentParams (gen st))
         (console (gen st) ++
          map DirectionNotFound (skipped k cnt i (front st)))).
Proof.
  induction cnt as [|cnt IH]; intros i st Hr.
  - cbn. rewrite !app_nil_r. destruct st as [f g]. destruct g. reflexivity.
  - cbn [tiling_loop placements skipped front_after]. unfold tiling_step.
    destruct (find_j_star (front st) i) as [j|] eqn:Hfind.
    + rewrite addTransformedWedge_ready by exact Hr.
      rewrite IH by exact Hr.
      cbn [front gen set_polygons polygons palette paletteType currentParams
           console flat_map].
      rewrite <- app_assoc. reflexivity.
    + rewrite IH by exact Hr.
      cbn [front gen log polygons palette paletteType currentParams console
           map].
      rewrite <- app_assoc. reflexivity.
Qed.

End Placement.

(** ** The front: search and assignment *)

Lemma find_j_star_Some (fr : list Z) (i : Z) (j : nat) :
  find_j_star fr i = Some j <->
  nth_error fr j = Some i /\
  (forall j', (j' < j)%nat -> nth_error fr j' <> Some i).
Proof.
  revert j. induction fr as [|d fr IH]; intros j; cbn [find_j_star].
  - split; [discriminate|]. intros [H _]. destruct j; discriminate.
  - destruct (d =? i) eqn:Hd.
    + apply Z.eqb_eq in Hd. subst d. split.
      * intros [= <-]. split; [reflexivity|]. intros j' Hj'. lia.
      * intros [Hn Hmin]. destruct j as [|j]; [reflexivity|].
        exfalso. apply (Hmin O); [lia|reflexivity].
    + apply Z.eqb_neq in Hd. destruct (find_j_star fr i) as [j0|] eqn:Hf.
      * cbn [option_map].
        destruct (proj1 (IH j0) eq_refl) as [Hn0 Hmin0]. split.
        -- intros [= <-]. split; [exact Hn0|].
           intros [|j'] Hj'; cbn; [congruence|]. apply Hmin0. lia.
        -- intros [Hn Hmin]. destruct j as [|j]; [cbn in Hn; congruence|].
           cbn in Hn. f_equal. f_equal.
           destruct (Nat.lt_trichotomy j0 j) as [Hlt|[Heq|Hgt]];
             [|exact Heq|].
           ++ exfalso. apply (Hmin (S j0)); [lia|exact Hn0].
           ++ exfalso. apply (Hmin0 j); [lia|exact Hn].
      * cbn [option_map]. split; [discriminate|].
        intros [Hn Hmin]. destruct j as [|j]; [cbn in Hn; congruence|].
        exfalso. cbn in Hn.
        assert (Hj : None = Some j).
        { apply IH. split; [exact Hn|]. intros j' Hj'.
          apply (Hmin (S j')). lia. }
        discriminate.
Qed.

Lemma find_j_star_None (fr : list Z) (i : Z) :
  find_j_star fr i = None <-> ~ In i fr.
Proof.
  induction fr as [|d fr IH]; cbn [find_j_star In].
  - tauto.
  - destruct (d =? i) eqn:Hd.
    + apply Z.eqb_eq in Hd. split; [discriminate|]. tauto.
    + apply Z.eqb_neq in Hd. destruct (find_j_star fr i); cbn [option_map].
      * split; [discriminate|]. intros Hn. exfalso.
        assert (Some n <> None) by discriminate. tauto.
      * split; [|reflexivity]. intros _. assert (~ In i fr) by tauto. tauto.
Qed.

Lemma assign_length {A : Type} (l : list A) (j : nat) (v : A) :
  length (JS.assign l j v) = length l.
Proof.
  revert j. induction l as [|a l IH]; intros [|j]; cbn; auto.
Qed.

Lemma assign_same {A : Type} (l : list A) (j : nat) (v : A) :
  (j < length l)%nat -> nth_error (JS.assign l j v) j = Some v.
Proof.
  revert j. induction l as [|a l IH]; intros [|j] H; cbn in *; try lia.
  - reflexivity.
  - apply IH. lia.
Qed.

Lemma assign_other {A : Type} (l : list A) (j j' : nat) (v : A) :
  j' <> j -> nth_error (JS.assign l j v) j' = nth_error l j'.
Proof.
  revert j j'. induction l as [|a l IH]; intros [|j] [|j'] H; cbn;
    try reflexivity; try congruence.
  apply IH. congruence.
Qed.

Lemma assign_In {A : Type} (l : list A) (j : nat) (v x : A) :
  In x (JS.assign l j v) -> x = v \/ In x l.
Proof.
  revert j. induction l as [|a l IH]; intros [|j]; cbn; try tauto.
  - intuition auto.
  - intros [H|H]; [tauto|]. apply IH in H. tauto.
Qed.

Lemma start_pos_spec (n : Z) (ds : list Z) :
  forall start,
    start_pos n ds start =
    mkPoint (px start + sum_x n ds) (py start + sum_y n ds).
Proof.
  induction ds as [|d ds IH]; intros start; cbn [start_pos sum_x sum_y].
  - destruct start; cbn. f_equal; lra.
  - rewrite IH. cbn [px py]. f_equal; lra.
Qed.

Lemma slice_init_removelast {A : Type} (l : list A) :
  JS.slice_init l = removelast l.
Proof.
  unfold JS.slice_init. destruct l as [|a l] using rev_ind; [reflexivity|].
  rewrite length_app, removelast_last. cbn [length].
  replace (length l + 1 - 1)%nat with (length l) by lia.
  rewrite firstn_app, firstn_all, Nat.sub_diag. cbn. apply app_nil_r.
Qed.

(** ** The base wedge and the initial state of the placement *)

Lemma wedge_tile_env (cfg : Config) (g1 g2 : Generator) (bp : list Point)
      (d0 d1 : Point) (r c t : Z) :
  palette g1 = palette g2 -> currentParams g1 = currentParams g2 ->
  wedge_tile cfg g1 bp d0 d1 r c t = wedge_tile cfg g2 bp d0 d1 r c t.
Proof.
  intros Hp Hc. unfold wedge_tile, getColorIndex, palette_color.
  rewrite Hp, Hc. reflexivity.
Qed.

(** Every polygon of the base wedge is a wedge tile of the environment. *)
Lemma generateWedge_tiles (cfg : Config) (m k n rows : Z) (g : Generator) :
  Forall (fun p => exists d0 d1 r c t,
            p = wedge_tile cfg (tiling_env cfg m k n (paletteType g))
                           (path (prototile m k n)) d0 d1 r c t)
         (fst (generateWedge cfg m k n rows g)).
Proof.
  unfold generateWedge.
  pose proof (generatePrototile_result m k n (set_currentParams (m, k, n) g))
    as Hres.
  pose proof (generatePrototile_state m k n (set_currentParams (m, k, n) g))
    as Hst.
  destruct (generatePrototile m k n (set_currentParams (m, k, n) g))
    as [basePolygons g1].
  cbn [fst snd] in *. subst basePolygons g1.
  pose proof (prototile_path_nonempty m k n) as Hne.
  destruct (path (prototile m k n)) as [|p0 rest] eqn:Hpath; [congruence|].
  cbn [length Nat.eqb].
  destruct (l_seq_loop (Z.to_nat k) m k 0 [] false) as [acc s].
  match goal with
  | |- context [wedge_rows ?c ?cf ?bp ?a ?b 0 0 ?gg] =>
      change (wedge_rows c cf bp a b 0 0 gg)
        with (wedge_rows c cf bp a b 0 (tri 0) gg);
      rewrite (wedge_rows_spec cf bp a b c 0 gg) by lia
  end.
  cbn [fst snd polygons set_polygons generatePalette app].
  apply Forall_forall. intros p Hin.
  apply in_flat_map in Hin as (r & _ & Hin). unfold row_tiles in Hin.
  apply in_map_iff in Hin as (c & <- & _).
  eexists _, _, r, c, _. apply wedge_tile_env; reflexivity.
Qed.

Lemma generateWedge_paletteType (cfg : Config) (m k n rows : Z)
      (g1 g2 : Generator) :
  paletteType g1 = paletteType g2 ->
  fst (generateWedge cfg m k n rows g1) = fst (generateWedge cfg m k n rows g2).
Proof.
  intros Ht. unfold generateWedge.
  pose proof (generatePrototile_result m k n (set_currentParams (m, k, n) g1))
    as Hres1.
  pose proof (generatePrototile_state m k n (set_currentParams (m, k, n) g1))
    as Hst1.
  pose proof (generatePrototile_result m k n (set_currentParams (m, k, n) g2))
    as Hres2.
  pose proof (generatePrototile_state m k n (set_currentParams (m, k, n) g2))
    as Hst2.
  destruct (generatePrototile m k n (set_currentParams (m, k, n) g1))
    as [bp1 h1].
  destruct (generatePrototile m k n (set_currentParams (m, k, n) g2))
    as [bp2 h2].
  cbn [fst snd] in *. subst bp1 h1 bp2 h2.
  destruct (path (prototile m k n)) as [|p0 rest]; [reflexivity|].
  cbn [length Nat.eqb].
  destruct (l_seq_loop (Z.to_nat k) m k 0 [] false) as [acc s].
  repeat match goal with
  | |- context [wedge_rows ?c ?cf ?bp ?a ?b 0 0 ?gg] =>
      change (wedge_rows c cf bp a b 0 0 gg)
        with (wedge_rows c cf bp a b 0 (tri 0) gg);
      rewrite (wedge_rows_spec cf bp a b c 0 gg) by lia
  end.
  cbn [fst snd polygons set_polygons generatePalette app].
  apply flat_map_ext. intros r. unfold row_tiles. apply map_ext. intros c.
  apply wedge_tile_env; cbn; rewrite ?Ht; reflexivity.
Qed.

Lemma rotation_zero (n : Z) : (IZR 0 * unit_angle n = 0)%R.
Proof. lra. Qed.

(** Rotation index 0 with offset [(0, 0)] leaves a path as it is. *)
Lemma identity_path (n : Z) (pth : list Point) :
  map (fun pt =>
         mkPoint ((px pt * cos (IZR 0 * unit_angle n) -
                   py pt * sin (IZR 0 * unit_angle n)) + 0)
                 ((px pt * sin (IZR 0 * unit_angle n) +
                   py pt * cos (IZR 0 * unit_angle n)) + 0))
      pth = pth.
Proof.
  rewrite rotation_zero, cos_0, sin_0.
  induction pth as [|[x y] pth IH]; cbn [map px py]; [reflexivity|].
  rewrite IH. f_equal. f_equal; lra.
Qed.

(** Wedge 0 is placed as it is. *)
Lemma wedge0_unchanged (cfg : Config) (m k n rows : Z) (g g0 : Generator) :
  palette g0 = palette (tiling_env cfg m k n (paletteType g)) ->
  currentParams g0 = (m, k, n) ->
  map (transformed_tile cfg g0 n 0 0 0) (fst (generateWedge cfg m k n rows g))
  = fst (generateWedge cfg m k n rows g).
Proof.
  intros Hp Hc. pose proof (generateWedge_tiles cfg m k n rows g) as Hall.
  induction Hall as [|p ps (d0 & d1 & r & c & t & ->) _ IH]; [reflexivity|].
  cbn [map]. rewrite IH. f_equal.
  rewrite (transformed_tile_env cfg g0
             (tiling_env cfg m k n (paletteType g))) by assumption.
  unfold transformed_tile. cbn [wedge_tile path meta meta_r meta_c].
  rewrite identity_path. reflexivity.
Qed.

(** The state in which the placement loop is entered. *)
Lemma tiling_init_spec (cfg : Config) (m k n rows : Z) (g : Generator) :
  let wedge := fst (generateWedge cfg m k n rows g) in
  tiling_init cfg m k n rows g =
  if (length wedge =? 0)%nat
  then inl (mkGenerator wedge
              (palette (tiling_env cfg m k n (paletteType g)))
              (paletteType g) (m, k, n) (console g ++ parameter_errors k n))
  else inr (wedge,
            mkTilingState
              (removelast (fst (build_u_seq m k false)))
              (mkGenerator wedge
                 (palette (tiling_env cfg m k n (paletteType g)))
                 (paletteType g) (m, k, n)
                 (console g ++ parameter_errors k n))).
Proof.
  intros wedge. unfold tiling_init.
  destruct (build_u_seq m k false) as [u_seq s] eqn:Hu. cbn [fst].
  pose proof (generateWedge_state cfg m k n rows
                (set_currentParams (m, k, n) g)) as Hst.
  pose proof (generateWedge_paletteType cfg m k n rows
                (set_currentParams (m, k, n) g) g eq_refl) as Hw.
  fold wedge in Hw.
  destruct (generateWedge cfg m k n rows (set_currentParams (m, k, n) g))
    as [wedge0Polys g1].
  cbn [fst snd] in *. subst wedge0Polys g1.
  cbn [paletteType set_currentParams console].
  destruct (length wedge =? 0)%nat; [reflexivity|].
  rewrite addTransformedWedge_ready by reflexivity.
  cbn [polygons set_polygons app palette paletteType currentParams console].
  rewrite slice_init_removelast.
  unfold wedge at 2.
  rewrite (wedge0_unchanged cfg m k n rows g) by reflexivity.
  reflexivity.
Qed.

(** ** The run of the placement loop *)

(** The loop [for (let i = 1; i < w_limit; i++)] runs for exactly the
    integers [1 <= i < w_limit]. *)
Lemma wedge_iterations_spec (isOffset : bool) (n i : Z) :
  1 <= i ->
  ((inject_Z i < w_limit isOffset n)%Q <->
   i <= Z.of_nat (wedge_iterations isOffset n)).
Proof.
  intros Hi. unfold wedge_iterations.
  set (w := w_limit isOffset n).
  pose proof (Qle_ceiling w) as Hle. pose proof (Qceiling_lt w) as Hlt.
  assert (Hiff : (inject_Z i < w)%Q <-> i <= Qceiling w - 1).
  { split.
    - intros H. assert (H' : (inject_Z i < inject_Z (Qceiling w))%Q)
        by (eapply Qlt_le_trans; eassumption).
      rewrite <- Zlt_Qlt in H'. lia.
    - intros H. rewrite Zle_Qle in H. eapply Qle_lt_trans; eassumption. }
  rewrite Hiff. lia.
Qed.

Lemma tiling_loop_snoc (cfg : Config) (k n : Z) (bw : list Polygon)
      (t : nat) :
  forall (i : Z) (st : TilingState),
    tiling_loop (S t) cfg k n bw i st =
    tiling_step cfg k n bw (i + Z.of_nat t) (tiling_loop t cfg k n bw i st).
Proof.
  induction t as [|t IH]; intros i st.
  - cbn. now rewrite Z.add_0_r.
  - change (tiling_loop (S (S t)) cfg k n bw i st)
      with (tiling_loop (S t) cfg k n bw (i + 1)
              (tiling_step cfg k n bw i st)).
    rewrite IH. cbn [tiling_loop].
    replace (i + 1 + Z.of_nat t) with (i + Z.of_nat (S t)) by lia.
    reflexivity.
Qed.

Lemma run_state_succ (cfg : Config) (m k n rows : Z) (g : Generator)
      (t : nat) :
  run_state cfg m k n rows g (S t) =
  tiling_step cfg k n (fst (generateWedge cfg m k n rows g))
              (1 + Z.of_nat t) (run_state cfg m k n rows g t).
Proof. unfold run_state. apply tiling_loop_snoc. Qed.

Lemma entry_ready (cfg : Config) (m k n rows : Z) (g : Generator) :
  palette_ready cfg (gen (entry_state cfg m k n rows g)).
Proof. reflexivity. Qed.

Lemma run_ready (cfg : Config) (m k n rows : Z) (g : Generator) (t : nat) :
  palette_ready cfg (gen (run_state cfg m k n rows g t)).
Proof.
  unfold run_state. rewrite tiling_loop_spec by apply entry_ready.
  reflexivity.
Qed.

Lemma run_env (cfg : Config) (m k n rows : Z) (g : Generator) (t : nat) :
  palette (gen (run_state cfg m k n rows g t)) =
    palette (tiling_env cfg m k n (paletteType g)) /\
  currentParams (gen (run_state cfg m k n rows g t)) = (m, k, n) /\
  paletteType (gen (run_state cfg m k n rows g t)) = paletteType g.
Proof.
  unfold run_state. rewrite tiling_loop_spec by apply entry_ready.
  repeat split.
Qed.

(** The placement loop of [generateTiling] ends in [run_state] at its
    iteration count, unless the base wedge is empty. *)
Lemma tiling_primary_run (cfg : Config) (m k n rows : Z) (isOffset : bool)
      (g : Generator) :
  tiling_primary cfg m k n rows isOffset g =
  if (length (fst (generateWedge cfg m k n rows g)) =? 0)%nat
  then inl (gen (entry_state cfg m k n rows g))
  else inr (run_state cfg m k n rows g (wedge_iterations isOffset n)).
Proof.
  unfold tiling_primary. rewrite tiling_init_spec.
  destruct (length (fst (generateWedge cfg m k n rows g)) =? 0)%nat;
    reflexivity.
Qed.

Lemma tiling_step_place (cfg : Config) (k n : Z) (bw : list Polygon) (i : Z)
      (st : TilingState) (j : nat) :
  palette_ready cfg (gen st) ->
  find_j_star (front st) i = Some j ->
  tiling_step cfg k n bw i st =
  mkTilingState
    (JS.assign (front st) j (i + k))
    (set_polygons
       (polygons (gen st) ++
        map (transformed_tile cfg (gen st) n
               (sum_x n (firstn j (front st)))
               (sum_y n (firstn j (front st))) i) bw)
       (gen st)).
Proof.
  intros Hr Hf. unfold tiling_step. rewrite Hf.
  rewrite addTransformedWedge_ready by exact Hr.
  rewrite start_pos_spec. cbn [px py origin].
  rewrite !Rplus_0_l. reflexivity.
Qed.

Lemma tiling_step_skip (cfg : Config) (k n : Z) (bw : list Polygon) (i : Z)
      (st : TilingState) :
  find_j_star (front st) i = None ->
  tiling_step cfg k n bw i st =
  mkTilingState (front st) (log (DirectionNotFound i) (gen st)).
Proof. intros Hf. unfold tiling_step. now rewrite Hf. Qed.

(** ** Order of the wedges *)

Lemma placements_sorted (k n : Z) (cnt : nat) :
  forall (i : Z) (fr : list Z),
    StronglySorted Z.lt (map fst (placements k n cnt i fr)) /\
    Forall (Z.le i) (map fst (placements k n cnt i fr)).
Proof.
  induction cnt as [|cnt IH]; intros i fr; cbn [placements].
  - split; constructor.
  - destruct (find_j_star fr i) as [j|].
    + destruct (IH (i + 1) (JS.assign fr j (i + k))) as [Hs Hf].
      cbn [map fst]. split.
      * constructor; [exact Hs|].
        eapply Forall_impl; [|exact Hf]. cbn. intros; lia.
      * constructor; [lia|].
        eapply Forall_impl; [|exact Hf]. cbn. intros; lia.
    + destruct (IH (i + 1) fr) as [Hs Hf]. split; [exact Hs|].
      eapply Forall_impl; [|exact Hf]. cbn. intros; lia.
Qed.

Lemma repeat_sorted (a : Z) (len : nat) (tl : list Z) :
  StronglySorted Z.le tl -> Forall (Z.le a) tl ->
  StronglySorted Z.le (repeat a len ++ tl).
Proof.
  intros Hs Hf. induction len as [|len IHl]; cbn; [exact Hs|].
  constructor; [exact IHl|].
  apply Forall_app. split; [|exact Hf].
  apply Forall_forall. intros x Hx%repeat_spec. lia.
Qed.

Lemma blocks_sorted (len : nat) (labels : list Z) :
  forall lo,
    StronglySorted Z.lt labels -> Forall (Z.le lo) labels ->
    StronglySorted Z.le (flat_map (fun x => repeat x len) labels) /\
    Forall (Z.le lo) (flat_map (fun x => repeat x len) labels).
Proof.
  induction labels as [|a rest IH]; intros lo Hs Hlo; cbn [flat_map].
  - split; constructor.
  - apply StronglySorted_inv in Hs as [Hs Hlt].
    assert (Hle : Forall (Z.le a) rest)
      by (eapply Forall_impl; [|exact Hlt]; cbn; intros; lia).
    destruct (IH a Hs Hle) as [Hsb Hfb].
    apply Forall_cons_iff in Hlo as [Hloa _].
    assert (Hrep : Forall (Z.le a) (repeat a len ++ flat_map
                                      (fun x => repeat x len) rest)).
    { apply Forall_app. split; [|exact Hfb].
      apply Forall_forall. intros x Hx%repeat_spec. lia. }
    split.
    + apply repeat_sorted; assumption.
    + eapply Forall_impl; [|exact Hrep]. cbn. intros; lia.
Qed.

Lemma generateWedge_wedgeIndex (cfg : Config) (m k n rows : Z)
      (g : Generator) :
  map (fun p => wedgeIndex (meta p)) (fst (generateWedge cfg m k n rows g)) =
  map Some (repeat 0 (length (fst (generateWedge cfg m k n rows g)))).
Proof.
  pose proof (generateWedge_tiles cfg m k n rows g) as Hall.
  induction Hall as [|p ps (d0 & d1 & r & c & t & ->) _ IH]; [reflexivity|].
  cbn [map length repeat]. now rewrite IH.
Qed.

Lemma placed_wedge_wedgeIndex (cfg : Config) (n : Z) (bw : list Polygon)
      (g : Generator) (ip : Z * Point) :
  map (fun p => wedgeIndex (meta p)) (placed_wedge n cfg bw g ip) =
  map Some (repeat (fst ip) (length bw)).
Proof.
  unfold placed_wedge. induction bw as [|p bw IH]; [reflexivity|].
  cbn [map length repeat]. rewrite IH. reflexivity.
Qed.

(** The polygons of the run: the base wedge, then the placed wedges. *)
Lemma run_polygons (cfg : Config) (m k n rows : Z) (g : Generator)
      (t : nat) :
  let wedge := fst (generateWedge cfg m k n rows g) in
  let env := tiling_env cfg m k n (paletteType g) in
  polygons (gen (run_state cfg m k n rows g t)) =
  wedge ++
  flat_map (placed_wedge n cfg wedge env)
    (placements k n t 1 (removelast (fst (build_u_seq m k false)))).
Proof.
  intros wedge env. unfold run_state.
  rewrite tiling_loop_spec by apply entry_ready.
  cbn [gen polygons entry_state front]. reflexivity.
Qed.

Lemma run_wedge_order (cfg : Config) (m k n rows : Z) (g : Generator)
      (t : nat) :
  exists ws,
    map (fun p => wedgeIndex (meta p))
        (polygons (gen (run_state cfg m k n rows g t))) = map Some ws /\
    StronglySorted Z.le ws.
Proof.
  set (wedge := fst (generateWedge cfg m k n rows g)).
  set (pls := placements k n t 1
                (removelast (fst (build_u_seq m k false)))).
  exists (flat_map (fun x => repeat x (length wedge)) (0 :: map fst pls)).
  split.
  - rewrite run_polygons. fold wedge pls. cbn [flat_map].
    rewrite !map_app. f_equal; [apply generateWedge_wedgeIndex|].
    induction pls as [|ip pls IH]; [reflexivity|].
    cbn [flat_map map]. rewrite !map_app, IH. f_equal.
    apply placed_wedge_wedgeIndex.
  - destruct (placements_sorted k n t 1
                (removelast (fst (build_u_seq m k false)))) as [Hs Hf].
    fold pls in Hs, Hf.
    apply (blocks_sorted (length wedge) (0 :: map fst pls) 0).
    + constructor; [exact Hs|].
      eapply Forall_impl; [|exact Hf]. cbn. intros; lia.
    + constructor; [lia|].
      eapply Forall_impl; [|exact Hf]. cbn. intros; lia.
Qed.

(** ** Placement of the wedges *)

Lemma push_reflected_spec (pivot : Point) (ps : list Polygon) :
  forall g,
    push_reflected pivot ps g =
    set_polygons (polygons g ++ map (reflected_tile pivot) ps) g.
Proof.
  induction ps as [|p ps IH]; intros g; cbn [push_reflected map].
  - rewrite app_nil_r. destruct g; reflexivity.
  - rewrite IH. unfold set_polygons.
    cbn [polygons palette paletteType currentParams console].
    rewrite <- app_assoc. reflexivity.
Qed.

Lemma run_polygons_nil (cfg : Config) (m k n rows : Z) (g : Generator)
      (t : nat) :
  fst (generateWedge cfg m k n rows g) = [] ->
  polygons (gen (run_state cfg m k n rows g t)) = [].
Proof.
  intros Hnil. rewrite run_polygons, Hnil. cbn [app].
  induction (placements k n t 1 (removelast (fst (build_u_seq m k false))))
    as [|ip pls IH]; [reflexivity|].
  cbn [flat_map]. rewrite IH. reflexivity.
Qed.

(** The list that [generateTiling] returns: the polygons of the placement
    and, in offset mode, their reflections. *)
Lemma generateTiling_result (cfg : Config) (m k n rows : Z) (isOffset : bool)
      (g : Generator) :
  let primary :=
    polygons (gen (run_state cfg m k n rows g (wedge_iterations isOffset n)))
  in
  fst (generateTiling cfg m k n rows isOffset g) =
  primary ++
  (if isOffset then map (reflected_tile (pivot n)) primary else []).
Proof.
  intros primary. unfold generateTiling. rewrite tiling_primary_run.
  destruct (fst (generateWedge cfg m k n rows g)) as [|p0 ps] eqn:Hw.
  - cbn [length Nat.eqb fst]. unfold primary.
    rewrite (run_polygons_nil cfg m k n rows g _ Hw).
    destruct isOffset; reflexivity.
  - cbn [length Nat.eqb]. fold primary. destruct isOffset.
    + unfold offset_copy. rewrite push_reflected_spec. reflexivity.
    + cbn [fst]. now rewrite app_nil_r.
Qed.

(** C2.  In [generateTiling(m, k, n, rows, isOffset)]: [w_limit] is [n / 2]
    in offset mode and [n] otherwise, and the loop runs for the integers
    [1 <= i < w_limit], that is for [i] from 1 to [w_limit - 1] when
    [w_limit] is an integer; the front starts as [U] without its trailing
    sentinel and the polygons start as wedge 0, the base wedge unchanged;
    unless the base wedge is empty, the placement ends in the state after
    [w_limit - 1] iterations, and the returned list is the polygons of that
    state, followed in offset mode by the reflected copies; in the iteration of wedge [i], when [i] occurs
    in the front, [j*] is the smallest index whose entry is [i], the front
    changes at [j*] only, to [i + k], and the polygons grow by one copy per
    polygon of the base wedge, whose path is the base path rotated by
    [i * 2 PI / n] about the origin and translated by the sum of the
    direction vectors of [front[0 .. j* - 1]], with [wedgeIndex] set to [i]
    and [tileIndex], [r], [c] kept; and the wedge indices of the polygons
    never decrease along the list. *)
Theorem C2_tiling_placement (cfg : Config) (m k n rows : Z) (isOffset : bool)
    (g : Generator) :
  let wedge := fst (generateWedge cfg m k n rows g) in
  let U := snd (fst (boundary_sequences m k)) in
  let steps := wedge_iterations isOffset n in
  let run := run_state cfg m k n rows g in
  w_limit true n = (inject_Z n / inject_Z 2)%Q /\
  w_limit false n = inject_Z n /\
  (forall i, 1 <= i ->
     ((inject_Z i < w_limit isOffset n)%Q <-> i <= Z.of_nat steps)) /\
  (forall w : Z,
     (w_limit isOffset n == inject_Z w)%Q ->
     forall i, 1 <= i -> (i <= Z.of_nat steps <-> i <= w - 1)) /\
  front (run O) = removelast U /\
  polygons (gen (run O)) = wedge /\
  (wedge <> [] ->
   tiling_primary cfg m k n rows isOffset g = inr (run steps)) /\
  (exists reflected,
     fst (generateTiling cfg m k n rows isOffset g) =
       polygons (gen (run steps)) ++ reflected /\
     (isOffset = false -> reflected = [])) /\
  (forall t : nat,
     let i := 1 + Z.of_nat t in
     In i (front (run t)) ->
     exists (j : nat) (copies : list Polygon),
       nth_error (front (run t)) j = Some i /\
       (forall j', (j' < j)%nat -> nth_error (front (run t)) j' <> Some i) /\
       length (front (run (S t))) = length (front (run t)) /\
       nth_error (front (run (S t))) j = Some (i + k) /\
       (forall j', j' <> j ->
          nth_error (front (run (S t))) j' = nth_error (front (run t)) j') /\
       polygons (gen (run (S t))) = polygons (gen (run t)) ++ copies /\
       length copies = length wedge /\
       forall idx p q,
         nth_error wedge idx = Some p -> nth_error copies idx = Some q ->
         path q =
           map (fun pt =>
                  translate
                    (mkPoint (sum_x n (firstn j (front (run t))))
                             (sum_y n (firstn j (front (run t)))))
                    (rotate (IZR i * (2 * PI / IZR n)) pt))
               (path p) /\
         wedgeIndex (meta q) = Some i /\
         tileIndex (meta q) = tileIndex (meta p) /\
         meta_r (meta q) = meta_r (meta p) /\
         meta_c (meta q) = meta_c (meta p)) /\
  (forall t : nat,
     exists ws,
       map (fun p => wedgeIndex (meta p)) (polygons (gen (run t))) =
         map Some ws /\
       StronglySorted Z.le ws).
Proof.
  intros wedge U steps run.
  split; [reflexivity|]. split; [reflexivity|].
  split; [intros i Hi; apply wedge_iterations_spec; exact Hi|].
  split.
  { intros w Hw i Hi. unfold steps.
    rewrite <- wedge_iterations_spec by exact Hi.
    rewrite Hw, <- Zlt_Qlt. lia. }
  split; [unfold U; now rewrite boundary_sequences_U|].
  split; [reflexivity|]. split.
  { intros Hne. rewrite tiling_primary_run. fold wedge.
    destruct wedge; [congruence|reflexivity]. }
  split.
  { eexists. split; [apply generateTiling_result|].
    intros ->. reflexivity. }
  split; [|intros t; apply run_wedge_order].
  intros t i Hin.
  destruct (find_j_star (front (run t)) i) as [j|] eqn:Hfind.
  2: { apply find_j_star_None in Hfind. contradiction. }
  pose proof (proj1 (find_j_star_Some _ _ _) Hfind) as [Hnth Hmin].
  assert (Hj : (j < length (front (run t)))%nat).
  { apply nth_error_Some. congruence. }
  exists j.
  exists (map (transformed_tile cfg (gen (run t)) n
                 (sum_x n (firstn j (front (run t))))
                 (sum_y n (firstn j (front (run t)))) i) wedge).
  unfold run. rewrite run_state_succ. fold run wedge i.
  rewrite (tiling_step_place cfg k n wedge i (run t) j)
    by (exact Hfind || apply run_ready).
  cbn [front gen polygons set_polygons].
  split; [exact Hnth|]. split; [exact Hmin|].
  split; [apply assign_length|]. split; [apply assign_same; exact Hj|].
  split; [intros j' Hj'; apply assign_other; exact Hj'|].
  split; [reflexivity|]. split; [apply length_map|].
  intros idx p q Hp Hq. rewrite nth_error_map, Hp in Hq. cbn in Hq.
  injection Hq as <-. repeat split.
Qed.

(** The theorem at [generateTiling(3, 7, 14, 1, false)] and its first
    iteration: wedge 1 is found in the front [7; 3; 6; 2; 5; 1; 4] at
    index 5. *)
Lemma C2_tiling_placement_witness :
  let run := run_state (TILING_CONFIG 3) 3 7 14 1 new_generator in
  In 1 (front (run O)) /\
  exists (j : nat) (copies : list Polygon),
    nth_error (front (run O)) j = Some 1 /\
    nth_error (front (run 1%nat)) j = Some (1 + 7) /\
    polygons (gen (run 1%nat)) = polygons (gen (run O)) ++ copies /\
    length copies =
      length (fst (generateWedge (TILING_CONFIG 3) 3 7 14 1 new_generator)).
Proof.
  intros run.
  assert (Hin : In 1 (front (run O))) by (vm_compute; tauto).
  split; [exact Hin|].
  pose proof (C2_tiling_placement (TILING_CONFIG 3) 3 7 14 1 false
                new_generator) as H.
  cbn zeta in H.
  destruct H as (_ & _ & _ & _ & _ & _ & _ & _ & Hstep & _).
  destruct (Hstep O Hin) as (j & copies & Hj & _ & _ & Hj' & _ & Hp & Hl & _).
  exists j, copies. repeat split; assumption.
Defined.

(** ** Offset mode *)

Lemma primary_polygons_run (cfg : Config) (m k n rows : Z) (isOffset : bool)
      (g : Generator) :
  primary_polygons cfg m k n rows isOffset g =
  polygons (gen (run_state cfg m k n rows g (wedge_iterations isOffset n))).
Proof.
  unfold primary_polygons. rewrite tiling_primary_run.
  destruct (fst (generateWedge cfg m k n rows g)) as [|p0 ps] eqn:Hw.
  - cbn [length Nat.eqb]. symmetry. now apply run_polygons_nil.
  - reflexivity.
Qed.

(** C4.  [generateTiling(m, k, n, rows, true)] returns the polygons of the
    primary pass followed by one reflected copy of each, in the same order:
    twice as many polygons; the copy of a polygon has the path of the
    per-point images [2 pivot - p] with [pivot = getVector(0) / 2], the same
    colour and stroke, [isCopy = true] and the source's [wedgeIndex] plus
    10000, its other metadata unchanged. *)
Theorem C4_offset_reflection (cfg : Config) (m k n rows : Z) (g : Generator) :
  let primary := primary_polygons cfg m k n rows true g in
  let result := fst (generateTiling cfg m k n rows true g) in
  let pv := mkPoint (px (getVector n 0) / 2) (py (getVector n 0) / 2) in
  length result = (2 * length primary)%nat /\
  firstn (length primary) result = primary /\
  forall idx src,
    nth_error primary idx = Some src ->
    exists copy w,
      nth_error result (length primary + idx) = Some copy /\
      path copy =
        map (fun p => mkPoint (2 * px pv - px p) (2 * py pv - py p))
            (path src) /\
      color copy = color src /\
      stroke copy = stroke src /\
      isCopy (meta copy) = Some true /\
      wedgeIndex (meta src) = Some w /\
      wedgeIndex (meta copy) = Some (w + 10000) /\
      tileIndex (meta copy) = tileIndex (meta src) /\
      meta_r (meta copy) = meta_r (meta src) /\
      meta_c (meta copy) = meta_c (meta src).
Proof.
  intros primary result pv.
  assert (Hres : result = primary ++ map (reflected_tile pv) primary).
  { unfold result, primary. rewrite primary_polygons_run.
    apply (generateTiling_result cfg m k n rows true g). }
  split. { rewrite Hres, length_app, length_map. lia. }
  split. { rewrite Hres, firstn_app, Nat.sub_diag, firstn_all. cbn.
           apply app_nil_r. }
  intros idx src Hsrc.
  destruct (run_wedge_order cfg m k n rows g (wedge_iterations true n))
    as (ws & Hws & _).
  rewrite <- primary_polygons_run in Hws. fold primary in Hws.
  assert (Hw : exists w, wedgeIndex (meta src) = Some w).
  { apply (f_equal (fun l => nth_error l idx)) in Hws.
    rewrite !nth_error_map, Hsrc in Hws. cbn in Hws.
    destruct (nth_error ws idx) as [w|]; [|discriminate].
    exists w. cbn in Hws. congruence. }
  destruct Hw as [w Hw].
  exists (reflected_tile pv src), w. split.
  { rewrite Hres, nth_error_app2 by lia.
    replace (length primary + idx - length primary)%nat with idx by lia.
    rewrite nth_error_map, Hsrc. reflexivity. }
  split; [reflexivity|]. split; [reflexivity|]. split; [reflexivity|].
  split; [reflexivity|]. split; [exact Hw|].
  split; [cbn; rewrite Hw; reflexivity|]. repeat split.
Qed.

(** The theorem at [generateTiling(3, 7, 14, 1, true)]: seven wedges of one
    tile and their seven copies. *)
Lemma C4_offset_reflection_witness :
  let primary := primary_polygons (TILING_CONFIG 3) 3 7 14 1 true new_generator
  in
  length primary = 7%nat /\
  length (fst (generateTiling (TILING_CONFIG 3) 3 7 14 1 true new_generator))
    = 14%nat /\
  exists src copy,
    nth_error primary 6 = Some src /\
    nth_error (fst (generateTiling (TILING_CONFIG 3) 3 7 14 1 true
                      new_generator)) (length primary + 6) = Some copy /\
    wedgeIndex (meta copy) = Some 10006.
Proof.
  intros primary.
  assert (Hlen : length primary = 7%nat) by (vm_compute; reflexivity).
  split; [exact Hlen|].
  destruct (C4_offset_reflection (TILING_CONFIG 3) 3 7 14 1 new_generator)
    as (Hdouble & _ & Hcopy).
  fold primary in Hdouble, Hcopy.
  split; [rewrite Hdouble, Hlen; reflexivity|].
  destruct (nth_error primary 6) as [src|] eqn:Hsrc.
  2: { apply nth_error_None in Hsrc. lia. }
  destruct (Hcopy 6%nat src Hsrc)
    as (copy & w & Hc & _ & _ & _ & _ & Hw & Hw' & _).
  exists src, copy. split; [reflexivity|]. split; [exact Hc|].
  assert (Hsix : wedgeIndex (meta src) = Some 6).
  { assert (H : option_map (fun p => wedgeIndex (meta p))
                  (nth_error primary 6) = Some (Some 6))
      by (vm_compute; reflexivity).
    rewrite Hsrc in H. cbn in H. congruence. }
  rewrite Hw in Hsix. injection Hsix as ->. exact Hw'.
Defined.

(** ** Skipped wedges *)

Lemma tiling_loop_add (cfg : Config) (k n : Z) (bw : list Polygon)
      (a b : nat) :
  forall (i : Z) (st : TilingState),
    tiling_loop (a + b) cfg k n bw i st =
    tiling_loop b cfg k n bw (i + Z.of_nat a) (tiling_loop a cfg k n bw i st).
Proof.
  induction a as [|a IH]; intros i st.
  - cbn. now rewrite Z.add_0_r.
  - cbn [Nat.add tiling_loop]. rewrite IH.
    replace (i + 1 + Z.of_nat a) with (i + Z.of_nat (S a)) by lia.
    reflexivity.
Qed.

(** C8.  In the iteration of a wedge [i] of [1 .. w_limit - 1] that does not
    occur in the front, the front and the polygons stay as they are and the
    warning for [i] is written; the loop goes on with wedge [i + 1] from
    this state, the remaining wedges are placed against the unchanged
    front, and [generateTiling] returns the polygons placed before,
    followed by those placed later (and the copies of the offset mode). *)
Theorem C8_unmatched_wedge_skipped (cfg : Config) (m k n rows : Z)
    (isOffset : bool) (g : Generator) (t : nat) :
  let wedge := fst (generateWedge cfg m k n rows g) in
  let run := run_state cfg m k n rows g in
  let steps := wedge_iterations isOffset n in
  let i := 1 + Z.of_nat t in
  (t < steps)%nat ->
  ~ In i (front (run t)) ->
  front (run (S t)) = front (run t) /\
  polygons (gen (run (S t))) = polygons (gen (run t)) /\
  console (gen (run (S t))) =
    console (gen (run t)) ++ [DirectionNotFound i] /\
  run steps =
    tiling_loop (steps - S t) cfg k n wedge (i + 1) (run (S t)) /\
  polygons (gen (run steps)) =
    polygons (gen (run t)) ++
    flat_map (placed_wedge n cfg wedge (gen (run t)))
             (placements k n (steps - S t) (i + 1) (front (run t))) /\
  exists reflected,
    fst (generateTiling cfg m k n rows isOffset g) =
    polygons (gen (run steps)) ++ reflected.
Proof.
  intros wedge run steps i Hlt Hnot.
  apply find_j_star_None in Hnot.
  assert (Hstep : run (S t) =
            mkTilingState (front (run t))
                          (log (DirectionNotFound i) (gen (run t)))).
  { unfold run. rewrite run_state_succ. fold run wedge i.
    apply tiling_step_skip. exact Hnot. }
  assert (Hrest : run steps =
            tiling_loop (steps - S t) cfg k n wedge (i + 1) (run (S t))).
  { unfold run at 1, run_state. fold wedge.
    replace steps with (S t + (steps - S t))%nat at 1 by lia.
    rewrite tiling_loop_add. fold (run_state cfg m k n rows g (S t)).
    fold run. f_equal. lia. }
  split; [rewrite Hstep; reflexivity|].
  split; [rewrite Hstep; reflexivity|].
  split; [rewrite Hstep; reflexivity|].
  split; [exact Hrest|]. split.
  - rewrite Hrest, tiling_loop_spec by apply run_ready.
    rewrite Hstep. reflexivity.
  - eexists. apply generateTiling_result.
Qed.

(** The theorem at [generateTiling(2, 4, 8, 1, false)]: the front is
    [4; 2] and wedge 1 is skipped. *)
Lemma C8_unmatched_wedge_skipped_witness :
  let run := run_state (TILING_CONFIG 3) 2 4 8 1 new_generator in
  (0 < wedge_iterations false 8)%nat /\
  ~ In 1 (front (run O)) /\
  front (run 1%nat) = front (run O) /\
  polygons (gen (run 1%nat)) = polygons (gen (run O)) /\
  console (gen (run 1%nat)) = console (gen (run O)) ++ [DirectionNotFound 1].
Proof.
  intros run.
  assert (Hlt : (0 < wedge_iterations false 8)%nat) by (vm_compute; lia).
  assert (Hnot : ~ In 1 (front (run O))).
  { vm_compute. intros [H|[H|[]]]; discriminate. }
  split; [exact Hlt|]. split; [exact Hnot|].
  destruct (C8_unmatched_wedge_skipped (TILING_CONFIG 3) 2 4 8 1 false
              new_generator O Hlt Hnot) as (Hf & Hp & Hc & _).
  repeat split; assumption.
Defined.

(** ** The front throughout a run *)

Lemma In_removelast {A : Type} (x : A) (l : list A) :
  In x (removelast l) -> In x l.
Proof.
  induction l as [|a l IH]; cbn; [tauto|].
  destruct l as [|b l]; [cbn; tauto|]. cbn [In]. intros [H|H]; [tauto|].
  right. apply IH. exact H.
Qed.

Lemma u_seq_nonneg (m k : Z) :
  0 <= m -> 0 <= k -> Forall (Z.le 0) (fst (build_u_seq m k false)).
Proof.
  intros Hm Hk. destruct (Z.eq_dec k 0) as [->|Hne].
  - cbn. repeat constructor; lia.
  - rewrite build_u_seq_spec by lia. cbn [fst].
    constructor; [exact Hk|]. apply Forall_app. split.
    + apply Forall_forall. intros x Hx.
      apply in_map_iff in Hx as (j & <- & Hj%range_In).
      apply Z.rem_nonneg; [lia|nia].
    + repeat constructor. lia.
Qed.

(** C10.  At every point [t] of a run of the placement loop, with [m] and
    [k] not negative: the front has the length of [U] minus one; an
    iteration either leaves the front as it is or overwrites the one entry
    [front[j*]], which held [i], with [i + k]; every entry of the front is
    an entry of [U] without its sentinel or [i + k] for a wedge
    [1 <= i <= t] that was placed; and every entry is a non-negative
    integer. *)
Theorem C10_front_invariant (cfg : Config) (m k n rows : Z) (g : Generator)
    (t : nat) (Hm : 0 <= m) (Hk : 0 <= k) :
  let U := snd (fst (boundary_sequences m k)) in
  let run := run_state cfg m k n rows g in
  length (front (run t)) = (length U - 1)%nat /\
  (let i := 1 + Z.of_nat t in
   front (run (S t)) = front (run t) \/
   exists j, nth_error (front (run t)) j = Some i /\
             front (run (S t)) = JS.assign (front (run t)) j (i + k) /\
             length (front (run (S t))) = length (front (run t)) /\
             forall j', j' <> j ->
               nth_error (front (run (S t))) j' =
               nth_error (front (run t)) j') /\
  Forall (fun x =>
            (In x (removelast U) \/
             exists i, 1 <= i <= Z.of_nat t /\
                       placed cfg m k n rows g i /\ x = i + k) /\
            0 <= x)
         (front (run t)).
Proof.
  intros U run.
  assert (HU : U = fst (build_u_seq m k false))
    by apply boundary_sequences_U.
  assert (Hstep : forall t',
            let i := 1 + Z.of_nat t' in
            (find_j_star (front (run t')) i = None /\
             front (run (S t')) = front (run t')) \/
            exists j, find_j_star (front (run t')) i = Some j /\
                      front (run (S t')) =
                        JS.assign (front (run t')) j (i + k)).
  { intros t' i. unfold run. rewrite run_state_succ. fold run i.
    destruct (find_j_star (front (run t')) i) as [j|] eqn:Hf.
    - right. exists j. split; [reflexivity|].
      rewrite (tiling_step_place cfg k n _ i (run t') j)
        by (exact Hf || apply run_ready).
      reflexivity.
    - left. split; [reflexivity|].
      rewrite tiling_step_skip by exact Hf. reflexivity. }
  assert (Hlen : forall t', length (front (run t')) = (length U - 1)%nat).
  { induction t' as [|t' IH].
    - cbn [run run_state tiling_loop entry_state front]. rewrite <- HU.
      destruct U as [|a U] using rev_ind; [reflexivity|].
      rewrite removelast_last, length_app. cbn. lia.
    - destruct (Hstep t') as [[_ ->]|(j & _ & ->)];
        [|rewrite assign_length]; exact IH. }
  split; [apply Hlen|]. split.
  { cbn zeta. destruct (Hstep t) as [[_ Hsame]|(j & Hf & Hassign)];
      [left; exact Hsame|].
    right. exists j. apply find_j_star_Some in Hf as [Hnth _].
    split; [exact Hnth|]. split; [exact Hassign|]. rewrite Hassign.
    split; [apply assign_length|].
    intros j' Hj'. apply assign_other. exact Hj'. }
  induction t as [|t IH].
  - cbn [run run_state tiling_loop entry_state front]. rewrite <- HU.
    apply Forall_forall. intros x Hx. split; [left; exact Hx|].
    pose proof (u_seq_nonneg m k Hm Hk) as Hnn. rewrite <- HU in Hnn.
    rewrite Forall_forall in Hnn. apply Hnn, In_removelast, Hx.
  - assert (Hweak : Forall (fun x =>
              (In x (removelast U) \/
               exists i, 1 <= i <= Z.of_nat (S t) /\
                         placed cfg m k n rows g i /\ x = i + k) /\
              0 <= x) (front (run t))).
    { eapply Forall_impl; [|exact IH]. cbn beta.
      intros x [[Hx|(i & Hi & Hp & Hx)] Hnn]; (split; [|exact Hnn]);
        [left; exact Hx|].
      right. exists i. split; [lia|]. split; assumption. }
    destruct (Hstep t) as [[_ ->]|(j & Hf & ->)]; [exact Hweak|].
    apply Forall_forall. intros x Hx. apply assign_In in Hx as [->|Hx].
    + split; [|lia]. right. exists (1 + Z.of_nat t). split; [lia|].
      split; [|reflexivity]. unfold placed.
      replace (Z.to_nat (1 + Z.of_nat t - 1)) with t by lia. fold run.
      apply find_j_star_Some in Hf as [Hnth _].
      eapply nth_error_In. exact Hnth.
    + rewrite Forall_forall in Hweak. apply Hweak, Hx.
Qed.

(** The theorem after three iterations of [generateTiling(3, 7, 14, 1, _)]:
    the front still has seven entries. *)
Lemma C10_front_invariant_witness :
  0 <= 3 /\ 0 <= 7 /\
  length (front (run_state (TILING_CONFIG 3) 3 7 14 1 new_generator 3)) =
    (length (snd (fst (boundary_sequences 3 7))) - 1)%nat /\
  front (run_state (TILING_CONFIG 3) 3 7 14 1 new_generator 3) =
    [7; 10; 6; 9; 5; 8; 4].
Proof.
  split; [lia|]. split; [lia|]. split.
  - exact (proj1 (C10_front_invariant (TILING_CONFIG 3) 3 7 14 1
                    new_generator 3 ltac:(lia) ltac:(lia))).
  - vm_compute. reflexivity.
Defined.

(** ** Determinism *)

Lemma generateWedge_geometry (cfg1 cfg2 : Config) (m k n rows : Z)
      (g1 g2 : Generator) :
  map geometry (fst (generateWedge cfg1 m k n rows g1)) =
  map geometry (fst (generateWedge cfg2 m k n rows g2)).
Proof.
  unfold generateWedge.
  pose proof (generatePrototile_result m k n (set_currentParams (m, k, n) g1))
    as Hres1.
  pose proof (generatePrototile_state m k n (set_currentParams (m, k, n) g1))
    as Hst1.
  pose proof (generatePrototile_result m k n (set_currentParams (m, k, n) g2))
    as Hres2.
  pose proof (generatePrototile_state m k n (set_currentParams (m, k, n) g2))
    as Hst2.
  destruct (generatePrototile m k n (set_currentParams (m, k, n) g1))
    as [bp1 h1].
  destruct (generatePrototile m k n (set_currentParams (m, k, n) g2))
    as [bp2 h2].
  cbn [fst snd] in *. subst bp1 h1 bp2 h2.
  destruct (path (prototile m k n)) as [|p0 rest]; [reflexivity|].
  cbn [length Nat.eqb].
  destruct (l_seq_loop (Z.to_nat k) m k 0 [] false) as [acc s].
  repeat match goal with
  | |- context [wedge_rows ?c ?cf ?bp ?a ?b 0 0 ?gg] =>
      change (wedge_rows c cf bp a b 0 0 gg)
        with (wedge_rows c cf bp a b 0 (tri 0) gg);
      rewrite (wedge_rows_spec cf bp a b c 0 gg) by lia
  end.
  cbn [fst snd polygons set_polygons generatePalette app].
  rewrite !flat_map_concat_map, !concat_map, !map_map. f_equal.
  apply map_ext. intros r. unfold row_tiles. rewrite !map_map.
  apply map_ext. intros c. reflexivity.
Qed.

Lemma transformed_geometry (cfg1 cfg2 : Config) (g1 g2 : Generator) (n : Z)
      (ox oy : R) (i : Z) (l1 : list Polygon) :
  forall l2,
    map geometry l1 = map geometry l2 ->
    map geometry (map (transformed_tile cfg1 g1 n ox oy i) l1) =
    map geometry (map (transformed_tile cfg2 g2 n ox oy i) l2).
Proof.
  induction l1 as [|p1 l1 IH]; intros [|p2 l2] H; try discriminate;
    [reflexivity|].
  cbn [map] in *. injection H as Hp Hs Hm Hl.
  rewrite (IH l2 Hl). f_equal.
  unfold geometry, transformed_tile. cbn [path stroke meta].
  rewrite Hp, Hm. reflexivity.
Qed.

Lemma reflected_geometry (pv : Point) (l1 : list Polygon) :
  forall l2,
    map geometry l1 = map geometry l2 ->
    map geometry (map (reflected_tile pv) l1) =
    map geometry (map (reflected_tile pv) l2).
Proof.
  induction l1 as [|p1 l1 IH]; intros [|p2 l2] H; try discriminate;
    [reflexivity|].
  cbn [map] in *. injection H as Hp Hs Hm Hl.
  rewrite (IH l2 Hl). f_equal.
  unfold geometry, reflected_tile. cbn [path stroke meta].
  rewrite Hp, Hs, Hm. reflexivity.
Qed.

Lemma run_geometry (cfg1 cfg2 : Config) (m k n rows : Z) (g1 g2 : Generator)
      (t : nat) :
  map geometry (polygons (gen (run_state cfg1 m k n rows g1 t))) =
  map geometry (polygons (gen (run_state cfg2 m k n rows g2 t))).
Proof.
  rewrite !run_polygons, !map_app.
  pose proof (generateWedge_geometry cfg1 cfg2 m k n rows g1 g2) as Hw.
  f_equal; [exact Hw|].
  induction (placements k n t 1 (removelast (fst (build_u_seq m k false))))
    as [|ip pls IH]; [reflexivity|].
  cbn [flat_map]. rewrite !map_app, IH. f_equal.
  unfold placed_wedge. apply transformed_geometry. exact Hw.
Qed.

Lemma run_same_palette (cfg : Config) (m k n rows : Z) (g1 g2 : Generator)
      (t : nat) :
  paletteType g1 = paletteType g2 ->
  polygons (gen (run_state cfg m k n rows g1 t)) =
  polygons (gen (run_state cfg m k n rows g2 t)).
Proof.
  intros Ht. rewrite !run_polygons, Ht.
  rewrite (generateWedge_paletteType cfg m k n rows g1 g2 Ht). reflexivity.
Qed.

(** C7, as the code has it.  The list that [generateTiling] returns is
    determined by its arguments together with the colour configuration
    [TILING_CONFIG] and the generator's palette type: two calls that agree
    on these return the same polygons in the same order, whatever else the
    generator holds.  The paths, strokes and metadata, in their order, are
    determined by the arguments alone. *)
Theorem C7_determinism (cfg1 cfg2 : Config) (m k n rows : Z)
    (isOffset : bool) (g1 g2 : Generator) :
  map geometry (fst (generateTiling cfg1 m k n rows isOffset g1)) =
  map geometry (fst (generateTiling cfg2 m k n rows isOffset g2)) /\
  (cfg1 = cfg2 -> paletteType g1 = paletteType g2 ->
   fst (generateTiling cfg1 m k n rows isOffset g1) =
   fst (generateTiling cfg2 m k n rows isOffset g2)).
Proof.
  split.
  - rewrite !generateTiling_result, !map_app.
    pose proof (run_geometry cfg1 cfg2 m k n rows g1 g2
                  (wedge_iterations isOffset n)) as Hrun.
    f_equal; [exact Hrun|].
    destruct isOffset; [|reflexivity].
    apply reflected_geometry. exact Hrun.
  - intros <- Ht. rewrite !generateTiling_result.
    rewrite (run_same_palette cfg1 m k n rows g1 g2 _ Ht). reflexivity.
Qed.

(** The theorem at two generators that share the palette type and nothing
    else. *)
Lemma C7_determinism_witness :
  let g2 := mkGenerator [] [Hsla 1 2 3] "color" (9, 9, 9) [ParameterError] in
  TILING_CONFIG 3 = TILING_CONFIG 3 /\
  paletteType new_generator = paletteType g2 /\
  fst (generateTiling (TILING_CONFIG 3) 3 7 14 2 true new_generator) =
  fst (generateTiling (TILING_CONFIG 3) 3 7 14 2 true g2).
Proof.
  intros g2. split; [reflexivity|]. split; [reflexivity|].
  exact (proj2 (C7_determinism (TILING_CONFIG 3) (TILING_CONFIG 3) 3 7 14 2
                  true new_generator g2) eq_refl eq_refl).
Defined.

(** The claim as stated fails: with the same arguments the colours change
    with [TILING_CONFIG.colorCount] (3 or 4 colours) and with the
    generator's palette type (["color"] or ["gray"]). *)
Lemma C7_counterexample :
  let gray := mkGenerator [] [] "gray" (0, 0, 0) [] in
  fst (generateTiling (TILING_CONFIG 3) 3 7 14 1 false new_generator) <>
  fst (generateTiling (TILING_CONFIG 4) 3 7 14 1 false new_generator) /\
  fst (generateTiling (TILING_CONFIG 3) 3 7 14 1 false new_generator) <>
  fst (generateTiling (TILING_CONFIG 3) 3 7 14 1 false gray).
Proof.
  intros gray. split; intros H; apply (f_equal (map color)) in H;
    vm_compute in H; discriminate.
Qed.

(** * Further properties of the generator *)

(** ** Which wedges the placement loop places *)

Lemma run_front (cfg : Config) (m k n rows : Z) (g : Generator) (t : nat) :
  front (run_state cfg m k n rows g t) =
  front_after k t 1 (removelast (fst (build_u_seq m k false))).
Proof.
  unfold run_state. rewrite tiling_loop_spec by apply entry_ready.
  reflexivity.
Qed.

Lemma skipped_In (k : Z) (cnt : nat) :
  forall (i : Z) (fr : list Z) (x : Z),
    In x (skipped k cnt i fr) <->
    exists t : nat, (t < cnt)%nat /\ x = i + Z.of_nat t /\
                    ~ In x (front_after k t i fr).
Proof.
  induction cnt as [|cnt IH]; intros i fr x; cbn [skipped].
  - split; [intros []|]. intros (t & Ht & _). lia.
  - destruct (find_j_star fr i) as [j|] eqn:Hf.
    + rewrite IH. split.
      * intros (t & Ht & Hx & Hn). exists (S t). split; [lia|].
        split; [lia|]. cbn [front_after]. rewrite Hf. exact Hn.
      * intros ([|t] & Ht & Hx & Hn).
        -- exfalso. cbn [front_after] in Hn. apply Hn.
           apply find_j_star_Some in Hf as [Hnth _].
           replace x with i by lia. eapply nth_error_In; exact Hnth.
        -- cbn [front_after] in Hn. rewrite Hf in Hn.
           exists t. split; [lia|]. split; [lia|exact Hn].
    + cbn [In]. rewrite IH. split.
      * intros [<-|(t & Ht & Hx & Hn)].
        -- exists O. split; [lia|]. split; [lia|].
           cbn [front_after]. apply find_j_star_None. exact Hf.
        -- exists (S t). split; [lia|]. split; [lia|].
           cbn [front_after]. rewrite Hf. exact Hn.
      * intros ([|t] & Ht & Hx & Hn); [left; lia|]. right.
        cbn [front_after] in Hn. rewrite Hf in Hn.
        exists t. split; [lia|]. split; [lia|exact Hn].
Qed.

Lemma placements_skipped_length (k n : Z) (cnt : nat) :
  forall (i : Z) (fr : list Z),
    (length (placements k n cnt i fr) + length (skipped k cnt i fr))%nat = cnt.
Proof.
  induction cnt as [|cnt IH]; intros i fr; cbn [placements skipped];
    [reflexivity|].
  destruct (find_j_star fr i) as [j|]; cbn [length].
  - specialize (IH (i + 1) (JS.assign fr j (i + k))). lia.
  - specialize (IH (i + 1) fr). lia.
Qed.

Lemma assign_keeps (fr : list Z) (j : nat) (old new v : Z) :
  nth_error fr j = Some old -> v <> old -> In v fr ->
  In v (JS.assign fr j new).
Proof.
  intros Hold Hne Hin. apply In_nth_error in Hin as [j' Hj'].
  assert (j' <> j) by congruence.
  apply (nth_error_In _ j'). rewrite assign_other by assumption. exact Hj'.
Qed.

Lemma assign_has {A : Type} (fr : list A) (j : nat) (old new : A) :
  nth_error fr j = Some old -> In new (JS.assign fr j new).
Proof.
  intros Hold. apply (nth_error_In _ j), assign_same.
  apply nth_error_Some. congruence.
Qed.

Lemma window_step (k i : Z) (fr : list Z) :
  0 < k -> window k i fr ->
  exists j, find_j_star fr i = Some j /\
            window k (i + 1) (JS.assign fr j (i + k)).
Proof.
  intros Hk Hw. destruct (find_j_star fr i) as [j|] eqn:Hf.
  - exists j. split; [reflexivity|].
    apply find_j_star_Some in Hf as [Hnth _]. intros v Hv.
    destruct (Z.eq_dec v (i + k)) as [->|Hne].
    + eapply assign_has; exact Hnth.
    + apply (assign_keeps fr j i); [exact Hnth|lia|]. apply Hw. lia.
  - exfalso. apply find_j_star_None in Hf. apply Hf, Hw. lia.
Qed.

Lemma window_front_after (k : Z) (cnt : nat) :
  forall (i : Z) (fr : list Z),
    0 < k -> window k i fr ->
    window k (i + Z.of_nat cnt) (front_after k cnt i fr).
Proof.
  induction cnt as [|cnt IH]; intros i fr Hk Hw.
  - cbn [front_after]. now rewrite Z.add_0_r.
  - cbn [front_after].
    destruct (window_step k i fr Hk Hw) as (j & -> & Hw').
    replace (i + Z.of_nat (S cnt)) with (i + 1 + Z.of_nat cnt) by lia.
    apply IH; assumption.
Qed.

(** For coprime [m] and [k] no term [(j * m) mod k] with [0 < j < k] is
    zero, and every residue [1 .. k - 1] is such a term. *)
Lemma coprime_no_zero_term (m k j : Z) :
  0 < k -> Z.gcd m k = 1 -> 0 < j < k -> term m k j <> 0.
Proof.
  intros Hk Hg Hj Hz. unfold term in Hz.
  apply Z.mod_divide in Hz; [|lia].
  assert (Hd : (k | j)).
  { apply (Z.gauss k m j); [now rewrite Z.mul_comm|].
    now rewrite Z.gcd_comm. }
  destruct Hd as [q Hq].
  assert (Hq' : q <= 0 \/ 1 <= q) by lia. destruct Hq'; nia.
Qed.

Lemma coprime_every_residue (m k v : Z) :
  0 < k -> Z.gcd m k = 1 -> 0 < v < k ->
  exists j, 0 < j < k /\ term m k j = v.
Proof.
  intros Hk Hg Hv.
  destruct (Z.gcd_bezout m k 1 Hg) as (a & b & Hab).
  assert (Hterm : term m k ((v * a) mod k) = v).
  { unfold term. rewrite Z.mul_mod_idemp_l by lia.
    replace (v * a * m) with (v + (- v * b) * k) by nia.
    rewrite Z.mod_add by lia. apply Z.mod_small. lia. }
  exists ((v * a) mod k). split; [|exact Hterm].
  pose proof (Z.mod_pos_bound (v * a) k Hk) as Hb.
  destruct (Z.eq_dec ((v * a) mod k) 0) as [H0|H0]; [|lia].
  exfalso. rewrite H0 in Hterm. unfold term in Hterm.
  rewrite Z.mul_0_l, Z.mod_0_l in Hterm by lia. lia.
Qed.

Lemma coprime_stop_index (m k : Z) :
  0 <= m -> 0 < k -> Z.gcd m k = 1 -> stop_index m k = k.
Proof.
  intros Hm Hk Hg. destruct (stop_index_spec m k Hk) as (Hp & _ & Hstop).
  destruct (Z.eq_dec (stop_index m k) k) as [|Hne]; [assumption|].
  exfalso. assert (Hlt : stop_index m k < k) by lia.
  specialize (Hstop Hlt). rewrite rem_is_term in Hstop by lia.
  revert Hstop. apply coprime_no_zero_term; try assumption. lia.
Qed.

(** The front with which the loop is entered, for coprime [m] and [k]. *)
Lemma coprime_entry_window (m k : Z) :
  0 <= m -> 0 < k -> Z.gcd m k = 1 ->
  window k 1 (removelast (fst (build_u_seq m k false))).
Proof.
  intros Hm Hk Hg. rewrite build_u_seq_spec by exact Hk. cbn [fst].
  rewrite coprime_stop_index by assumption.
  change (k :: map (fun j => Z.rem (j * m) k)
                   (JS.range (Z.to_nat (k - 1)) 1) ++ [0])
    with ((k :: map (fun j => Z.rem (j * m) k)
                    (JS.range (Z.to_nat (k - 1)) 1)) ++ [0]).
  rewrite removelast_last. intros v Hv.
  destruct (Z.eq_dec v k) as [->|Hne]; [left; reflexivity|]. right.
  destruct (coprime_every_residue m k v Hk Hg ltac:(lia)) as (j & Hj & Ht).
  apply in_map_iff. exists j. split.
  - rewrite rem_is_term by lia. exact Ht.
  - apply range_In. lia.
Qed.

Lemma window_all_placed (k n : Z) (cnt : nat) :
  forall (i : Z) (fr : list Z),
    0 < k -> window k i fr ->
    skipped k cnt i fr = [] /\
    map fst (placements k n cnt i fr) = JS.range cnt i.
Proof.
  induction cnt as [|cnt IH]; intros i fr Hk Hw;
    cbn [skipped placements JS.range]; [split; reflexivity|].
  destruct (window_step k i fr Hk Hw) as (j & -> & Hw').
  destruct (IH (i + 1) _ Hk Hw') as [Hs Hp].
  split; [exact Hs|]. cbn [map fst]. now rewrite Hp.
Qed.

(** The state that [generateTiling] leaves on the console: the parameter
    errors of [generatePrototile], then one warning per skipped wedge. *)
Lemma generateTiling_console (cfg : Config) (m k n rows : Z)
      (isOffset : bool) (g : Generator) :
  console (snd (generateTiling cfg m k n rows isOffset g)) =
  console g ++ parameter_errors k n ++
  (if (length (fst (generateWedge cfg m k n rows g)) =? 0)%nat then []
   else map DirectionNotFound
          (skipped k (wedge_iterations isOffset n) 1
                   (removelast (fst (build_u_seq m k false))))).
Proof.
  unfold generateTiling. rewrite tiling_primary_run.
  destruct (length (fst (generateWedge cfg m k n rows g)) =? 0)%nat.
  - cbn [snd gen entry_state console]. now rewrite app_nil_r.
  - unfold run_state. rewrite tiling_loop_spec by apply entry_ready.
    cbn [gen entry_state front console].
    destruct isOffset; cbn [snd].
    + unfold offset_copy. rewrite push_reflected_spec.
      cbn [set_polygons console]. now rewrite app_assoc.
    + cbn [console]. now rewrite app_assoc.
Qed.

(** The base wedge, row by row. *)
Lemma generateWedge_rows (cfg : Config) (m k n rows : Z) (g : Generator) :
  exists bp d0 d1 g',
    fst (generateWedge cfg m k n rows g) =
    flat_map (fun r => row_tiles cfg bp d0 d1 g' r (tri r)
                                 (Z.to_nat (r + 1)) 0)
             (JS.range (Z.to_nat rows) 0).
Proof.
  unfold generateWedge.
  pose proof (generatePrototile_result m k n (set_currentParams (m, k, n) g))
    as Hres.
  destruct (generatePrototile m k n (set_currentParams (m, k, n) g))
    as [basePolygons g1].
  cbn [fst snd] in *. subst basePolygons.
  pose proof (prototile_path_nonempty m k n) as Hne.
  destruct (path (prototile m k n)) as [|p0 rest] eqn:Hpath; [congruence|].
  cbn [length Nat.eqb].
  destruct (l_seq_loop (Z.to_nat k) m k 0 [] false) as [acc s].
  match goal with
  | |- context [wedge_rows ?c ?cf ?bp ?a ?b 0 0 ?gg] =>
      change (wedge_rows c cf bp a b 0 0 gg)
        with (wedge_rows c cf bp a b 0 (tri 0) gg);
      rewrite (wedge_rows_spec cf bp a b c 0 gg) by lia;
      exists bp, a, b, gg
  end.
  reflexivity.
Qed.

Lemma generateWedge_length (cfg : Config) (m k n rows : Z) (g : Generator) :
  0 <= rows ->
  Z.of_nat (length (fst (generateWedge cfg m k n rows g))) = tri rows.
Proof.
  intros Hrows.
  destruct (generateWedge_rows cfg m k n rows g)
    as (bp & d0 & d1 & g' & ->).
  assert (Hidx :
    map (fun p => tileIndex (meta p))
        (flat_map (fun r => row_tiles cfg bp d0 d1 g' r (tri r)
                                      (Z.to_nat (r + 1)) 0)
                  (JS.range (Z.to_nat rows) 0)) =
    map Some (JS.range (Z.to_nat (tri rows)) 0)).
  { rewrite <- (Z2Nat.id rows) at 2 by exact Hrows.
    rewrite <- cells_tile_indices.
    rewrite !flat_map_concat_map, !concat_map, !map_map. f_equal.
    apply map_ext. intros r. unfold row_tiles. rewrite !map_map.
    apply map_ext. intros c. cbn. now rewrite Z.sub_0_r. }
  apply (f_equal (@length _)) in Hidx.
  rewrite !length_map, range_length in Hidx. rewrite Hidx.
  pose proof (tri_nonneg rows Hrows). lia.
Qed.

Lemma run_wedge_indices (cfg : Config) (m k n rows : Z) (g : Generator)
      (t : nat) :
  map (fun p => wedgeIndex (meta p))
      (polygons (gen (run_state cfg m k n rows g t))) =
  map Some
    (flat_map (fun x => repeat x (length (fst (generateWedge cfg m k n rows g))))
       (0 :: map fst (placements k n t 1
                        (removelast (fst (build_u_seq m k false)))))).
Proof.
  rewrite run_polygons. cbn [flat_map]. rewrite !map_app.
  f_equal; [apply generateWedge_wedgeIndex|].
  induction (placements k n t 1 (removelast (fst (build_u_seq m k false))))
    as [|ip pls IH]; [reflexivity|].
  cbn [flat_map map]. rewrite !map_app, IH. f_equal.
  apply placed_wedge_wedgeIndex.
Qed.

Lemma run_polygons_length (cfg : Config) (m k n rows : Z) (g : Generator)
      (t : nat) :
  length (polygons (gen (run_state cfg m k n rows g t))) =
  ((1 + length (placements k n t 1
                  (removelast (fst (build_u_seq m k false))))) *
   length (fst (generateWedge cfg m k n rows g)))%nat.
Proof.
  rewrite run_polygons, length_app.
  induction (placements k n t 1 (removelast (fst (build_u_seq m k false))))
    as [|ip pls IH]; cbn [flat_map length]; [lia|].
  rewrite length_app. unfold placed_wedge at 1. rewrite length_map. lia.
Qed.

(** ** Coprime parameters: every wedge is placed *)

(** For [m >= 0], [k > 0] coprime, whatever [n], [rows >= 0] and the mode:
    before the iteration of wedge [i] the front holds [i], so no wedge is
    skipped and [generateTiling] writes no warning; the polygons of the
    primary pass are the wedges [0, 1, ..., w] in this order, each with
    [rows (rows + 1) / 2] tiles, where [w] is the number of iterations;
    the offset mode doubles them. *)
Theorem coprime_all_wedges_placed (cfg : Config) (m k n rows : Z)
    (isOffset : bool) (g : Generator)
    (Hm : 0 <= m) (Hk : 0 < k) (Hcoprime : Z.gcd m k = 1)
    (Hrows : 0 <= rows) :
  let steps := wedge_iterations isOffset n in
  (forall t : nat,
     In (1 + Z.of_nat t) (front (run_state cfg m k n rows g t))) /\
  console (snd (generateTiling cfg m k n rows isOffset g)) =
    console g ++ parameter_errors k n /\
  map (fun p => wedgeIndex (meta p))
      (primary_polygons cfg m k n rows isOffset g) =
    map Some (flat_map (fun i => repeat i (Z.to_nat (tri rows)))
                       (JS.range (S steps) 0)) /\
  Z.of_nat (length (fst (generateTiling cfg m k n rows isOffset g))) =
    (if isOffset then 2 else 1) * (1 + Z.of_nat steps) * tri rows.
Proof.
  intros steps.
  pose proof (coprime_entry_window m k Hm Hk Hcoprime) as Hw.
  set (front0 := removelast (fst (build_u_seq m k false))) in *.
  pose proof (generateWedge_length cfg m k n rows g Hrows) as Hlen.
  assert (Hall : forall cnt, skipped k cnt 1 front0 = [] /\
                   map fst (placements k n cnt 1 front0) = JS.range cnt 1)
    by (intros cnt; apply window_all_placed; assumption).
  split.
  { intros t. rewrite run_front. fold front0.
    apply (window_front_after k t 1 front0 Hk Hw). lia. }
  split.
  { rewrite generateTiling_console. fold front0.
    rewrite (proj1 (Hall _)).
    destruct (length _ =? 0)%nat; cbn [map]; now rewrite !app_nil_r. }
  split.
  { rewrite primary_polygons_run, run_wedge_indices. fold front0.
    rewrite (proj2 (Hall _)). fold steps.
    replace (length (fst (generateWedge cfg m k n rows g)))
      with (Z.to_nat (tri rows)) by lia.
    reflexivity. }
  rewrite generateTiling_result, length_app. fold steps.
  rewrite run_polygons_length. fold front0.
  assert (Hpl : length (placements k n steps 1 front0) = steps).
  { pose proof (placements_skipped_length k n steps 1 front0) as H.
    rewrite (proj1 (Hall steps)) in H. cbn [length] in H. lia. }
  rewrite Hpl. destruct isOffset.
  - rewrite length_map, run_polygons_length. fold front0. rewrite Hpl. nia.
  - cbn [length]. nia.
Qed.

(** The theorem at [generateTiling(3, 7, 14, 2, true)]: wedge 4 is in the
    front when its turn comes, and 42 polygons are returned. *)
Lemma coprime_all_wedges_placed_witness :
  0 <= 3 /\ 0 < 7 /\ Z.gcd 3 7 = 1 /\ 0 <= 2 /\
  In 4 (front (run_state (TILING_CONFIG 3) 3 7 14 2 new_generator 3)) /\
  Z.of_nat (length (fst (generateTiling (TILING_CONFIG 3) 3 7 14 2 true
                           new_generator))) = 42.
Proof.
  pose proof (coprime_all_wedges_placed (TILING_CONFIG 3) 3 7 14 2 true
                new_generator ltac:(lia) ltac:(lia) eq_refl ltac:(lia)) as H.
  cbn zeta in H. destruct H as (Hin & _ & _ & Hlen).
  split; [lia|]. split; [lia|]. split; [reflexivity|]. split; [lia|].
  split; [exact (Hin 3%nat)|]. rewrite Hlen. reflexivity.
Defined.

(** ** Parameters with a common divisor: which wedges are skipped *)

Lemma placements_In (k n : Z) (cnt : nat) :
  forall (i : Z) (fr : list Z) (x : Z),
    In x (map fst (placements k n cnt i fr)) ->
    exists t : nat, (t < cnt)%nat /\ x = i + Z.of_nat t /\
                    In x (front_after k t i fr).
Proof.
  induction cnt as [|cnt IH]; intros i fr x; cbn [placements map];
    [intros []|].
  destruct (find_j_star fr i) as [j|] eqn:Hf.
  - cbn [map fst In]. intros [<-|Hin].
    + exists O. split; [lia|]. split; [lia|]. cbn [front_after].
      apply find_j_star_Some in Hf as [Hnth _].
      eapply nth_error_In; exact Hnth.
    + apply IH in Hin as (t & Ht & Hx & Hin). exists (S t).
      split; [lia|]. split; [lia|]. cbn [front_after]. now rewrite Hf.
  - intros Hin. apply IH in Hin as (t & Ht & Hx & Hin). exists (S t).
    split; [lia|]. split; [lia|]. cbn [front_after]. now rewrite Hf.
Qed.

Lemma divisible_front_after (d k : Z) (cnt : nat) :
  forall (i : Z) (fr : list Z),
    (d | k) -> Forall (Z.divide d) fr ->
    Forall (Z.divide d) (front_after k cnt i fr).
Proof.
  induction cnt as [|cnt IH]; intros i fr Hk Hfr; cbn [front_after];
    [exact Hfr|].
  destruct (find_j_star fr i) as [j|] eqn:Hf; [|apply IH; assumption].
  apply IH; [exact Hk|]. rewrite Forall_forall in *.
  intros x Hx. apply assign_In in Hx as [->|Hx]; [|apply Hfr, Hx].
  apply Z.divide_add_r; [|exact Hk]. apply Hfr.
  apply find_j_star_Some in Hf as [Hnth _]. eapply nth_error_In; exact Hnth.
Qed.

(** Every entry of the front at entry is a multiple of [gcd m k]. *)
Lemma divisible_entry_front (m k : Z) :
  Forall (Z.divide (Z.gcd m k)) (removelast (fst (build_u_seq m k false))).
Proof.
  pose proof (Z.gcd_divide_l m k) as Hdm.
  pose proof (Z.gcd_divide_r m k) as Hdk.
  destruct (Z.le_gt_cases k 0) as [Hle|Hgt].
  - unfold build_u_seq. replace (Z.to_nat (k - 1)) with O by lia.
    cbn. constructor; [exact Hdk|constructor].
  - rewrite build_u_seq_spec by lia. cbn [fst].
    match goal with
    | |- context [removelast (?a :: ?l ++ [0])] =>
        change (a :: l ++ [0]) with ((a :: l) ++ [0])
    end.
    rewrite removelast_last. constructor; [exact Hdk|].
    apply Forall_forall. intros x Hx.
    apply in_map_iff in Hx as (j & <- & _).
    rewrite Z.rem_eq by lia. apply Z.divide_sub_r.
    + apply Z.divide_mul_r. exact Hdm.
    + apply Z.divide_mul_l. exact Hdk.
Qed.

Lemma tri_pos (rows : Z) : 1 <= rows -> 1 <= tri rows.
Proof.
  intros H. unfold tri. apply Z.div_le_lower_bound; [lia|nia].
Qed.

(** A wedge [i] of the loop that is not a multiple of [gcd m k] is never
    found in the front: with at least one row, [generateTiling] writes the
    warning for [i] and returns no polygon of wedge [i].  (For coprime
    [m], [k] there is no such [i].) *)
Theorem common_divisor_wedges_skipped (cfg : Config) (m k n rows : Z)
    (isOffset : bool) (g : Generator) (i : Z)
    (Hrows : 1 <= rows)
    (Hi : 1 <= i <= Z.of_nat (wedge_iterations isOffset n))
    (Hnd : ~ (Z.gcd m k | i)) :
  ~ In i (front (run_state cfg m k n rows g (Z.to_nat (i - 1)))) /\
  In (DirectionNotFound i)
     (console (snd (generateTiling cfg m k n rows isOffset g))) /\
  forall p, In p (primary_polygons cfg m k n rows isOffset g) ->
            wedgeIndex (meta p) <> Some i.
Proof.
  set (front0 := removelast (fst (build_u_seq m k false))).
  assert (Hdiv : forall t, Forall (Z.divide (Z.gcd m k))
                             (front_after k t 1 front0)).
  { intros t. apply divisible_front_after.
    - apply Z.gcd_divide_r.
    - apply divisible_entry_front. }
  assert (Hnot : forall t, ~ In i (front_after k t 1 front0)).
  { intros t Hin. apply Hnd. specialize (Hdiv t).
    rewrite Forall_forall in Hdiv. apply Hdiv, Hin. }
  split; [rewrite run_front; apply Hnot|]. split.
  - rewrite generateTiling_console. fold front0.
    pose proof (generateWedge_length cfg m k n rows g ltac:(lia)) as Hlen.
    pose proof (tri_pos rows Hrows) as Hpos.
    destruct (length (fst (generateWedge cfg m k n rows g))) as [|len] eqn:Hl;
      [lia|].
    cbn [Nat.eqb]. apply in_or_app. right. apply in_or_app. right.
    apply in_map. apply skipped_In. exists (Z.to_nat (i - 1)).
    split; [lia|]. split; [lia|]. apply Hnot.
  - intros p Hp Hw. rewrite primary_polygons_run in Hp.
    apply (in_map (fun p => wedgeIndex (meta p))) in Hp.
    rewrite run_wedge_indices, Hw in Hp. fold front0 in Hp.
    apply in_map_iff in Hp as (x & Hx & Hin). injection Hx as ->.
    apply in_flat_map in Hin as (y & Hy & Hrep).
    apply repeat_spec in Hrep. subst y. destruct Hy as [H0|Hy]; [lia|].
    apply placements_In in Hy as (t & _ & _ & Hin).
    exact (Hnot t Hin).
Qed.

(** The theorem at [generateTiling(2, 4, 8, 1, false)] and wedge 3. *)
Lemma common_divisor_wedges_skipped_witness :
  1 <= 1 /\ 1 <= 3 <= Z.of_nat (wedge_iterations false 8) /\
  ~ (Z.gcd 2 4 | 3) /\
  In (DirectionNotFound 3)
     (console (snd (generateTiling (TILING_CONFIG 3) 2 4 8 1 false
                      new_generator))).
Proof.
  assert (Hi : 1 <= 3 <= Z.of_nat (wedge_iterations false 8))
    by (vm_compute; split; discriminate).
  assert (Hnd : ~ (Z.gcd 2 4 | 3)).
  { intros [q Hq]. cbn in Hq. lia. }
  split; [lia|]. split; [exact Hi|]. split; [exact Hnd|].
  exact (proj1 (proj2 (common_divisor_wedges_skipped (TILING_CONFIG 3) 2 4 8 1
                         false new_generator 3 ltac:(lia) Hi Hnd))).
Defined.

(** ** The edges of the tiles *)

Lemma consecutive_snoc {A : Type} (P : A -> A -> Prop) (l : list A) (x d : A) :
  consecutive P (l ++ [x]) <->
  consecutive P l /\ (l <> [] -> P (last l d) x).
Proof.
  induction l as [|a tl IH]; cbn [app consecutive].
  - split; [intros _; split; [exact I|congruence]|intros _; split; exact I].
  - destruct tl as [|b tl].
    + cbn. split.
      * intros [H _]. split; [split; exact I|intros _; exact H].
      * intros [_ H]. split; [apply H; discriminate|split; exact I].
    + change ((b :: tl) ++ [x]) with (b :: (tl ++ [x])) in *.
      change (last (a :: b :: tl) d) with (last (b :: tl) d).
      rewrite IH. split.
      * intros (H1 & H2 & H3). split; [split; assumption|].
        intros _. apply H3. discriminate.
      * intros ((H1 & H2) & H3). split; [exact H1|]. split; [exact H2|].
        intros _. apply H3. discriminate.
Qed.

Lemma consecutive_map {A B : Type} (P : A -> A -> Prop) (Q : B -> B -> Prop)
      (f : A -> B) (l : list A) :
  (forall a b, P a b -> Q (f a) (f b)) ->
  consecutive P l -> consecutive Q (map f l).
Proof.
  intros Hf. induction l as [|a tl IH]; cbn [map consecutive]; [trivial|].
  intros [H1 H2]. split; [|apply IH, H2].
  destruct tl as [|b tl]; cbn [map]; [exact I|apply Hf, H1].
Qed.

Lemma consecutive_impl {A : Type} (P Q : A -> A -> Prop) (l : list A) :
  (forall a b, P a b -> Q a b) -> consecutive P l -> consecutive Q l.
Proof.
  intros H Hl. rewrite <- (map_id l).
  apply (consecutive_map P Q (fun a => a)); assumption.
Qed.

Open Scope R_scope.

Lemma getVector_norm (n d : Z) :
  px (getVector n d) * px (getVector n d) +
  py (getVector n d) * py (getVector n d) = 100 * 100.
Proof.
  unfold getVector. cbn [px py].
  set (a := IZR d * 2 * PI / IZR n).
  pose proof (sin2_cos2 a) as H. unfold Rsqr in H. nra.
Qed.

Lemma lattice_edge_unit (n : Z) (p q : Point) :
  lattice_edge n p q -> unit_edge p q.
Proof.
  intros (d & [[Hx Hy]|[Hx Hy]]); unfold unit_edge; rewrite Hx, Hy;
    pose proof (getVector_norm n d); nra.
Qed.

(** Rotation by [i] steps of [2 PI / n] turns direction [d] into direction
    [d + i]. *)
Lemma getVector_rotate (n d i : Z) :
  let theta := IZR i * unit_angle n in
  px (getVector n d) * cos theta - py (getVector n d) * sin theta =
    px (getVector n (d + i)) /\
  px (getVector n d) * sin theta + py (getVector n d) * cos theta =
    py (getVector n (d + i)).
Proof.
  intros theta. unfold getVector. cbn [px py].
  replace (IZR (d + i) * 2 * PI / IZR n)
    with (IZR d * 2 * PI / IZR n + theta)
    by (unfold theta, unit_angle; rewrite plus_IZR; unfold Rdiv; ring).
  rewrite cos_plus, sin_plus. split; ring.
Qed.

Lemma lattice_edge_shift (n : Z) (sx sy : R) (p q : Point) :
  lattice_edge n p q ->
  lattice_edge n (mkPoint (px p + sx) (py p + sy))
                 (mkPoint (px q + sx) (py q + sy)).
Proof.
  intros (d & [[Hx Hy]|[Hx Hy]]); exists d; [left|right]; cbn [px py];
    split; lra.
Qed.

Lemma lattice_edge_transform (n i : Z) (ox oy : R) (p q : Point) :
  let theta := IZR i * unit_angle n in
  let f := fun pt => mkPoint ((px pt * cos theta - py pt * sin theta) + ox)
                             ((px pt * sin theta + py pt * cos theta) + oy) in
  lattice_edge n p q -> lattice_edge n (f p) (f q).
Proof.
  intros theta f (d & Hd). exists (d + i)%Z.
  destruct (getVector_rotate n d i) as [Hrx Hry]. fold theta in Hrx, Hry.
  unfold f. cbn [px py].
  destruct Hd as [[Hx Hy]|[Hx Hy]]; [left|right];
    rewrite <- Hrx, <- Hry;
    set (c := cos theta) in *; set (s := sin theta) in *;
    set (vx := px (getVector n d)) in *; set (vy := py (getVector n d)) in *;
    split; nra.
Qed.

Lemma lattice_edge_reflect (n : Z) (pv p q : Point) :
  lattice_edge n p q ->
  lattice_edge n (mkPoint (2 * px pv - px p) (2 * py pv - py p))
                 (mkPoint (2 * px pv - px q) (2 * py pv - py q)).
Proof.
  intros (d & [[Hx Hy]|[Hx Hy]]); exists d; [right|left]; cbn [px py];
    split; lra.
Qed.

Lemma walk_forward_edges (n : Z) (ds : list Z) :
  forall current pth,
    pth <> [] -> last pth origin = current ->
    consecutive (lattice_edge n) pth ->
    consecutive (lattice_edge n) (snd (walk_forward n ds current pth)).
Proof.
  induction ds as [|d ds IH]; intros current pth Hne Hl Hc;
    cbn [walk_forward]; [exact Hc|].
  apply IH.
  - destruct pth; discriminate.
  - apply last_last.
  - apply (consecutive_snoc _ _ _ origin). split; [exact Hc|].
    intros _. rewrite Hl. exists d. left. cbn [px py]. split; lra.
Qed.

Lemma walk_backward_edges (n : Z) (ds : list Z) :
  forall current pth,
    pth <> [] -> last pth origin = current ->
    consecutive (lattice_edge n) pth ->
    consecutive (lattice_edge n) (snd (walk_backward n ds current pth)).
Proof.
  induction ds as [|d ds IH]; intros current pth Hne Hl Hc;
    cbn [walk_backward]; [exact Hc|].
  apply IH.
  - destruct pth; discriminate.
  - apply last_last.
  - apply (consecutive_snoc _ _ _ origin). split; [exact Hc|].
    intros _. rewrite Hl. exists d. right. cbn [px py]. split; lra.
Qed.

Open Scope Z_scope.

Lemma prototile_edges (m k n : Z) :
  consecutive (lattice_edge n) (path (prototile m k n)).
Proof.
  rewrite prototile_path.
  set (L := fst (fst (boundary_sequences m k))).
  set (U := snd (fst (boundary_sequences m k))).
  pose proof (walk_forward_last n L origin [origin] eq_refl) as Hl.
  pose proof (walk_forward_length n L origin [origin]) as Hlen.
  pose proof (walk_forward_edges n L origin [origin] ltac:(discriminate)
                eq_refl ltac:(cbn; tauto)) as He.
  destruct (walk_forward n L origin [origin]) as [c1 p1].
  cbn [fst snd] in *.
  apply walk_backward_edges; [|exact Hl|exact He].
  intros ->. cbn in Hlen. lia.
Qed.

(** Every polygon of a wedge is the prototile moved by a map that keeps
    lattice edges. *)
Lemma wedge_polygon_paths (cfg : Config) (m k n rows : Z) (g : Generator)
      (p : Polygon) :
  In p (fst (generateWedge cfg m k n rows g)) ->
  exists f, edge_preserving n f /\ path p = map f (path (prototile m k n)).
Proof.
  intros Hin. pose proof (generateWedge_tiles cfg m k n rows g) as Hall.
  rewrite Forall_forall in Hall.
  destruct (Hall p Hin) as (d0 & d1 & r & c & t & ->).
  eexists. split; [|reflexivity].
  intros a b Hab. apply lattice_edge_shift. exact Hab.
Qed.

Lemma run_polygon_paths (cfg : Config) (m k n rows : Z) (g : Generator)
      (t : nat) (p : Polygon) :
  In p (polygons (gen (run_state cfg m k n rows g t))) ->
  exists f, edge_preserving n f /\ path p = map f (path (prototile m k n)).
Proof.
  rewrite run_polygons. intros Hin. apply in_app_or in Hin as [Hin|Hin].
  - eapply wedge_polygon_paths. exact Hin.
  - apply in_flat_map in Hin as (ip & _ & Hin). unfold placed_wedge in Hin.
    apply in_map_iff in Hin as (q & <- & Hq).
    destruct (wedge_polygon_paths cfg m k n rows g q Hq) as (f & Hf & Hpath).
    cbn [transformed_tile path]. rewrite Hpath, map_map.
    eexists. split; [|reflexivity].
    intros a b Hab. apply lattice_edge_transform. apply Hf. exact Hab.
Qed.

Lemma tiling_polygon_paths (cfg : Config) (m k n rows : Z) (isOffset : bool)
      (g : Generator) (p : Polygon) :
  In p (fst (generateTiling cfg m k n rows isOffset g)) ->
  exists f, edge_preserving n f /\ path p = map f (path (prototile m k n)).
Proof.
  rewrite generateTiling_result. intros Hin.
  apply in_app_or in Hin as [Hin|Hin].
  - eapply run_polygon_paths. exact Hin.
  - destruct isOffset; [|destruct Hin].
    apply in_map_iff in Hin as (q & <- & Hq).
    destruct (run_polygon_paths cfg m k n rows g _ q Hq) as (f & Hf & Hpath).
    cbn [reflected_tile path]. rewrite Hpath, map_map.
    eexists. split; [|reflexivity].
    intros a b Hab. apply lattice_edge_reflect. apply Hf. exact Hab.
Qed.

(** For [n <> 0], in the polygons that the three methods return, every
    step from a path point to the next is a direction vector of [n], forward or backward (a
    rotation by [i] steps maps direction [d] to [d + i]); in particular
    every such edge has the unit length 100: the tiles are never scaled or
    sheared. *)
Theorem tile_edges_are_unit_directions (cfg : Config) (m k n rows : Z)
    (isOffset : bool) (g : Generator) (Hn : n <> 0) :
  let ok := fun p => consecutive (lattice_edge n) (path p) /\
                     consecutive unit_edge (path p) in
  Forall ok (fst (generatePrototile m k n g)) /\
  Forall ok (fst (generateWedge cfg m k n rows g)) /\
  Forall ok (fst (generateTiling cfg m k n rows isOffset g)).
Proof.
  intros ok.
  assert (Hok : forall p f, edge_preserving n f ->
                  path p = map f (path (prototile m k n)) -> ok p).
  { intros p f Hf Hpath.
    assert (H : consecutive (lattice_edge n) (path p)).
    { rewrite Hpath.
      apply (consecutive_map (lattice_edge n) (lattice_edge n) f);
        [exact Hf|apply prototile_edges]. }
    split; [exact H|].
    eapply consecutive_impl; [|exact H]. apply lattice_edge_unit. }
  split.
  { rewrite generatePrototile_result. constructor; [|constructor].
    apply (Hok _ (fun a => a)); [intros a b H; exact H|].
    now rewrite map_id. }
  split; apply Forall_forall; intros p Hin.
  - destruct (wedge_polygon_paths cfg m k n rows g p Hin) as (f & Hf & Hp).
    exact (Hok p f Hf Hp).
  - destruct (tiling_polygon_paths cfg m k n rows isOffset g p Hin)
      as (f & Hf & Hp).
    exact (Hok p f Hf Hp).
Qed.

(** The theorem at [generateTiling(3, 7, 14, 2, true)]. *)
Lemma tile_edges_are_unit_directions_witness :
  14 <> 0 /\
  Forall (fun p => consecutive unit_edge (path p))
         (fst (generateTiling (TILING_CONFIG 3) 3 7 14 2 true new_generator)).
Proof.
  split; [lia|].
  pose proof (tile_edges_are_unit_directions (TILING_CONFIG 3) 3 7 14 2 true
                new_generator ltac:(lia)) as H.
  cbn zeta in H. destruct H as (_ & _ & Hall).
  eapply Forall_impl; [|exact Hall]. cbn beta. intros p [_ Hu]. exact Hu.
Defined.

(** ** Closed tiles *)






(** ** The closure error *)

Lemma getVector_0 (n : Z) : getVector n 0 = mkPoint 100 0.
Proof.
  unfold getVector.
  replace (IZR 0 * 2 * PI / IZR n)%R with 0%R by (unfold Rdiv; ring).
  rewrite cos_0, sin_0. f_equal; ring.
Qed.

Lemma hypot_100 : hypot (-100) 0 = 100%R.
Proof.
  unfold hypot. replace (-100 * -100 + 0 * 0)%R with (100 * 100)%R by ring.
  apply sqrt_square. lra.
Qed.

(** For [n <> 0], the closure error that [generatePrototile] reports is [0]
    for every [k > 0], whatever [m] (short period and [n < k] included), so
    the check cannot tell these cases apart; for [k <= 0] the path is the
    four points of [L = [k]] and [U = [k; 0]], it ends at [(-100, 0)] and
    the error is [100]. *)
Theorem closure_error_values (m k n : Z) (g : Generator) (Hn : n <> 0) :
  exists poly,
    fst (generatePrototile m k n g) = [poly] /\
    (0 < k -> closureError (meta poly) = Some 0%R /\
              last (path poly) origin = origin) /\
    (k <= 0 -> closureError (meta poly) = Some 100%R /\
               length (path poly) = 4%nat /\
               last (path poly) origin = mkPoint (-100) 0).
Proof.
  exists (prototile m k n). split; [apply generatePrototile_result|].
  split.
  - intros Hk. destruct (prototile_closed m k n Hk) as (Hl & _ & Hc).
    split; assumption.
  - intros Hk. unfold prototile, generatePrototile, build_l_seq, build_u_seq.
    replace (Z.to_nat k) with O by lia.
    replace (Z.to_nat (k - 1)) with O by lia.
    cbn [l_seq_loop u_seq_loop app rev walk_forward walk_backward].
    rewrite getVector_0. cbn [px py origin].
    set (vx := px (getVector n k)). set (vy := py (getVector n k)).
    replace (0 + vx - 100 - vx)%R with (-100)%R by ring.
    replace (0 + vy - 0 - vy)%R with 0%R by ring.
    destruct (n <? k); cbn; rewrite hypot_100; repeat split.
Qed.

(** The theorem at [generatePrototile(2, 4, 3)] (short period, [n < k]) and
    at [generatePrototile(1, 0, 5)]. *)
Lemma closure_error_values_witness :
  (3 <> 0 /\ 0 < 4 /\
   exists poly, fst (generatePrototile 2 4 3 new_generator) = [poly] /\
                closureError (meta poly) = Some 0%R) /\
  (5 <> 0 /\ 0 <= 0 /\
   exists poly, fst (generatePrototile 1 0 5 new_generator) = [poly] /\
                closureError (meta poly) = Some 100%R).
Proof.
  split.
  - split; [lia|]. split; [lia|].
    destruct (closure_error_values 2 4 3 new_generator ltac:(lia))
      as (poly & Hres & Hpos & _).
    exists poly. split; [exact Hres|]. apply Hpos. lia.
  - split; [lia|]. split; [lia|].
    destruct (closure_error_values 1 0 5 new_generator ltac:(lia))
      as (poly & Hres & _ & Hneg).
    exists poly. split; [exact Hres|]. apply Hneg. lia.
Defined.

(** ** The palette *)

Lemma palette_loop_spec (type : string) (count : Z) (cnt : nat) :
  forall (i : Z) (acc : list Color),
    palette_loop cnt type count i acc =
    acc ++ map (palette_entry type count) (JS.range cnt i).
Proof.
  induction cnt as [|cnt IH]; intros i acc; cbn [palette_loop JS.range map].
  - now rewrite app_nil_r.
  - rewrite IH, <- app_assoc. reflexivity.
Qed.

Lemma range_nth (cnt : nat) (lo : Z) (i : nat) :
  (i < cnt)%nat -> nth_error (JS.range cnt lo) i = Some (lo + Z.of_nat i).
Proof.
  revert lo i. induction cnt as [|cnt IH]; intros lo i Hi; [lia|].
  destruct i as [|i]; cbn [JS.range nth_error].
  - f_equal. lia.
  - rewrite IH by lia. f_equal. lia.
Qed.

Lemma palette_entry_shape (type : string) (count i : Z) :
  0 <= i < count ->
  exists h s l,
    palette_entry type count i = Hsla h s l /\
    0 <= h < 360 /\ 0 <= s <= 100 /\ 25 <= l <= 80.
Proof.
  intros Hi. unfold palette_entry. destruct (String.eqb type "gray").
  - eexists _, _, _. split; [reflexivity|]. split; [lia|]. split; [lia|].
    destruct (1 <? count) eqn:Hc; [|lia]. apply Z.ltb_lt in Hc.
    assert (0 <= 55 * i / (count - 1)) by (apply Z.div_pos; lia).
    assert (55 * i / (count - 1) <= 55).
    { apply Z.div_le_upper_bound; nia. }
    lia.
  - eexists _, _, _. split; [reflexivity|]. split; [|lia].
    split; [apply Z.div_pos; lia|].
    apply Z.div_lt_upper_bound; nia.
Qed.



(** ** The colours of the tiles *)

Lemma generateWedge_tiles_range (cfg : Config) (m k n rows : Z)
      (g : Generator) :
  Forall (fun p => exists d0 d1 r c t,
            0 <= c <= r /\
            p = wedge_tile cfg (tiling_env cfg m k n (paletteType g))
                           (path (prototile m k n)) d0 d1 r c t)
         (fst (generateWedge cfg m k n rows g)).
Proof.
  unfold generateWedge.
  pose proof (generatePrototile_result m k n (set_currentParams (m, k, n) g))
    as Hres.
  pose proof (generatePrototile_state m k n (set_currentParams (m, k, n) g))
    as Hst.
  destruct (generatePrototile m k n (set_currentParams (m, k, n) g))
    as [basePolygons g1].
  cbn [fst snd] in *. subst basePolygons g1.
  pose proof (prototile_path_nonempty m k n) as Hne.
  destruct (path (prototile m k n)) as [|p0 rest] eqn:Hpath; [congruence|].
  cbn [length Nat.eqb].
  destruct (l_seq_loop (Z.to_nat k) m k 0 [] false) as [acc s].
  match goal with
  | |- context [wedge_rows ?c ?cf ?bp ?a ?b 0 0 ?gg] =>
      change (wedge_rows c cf bp a b 0 0 gg)
        with (wedge_rows c cf bp a b 0 (tri 0) gg);
      rewrite (wedge_rows_spec cf bp a b c 0 gg) by lia
  end.
  cbn [fst snd polygons set_polygons generatePalette app].
  apply Forall_forall. intros p Hin.
  apply in_flat_map in Hin as (r & Hr%range_In & Hin). unfold row_tiles in Hin.
  apply in_map_iff in Hin as (c & <- & Hc%range_In).
  eexists _, _, r, c, _. split; [lia|]. apply wedge_tile_env; reflexivity.
Qed.

Lemma color_index_in_range (count r c w : Z) (g : Generator) :
  0 < count -> 0 <= r -> 0 <= c -> 0 <= w ->
  exists v, getColorIndex (TILING_CONFIG count) g r c w = Some v /\
            0 <= v < count.
Proof.
  intros Hcount Hr Hc Hw. unfold getColorIndex.
  destruct (currentParams g) as [[m k] n].
  destruct ((m =? 0) || (k =? 0) || (n =? 0)).
  - exists (w mod count). split; [apply js_rem_nonneg; lia|].
    apply Z.mod_pos_bound; lia.
  - cbn [colorCount wedges TILING_CONFIG].
    rewrite color_index_of_rule; try assumption.
    + eexists. split; [reflexivity|]. apply Z.mod_pos_bound; lia.
    + intros s Hs. exact (default_wedges_startColor count m k n w s Hs).
Qed.

Lemma env_palette_color (cfg : Config) (m k n : Z) (type : string) (v : Z) :
  0 <= v < colorCount cfg ->
  palette_color (tiling_env cfg m k n type) (Some v) =
  palette_entry type (colorCount cfg) v.
Proof.
  intros Hv. unfold palette_color, tiling_env. cbn [palette].
  rewrite palette_loop_spec. cbn [app]. unfold JS.index.
  replace (v <? 0) with false by (symmetry; apply Z.ltb_ge; lia).
  rewrite nth_error_map, range_nth by lia. cbn. f_equal. lia.
Qed.

Lemma env_palette_empty (cfg : Config) (m k n : Z) (type : string)
      (idx : option Z) :
  colorCount cfg <= 0 ->
  palette_color (tiling_env cfg m k n type) idx = ColorUndefined.
Proof.
  intros Hc. unfold palette_color, tiling_env. cbn [palette].
  replace (Z.to_nat (colorCount cfg)) with O by lia. cbn [palette_loop].
  destruct idx as [i|]; [|reflexivity].
  unfold JS.index. destruct (i <? 0); [reflexivity|].
  now destruct (Z.to_nat i).
Qed.

(** With the declared [TILING_CONFIG] and [colorCount = count]: when
    [count > 0] every tile that [generateWedge] and [generateTiling] return
    is filled with an entry of the palette of the generator's palette type,
    never with [undefined]; when [count <= 0] the palette is empty and the
    colour of every tile is [undefined]. *)
Theorem tile_colours_defined (count m k n rows : Z) (isOffset : bool)
    (g : Generator) :
  let cfg := TILING_CONFIG count in
  let wedge := fst (generateWedge cfg m k n rows g) in
  let tiling := fst (generateTiling cfg m k n rows isOffset g) in
  let from_palette := fun p =>
    exists idx, 0 <= idx < count /\
                color p = palette_entry (paletteType g) count idx /\
                color p <> ColorUndefined in
  (0 < count -> Forall from_palette wedge /\ Forall from_palette tiling) /\
  (count <= 0 ->
   Forall (fun p => color p = ColorUndefined) wedge /\
   Forall (fun p => color p = ColorUndefined) tiling).
Proof.
  intros cfg wedge tiling from_palette.
  set (env := tiling_env cfg m k n (paletteType g)).
  pose proof (generateWedge_tiles_range cfg m k n rows g) as Htiles.
  fold wedge env in Htiles. rewrite Forall_forall in Htiles.
  assert (Hshape : forall p, In p tiling ->
            (exists q, In q wedge /\ color p = color q) \/
            (exists q i ox oy, In q wedge /\ 0 <= i /\
               color p = color (transformed_tile cfg env n ox oy i q))).
  { intros p Hin. unfold tiling in Hin. rewrite generateTiling_result in Hin.
    assert (Hrun : forall p,
              In p (polygons (gen (run_state cfg m k n rows g
                                     (wedge_iterations isOffset n)))) ->
              (exists q, In q wedge /\ color p = color q) \/
              (exists q i ox oy, In q wedge /\ 0 <= i /\
                 color p = color (transformed_tile cfg env n ox oy i q))).
    { intros p' Hp'. rewrite run_polygons in Hp'.
      apply in_app_or in Hp' as [Hp'|Hp'].
      - left. exists p'. split; [exact Hp'|reflexivity].
      - right. apply in_flat_map in Hp' as (ip & Hip & Hp').
        unfold placed_wedge in Hp'.
        apply in_map_iff in Hp' as (q & <- & Hq).
        exists q, (fst ip), (px (snd ip)), (py (snd ip)).
        split; [exact Hq|]. split; [|reflexivity].
        destruct (placements_sorted k n (wedge_iterations isOffset n) 1
                    (removelast (fst (build_u_seq m k false)))) as [_ Hge].
        rewrite Forall_forall in Hge.
        specialize (Hge (fst ip) (in_map fst _ _ Hip)). lia. }
    apply in_app_or in Hin as [Hin|Hin]; [apply Hrun, Hin|].
    destruct isOffset; [|destruct Hin].
    apply in_map_iff in Hin as (q & <- & Hq). cbn [reflected_tile color].
    apply Hrun, Hq. }
  split.
  - intros Hcount.
    assert (Hent : forall v, 0 <= v < count ->
              from_palette (mkPolygon [] (palette_entry (paletteType g)
                                            count v) "" empty_meta)).
    { intros v Hv. exists v. split; [exact Hv|]. split; [reflexivity|].
      cbn [color]. destruct (palette_entry_shape (paletteType g) count v Hv)
        as (h & s & l & -> & _). discriminate. }
    assert (Hcol : forall c0 p, color p = c0 ->
              from_palette (mkPolygon [] c0 "" empty_meta) -> from_palette p).
    { intros c0 p <- (idx & Hi & He & Hn). exists idx.
      split; [exact Hi|]. split; [exact He|exact Hn]. }
    assert (Hwedge : forall q, In q wedge -> from_palette q).
    { intros q Hq. destruct (Htiles q Hq) as (d0 & d1 & r & c & t & Hrc & ->).
      destruct (color_index_in_range count r c 0 env Hcount)
        as (v & Hv & Hrange); try lia.
      apply (Hcol (palette_entry (paletteType g) count v)); [|apply Hent, Hrange].
      change (TILING_CONFIG count) with cfg in Hv.
      cbn [wedge_tile color]. rewrite Hv. unfold env.
      apply (env_palette_color cfg m k n (paletteType g) v Hrange). }
    split; apply Forall_forall; [exact Hwedge|].
    intros p Hin. destruct (Hshape p Hin) as [(q & Hq & Hc)|(q & i & ox & oy & Hq & Hi & Hc)].
    + destruct (Hwedge q Hq) as (idx & H1 & H2 & H3). exists idx.
      rewrite Hc. split; [exact H1|]. split; [exact H2|exact H3].
    + destruct (Htiles q Hq) as (d0 & d1 & r & c & t & Hrc & ->).
      cbn [transformed_tile wedge_tile color meta meta_r meta_c] in Hc.
      destruct (color_index_in_range count r c i env Hcount)
        as (v & Hv & Hrange); try lia.
      change (TILING_CONFIG count) with cfg in Hv. rewrite Hv in Hc.
      unfold env in Hc.
      rewrite (env_palette_color cfg m k n (paletteType g) v Hrange) in Hc.
      apply (Hcol _ p Hc). apply Hent, Hrange.
  - intros Hcount.
    assert (Hwedge : forall q, In q wedge -> color q = ColorUndefined).
    { intros q Hq. destruct (Htiles q Hq) as (d0 & d1 & r & c & t & Hrc & ->).
      cbn [wedge_tile color]. apply env_palette_empty. exact Hcount. }
    split; apply Forall_forall; [exact Hwedge|].
    intros p Hin. destruct (Hshape p Hin) as [(q & Hq & Hc)|(q & i & ox & oy & Hq & Hi & Hc)].
    + rewrite Hc. apply Hwedge, Hq.
    + rewrite Hc. cbn [transformed_tile color]. apply env_palette_empty.
      exact Hcount.
Qed.

(** The theorem at [generateTiling(3, 7, 14, 2, true)] with three
    colours. *)
Lemma tile_colours_defined_witness :
  0 < 3 /\
  Forall (fun p => color p <> ColorUndefined)
         (fst (generateTiling (TILING_CONFIG 3) 3 7 14 2 true new_generator)).
Proof.
  split; [lia|].
  pose proof (tile_colours_defined 3 3 7 14 2 true new_generator) as H.
  cbn zeta in H. destruct H as [Hpos _].
  destruct (Hpos ltac:(lia)) as [_ Hall].
  eapply Forall_impl; [|exact Hall]. cbn beta.
  intros p (idx & _ & _ & Hne). exact Hne.
Defined.

(** ** Colour stripes *)

Lemma spec_color_index_closed (count r c : Z) (rv : bool) (sc : Z) :
  0 < count ->
  spec_color_index count r c rv sc =
  (if rv then sc - (r + c) else sc + (r + c)) mod count.
Proof.
  intros Hc. unfold spec_color_index, spec_base_index. destruct rv.
  - rewrite Z.add_mod_idemp_l by lia.
    rewrite <- (Z.mod_add (sc - (r + c)) ((r + c) / count + 1) count) by lia.
    f_equal. pose proof (Z.div_mod (r + c) count ltac:(lia)). lia.
  - rewrite Z.add_mod_idemp_l by lia. f_equal. lia.
Qed.

Lemma mod_eq_difference (count x y : Z) :
  0 < count -> x mod count = y mod count -> exists q, x - y = q * count.
Proof.
  intros Hc H. exists (x / count - y / count).
  pose proof (Z.div_mod x count ltac:(lia)).
  pose proof (Z.div_mod y count ltac:(lia)). nia.
Qed.

(** The index of a tile when the current parameters are set, in closed
    form: the rule of the wedge gives the direction and the start. *)
Lemma getColorIndex_closed (count w m k n : Z) (g : Generator) :
  0 < count -> 0 <= w ->
  currentParams g = (m, k, n) -> m <> 0 -> k <> 0 -> n <> 0 ->
  exists (rv : bool) (sc : Z),
    forall r c, 0 <= r -> 0 <= c ->
      getColorIndex (TILING_CONFIG count) g r c w =
      Some ((if rv then sc - (r + c) else sc + (r + c)) mod count).
Proof.
  intros Hcount Hw Hp Hm Hk Hn.
  set (rule := find_wedge_config default_wedges count m k n w).
  exists (match reverse rule with
          | Some b => b | None => negb (Z.rem w 2 =? 0) end),
         (match startColor rule with
          | Some s => s | None => w mod count end).
  intros r c Hr Hc. unfold getColorIndex. rewrite Hp.
  replace (m =? 0) with false by (symmetry; apply Z.eqb_neq; exact Hm).
  replace (k =? 0) with false by (symmetry; apply Z.eqb_neq; exact Hk).
  replace (n =? 0) with false by (symmetry; apply Z.eqb_neq; exact Hn).
  cbn [orb colorCount wedges TILING_CONFIG]. fold rule.
  rewrite color_index_of_rule; try assumption.
  - now rewrite spec_color_index_closed.
  - intros s Hs. exact (default_wedges_startColor count m k n w s Hs).
Qed.

(** With at least two colours, the declared configuration and the current
    parameters set: inside a wedge the colour index depends on [r + c]
    only, and it changes with every step to the next column or the next
    row, so tiles that are neighbours in a row or a column of the wedge
    never share a colour. *)
Theorem neighbour_colours_differ (count r c w m k n : Z) (g : Generator)
    (Hcount : 2 <= count) (Hr : 0 <= r) (Hc : 0 <= c) (Hw : 0 <= w)
    (Hparams : currentParams g = (m, k, n))
    (Hm : m <> 0) (Hk : k <> 0) (Hn : n <> 0) :
  let idx := getColorIndex (TILING_CONFIG count) g in
  idx r (c + 1) w <> idx r c w /\
  idx (r + 1) c w <> idx r c w /\
  (forall r' c', 0 <= r' -> 0 <= c' -> r' + c' = r + c ->
                 idx r' c' w = idx r c w).
Proof.
  intros idx. unfold idx.
  destruct (getColorIndex_closed count w m k n g ltac:(lia) Hw Hparams
              Hm Hk Hn) as (rv & sc & Hidx).
  assert (Hstep : forall r1 c1, 0 <= r1 -> 0 <= c1 ->
            r1 + c1 = r + c + 1 ->
            getColorIndex (TILING_CONFIG count) g r1 c1 w <>
            getColorIndex (TILING_CONFIG count) g r c w).
  { intros r1 c1 Hr1 Hc1 Hsum. rewrite !Hidx by assumption. rewrite Hsum.
    intros Heq. assert (Heq' := f_equal (fun o => match o with
                                          | Some v => v | None => 0 end) Heq).
    cbn beta iota in Heq'. clear Heq.
    destruct rv; apply mod_eq_difference in Heq' as [q Hq]; try lia;
      assert (Hq' : q <= -1 \/ q = 0 \/ 1 <= q) by lia;
      destruct Hq' as [|[|]]; nia. }
  split; [apply Hstep; lia|]. split; [apply Hstep; lia|].
  intros r' c' Hr' Hc' Hsum. rewrite !Hidx by assumption. now rewrite Hsum.
Qed.

(** The theorem at wedge 1 of [(3, 7, 14)] with three colours. *)
Lemma neighbour_colours_differ_witness :
  let g := set_currentParams (3, 7, 14) new_generator in
  2 <= 3 /\ 0 <= 2 /\ 0 <= 1 /\ 0 <= 1 /\
  currentParams g = (3, 7, 14) /\ 3 <> 0 /\ 7 <> 0 /\ 14 <> 0 /\
  getColorIndex (TILING_CONFIG 3) g 2 (1 + 1) 1 <>
  getColorIndex (TILING_CONFIG 3) g 2 1 1.
Proof.
  intros g.
  split; [lia|]. split; [lia|]. split; [lia|]. split; [lia|].
  split; [reflexivity|]. split; [lia|]. split; [lia|]. split; [lia|].
  exact (proj1 (neighbour_colours_differ 3 2 1 1 3 7 14 g ltac:(lia)
                  ltac:(lia) ltac:(lia) ltac:(lia) eq_refl ltac:(lia)
                  ltac:(lia) ltac:(lia))).
Defined.

(** * Properties of the parameter update *)

Lemma gcd_rec_spec (fuel : nat) :
  forall a b : Z,
    (Z.abs_nat b < fuel)%nat ->
    exists r, gcd_rec fuel a b = Some r /\
              Z.abs r = Z.gcd a b /\
              (0 <= a -> 0 <= b -> 0 <= r).
Proof.
  induction fuel as [|fuel IH]; intros a b Hb; [lia|].
  cbn [gcd_rec]. destruct (b =? 0) eqn:Hz.
  - apply Z.eqb_eq in Hz. subst b. exists a.
    split; [reflexivity|]. split; [now rewrite Z.gcd_0_r|]. intros; assumption.
  - apply Z.eqb_neq in Hz.
    pose proof (Z.rem_bound_abs a b Hz) as Hrem.
    destruct (IH b (Z.rem a b) ltac:(lia)) as (r & Hr & Habs & Hnn).
    exists r. split; [exact Hr|]. split.
    + rewrite Habs, Z.gcd_comm, Z.gcd_rem by exact Hz. apply Z.gcd_comm.
    + intros Ha Hb'. apply Hnn; [exact Hb'|]. apply Z.rem_nonneg; assumption.
Qed.

Lemma gcd_rec_nonneg (fuel : nat) (a b : Z) :
  0 <= a -> 0 <= b -> (Z.to_nat b < fuel)%nat ->
  gcd_rec fuel a b = Some (Z.gcd a b).
Proof.
  intros Ha Hb Hf.
  destruct (gcd_rec_spec fuel a b ltac:(lia)) as (r & Hr & Habs & Hnn).
  rewrite Hr. f_equal. specialize (Hnn Ha Hb). lia.
Qed.

(** [gcd(a, b)] of the user interface is Euclid's algorithm on the
    JavaScript remainder: it returns after at most [|b| + 1] calls with a
    value whose absolute value is the greatest common divisor, and with
    the greatest common divisor itself when [a] and [b] are not
    negative. *)
Theorem gcd_is_euclid (fuel : nat) (a b : Z) (Hfuel : (Z.abs_nat b < fuel)%nat) :
  exists r,
    gcd_rec fuel a b = Some r /\
    Z.abs r = Z.gcd a b /\
    (0 <= a -> 0 <= b -> r = Z.gcd a b) /\
    (b <> 0 -> gcd_rec fuel a b = gcd_rec (pred fuel) b (Z.rem a b)).
Proof.
  destruct (gcd_rec_spec fuel a b Hfuel) as (r & Hr & Habs & Hnn).
  exists r. split; [exact Hr|]. split; [exact Habs|]. split.
  - intros Ha Hb. specialize (Hnn Ha Hb). lia.
  - intros Hb. destruct fuel as [|fuel]; [lia|]. cbn [gcd_rec pred].
    now replace (b =? 0) with false by (symmetry; apply Z.eqb_neq; exact Hb).
Qed.

(** The theorem at [gcd(12, 18)] and at [gcd(-4, 6)]. *)
Lemma gcd_is_euclid_witness :
  (Z.abs_nat 18 < 19)%nat /\ gcd_rec 19 12 18 = Some 6 /\
  (Z.abs_nat 6 < 7)%nat /\ gcd_rec 7 (-4) 6 = Some 2.
Proof.
  assert (H18 : (Z.abs_nat 18 < 19)%nat) by (cbn; lia).
  assert (H6 : (Z.abs_nat 6 < 7)%nat) by (cbn; lia).
  split; [exact H18|]. split.
  - destruct (gcd_is_euclid 19 12 18 H18) as (r & Hr & _ & Hnn & _).
    rewrite Hr. f_equal. rewrite Hnn by lia. reflexivity.
  - split; [exact H6|].
    destruct (gcd_is_euclid 7 (-4) 6 H6) as (r & Hr & _).
    rewrite Hr. vm_compute in Hr. congruence.
Defined.

Lemma coprime_in_window (m k : Z) :
  1 <= m -> exists j, k <= j < k + m /\ Z.gcd m j = 1.
Proof.
  intros Hm. exists (k + (1 - k) mod m).
  pose proof (Z.mod_pos_bound (1 - k) m ltac:(lia)) as Hb.
  split; [lia|].
  replace (k + (1 - k) mod m) with (1 + (- ((1 - k) / m)) * m).
  - rewrite Z.gcd_add_mult_diag_r. apply Z.gcd_1_r.
  - pose proof (Z.div_mod (1 - k) m ltac:(lia)). lia.
Qed.

Lemma first_coprime (m : Z) (d : nat) :
  forall k,
    (exists j, k <= j <= k + Z.of_nat d /\ Z.gcd m j = 1) ->
    exists k', k <= k' <= k + Z.of_nat d /\ Z.gcd m k' = 1 /\
               forall j, k <= j < k' -> Z.gcd m j <> 1.
Proof.
  induction d as [|d IH]; intros k (j & Hj & Hg).
  - exists k. replace j with k in Hg by lia.
    split; [lia|]. split; [exact Hg|]. intros i Hi. lia.
  - destruct (Z.eq_dec (Z.gcd m k) 1) as [H1|H1].
    + exists k. split; [lia|]. split; [exact H1|]. intros i Hi. lia.
    + assert (Hjk : j <> k) by congruence.
      destruct (IH (k + 1)) as (k' & Hk' & Hg' & Hmin).
      { exists j. split; [lia|exact Hg]. }
      exists k'. split; [lia|]. split; [exact Hg'|].
      intros i Hi. destruct (Z.eq_dec i k) as [->|Hne]; [exact H1|].
      apply Hmin. lia.
Qed.

Lemma coprime_loop_finds (gfuel : nat) (m k' : Z) (fuel : nat) :
  forall k,
    0 <= m -> 0 <= k <= k' -> Z.gcd m k' = 1 ->
    (forall j, k <= j < k' -> Z.gcd m j <> 1) ->
    (Z.to_nat (k' - k) < fuel)%nat -> (Z.to_nat k' < gfuel)%nat ->
    coprime_loop fuel gfuel m k = Some k'.
Proof.
  induction fuel as [|fuel IH]; intros k Hm Hk Hg Hmin Hf Hgf; [lia|].
  cbn [coprime_loop]. rewrite gcd_rec_nonneg by lia. cbn [obind].
  destruct (Z.eq_dec k k') as [->|Hne].
  - rewrite Hg. reflexivity.
  - replace (Z.gcd m k =? 1) with false
      by (symmetry; apply Z.eqb_neq, Hmin; lia).
    apply IH; try assumption; try lia. intros j Hj. apply Hmin. lia.
Qed.

Lemma coprime_loop_diverges (gfuel fuel : nat) :
  forall k, 2 <= k -> coprime_loop fuel gfuel 0 k = None.
Proof.
  induction fuel as [|fuel IH]; intros k Hk; [reflexivity|].
  cbn [coprime_loop]. destruct gfuel as [|[|gfuel]]; cbn [gcd_rec obind].
  - reflexivity.
  - now replace (k =? 0) with false by (symmetry; apply Z.eqb_neq; lia).
  - replace (k =? 0) with false by (symmetry; apply Z.eqb_neq; lia).
    rewrite Z.rem_0_l by lia. cbn [Z.eqb obind].
    replace (k =? 1) with false by (symmetry; apply Z.eqb_neq; lia).
    apply IH. lia.
Qed.

(** The loop [while (gcd(m, k) !== 1) k++]: for [m >= 1] and [k >= 0] it
    stops within [m] tests at the least [k' >= k] coprime to [m], and
    [k' < k + m]; for [m = 0] it stops at [1] when [k <= 1] and never stops
    when [k >= 2], whatever the bounds. *)
Theorem coprime_adjustment (m k : Z) (Hk : 0 <= k) :
  (1 <= m ->
   exists k',
     k <= k' < k + m /\ Z.gcd m k' = 1 /\
     (forall j, k <= j < k' -> Z.gcd m j <> 1) /\
     forall fuel gfuel,
       (Z.to_nat m <= fuel)%nat -> (Z.to_nat (k + m) <= gfuel)%nat ->
       coprime_loop fuel gfuel m k = Some k') /\
  (m = 0 -> k <= 1 ->
   forall fuel gfuel, (2 <= fuel)%nat -> (2 <= gfuel)%nat ->
                      coprime_loop fuel gfuel m k = Some 1) /\
  (m = 0 -> 2 <= k ->
   forall fuel gfuel, coprime_loop fuel gfuel m k = None).
Proof.
  split; [|split].
  - intros Hm. destruct (coprime_in_window m k Hm) as (j & Hj & Hg).
    destruct (first_coprime m (Z.to_nat (m - 1)) k) as (k' & Hk' & Hg' & Hmin).
    { exists j. split; [lia|exact Hg]. }
    exists k'. split; [lia|]. split; [exact Hg'|]. split; [exact Hmin|].
    intros fuel gfuel Hf Hgf.
    apply coprime_loop_finds; try assumption; lia.
  - intros -> Hk1 fuel gfuel Hf Hgf.
    apply coprime_loop_finds; try lia; [reflexivity|].
    intros j Hj. replace j with 0 by lia. cbn. discriminate.
  - intros -> Hk2 fuel gfuel. apply coprime_loop_diverges. exact Hk2.
Qed.

(** The theorem at [m = 6], [k = 8] (the loop ends at 11) and at [m = 0],
    [k = 5]. *)
Lemma coprime_adjustment_witness :
  0 <= 8 /\ 1 <= 6 /\ coprime_loop 6 14 6 8 = Some 11 /\
  0 <= 5 /\ 2 <= 5 /\ coprime_loop 1000 1000 0 5 = None.
Proof.
  split; [lia|]. split; [lia|]. split; [reflexivity|].
  split; [lia|]. split; [lia|].
  exact (proj2 (proj2 (coprime_adjustment 0 5 ltac:(lia))) eq_refl ltac:(lia)
           1000%nat 1000%nat).
Defined.

Lemma coprime_tiling_console (cfg : Config) (m k n rows : Z)
      (isOffset : bool) (g : Generator) :
  0 <= m -> 0 < k -> Z.gcd m k = 1 ->
  console (snd (generateTiling cfg m k n rows isOffset g)) =
  console g ++ parameter_errors k n.
Proof.
  intros Hm Hk Hg. rewrite generateTiling_console.
  rewrite (proj1 (window_all_placed k n _ 1 _ Hk
                    (coprime_entry_window m k Hm Hk Hg))).
  destruct (length _ =? 0)%nat; cbn [map]; now rewrite !app_nil_r.
Qed.

Lemma coprime_tiling_length (cfg : Config) (m k n rows : Z)
      (isOffset : bool) (g : Generator) :
  0 <= m -> 0 < k -> Z.gcd m k = 1 -> 0 <= rows ->
  Z.of_nat (length (fst (generateTiling cfg m k n rows isOffset g))) =
  (if isOffset then 2 else 1) *
  (1 + Z.of_nat (wedge_iterations isOffset n)) * tri rows.
Proof.
  intros Hm Hk Hg Hrows.
  pose proof (generateWedge_length cfg m k n rows g Hrows) as Hlen.
  set (steps := wedge_iterations isOffset n).
  set (front0 := removelast (fst (build_u_seq m k false))).
  assert (Hpl : length (placements k n steps 1 front0) = steps).
  { pose proof (placements_skipped_length k n steps 1 front0) as H.
    rewrite (proj1 (window_all_placed k n steps 1 front0 Hk
                      (coprime_entry_window m k Hm Hk Hg))) in H.
    cbn [length] in H. lia. }
  rewrite generateTiling_result, length_app. fold steps.
  rewrite run_polygons_length. fold front0. rewrite Hpl.
  destruct isOffset.
  - rewrite length_map, run_polygons_length. fold front0. rewrite Hpl. nia.
  - cbn [length]. nia.
Qed.

Lemma validation_condition (isOffset : bool) (m k t : Z) :
  1 <= m -> m < k -> 1 <= t ->
  (parameter_n isOffset m k t < k <->
   isOffset = true /\ t = 1 /\ k < 2 * m).
Proof.
  intros Hm Hmk Ht. unfold parameter_n. destruct isOffset.
  - split.
    + intros Hn. assert (t = 1) by nia. subst t. repeat split; lia.
    + intros (_ & -> & Hk). lia.
  - split; [intros Hn; nia|intros (Hf & _); discriminate].
Qed.

Lemma ui_wedge_count (isOffset : bool) (m k t : Z) :
  let n := parameter_n isOffset m k t in
  1 <= n ->
  (if isOffset then 2 else 1) *
  (1 + Z.of_nat (wedge_iterations isOffset n)) = n.
Proof.
  intros n Hn. unfold wedge_iterations, w_limit.
  destruct isOffset.
  - assert (Hq : (inject_Z n / inject_Z 2 == inject_Z (t * k - m))%Q).
    { unfold n, parameter_n. rewrite inject_Z_mult. field. }
    rewrite Hq, Qceiling_Z. unfold n, parameter_n in *. lia.
  - rewrite Qceiling_Z. lia.
Qed.

(** One parameter update of the user interface, for [m >= 1], [k >= 0],
    [t >= 1], when [m < k] on entry or the event comes from the [m] or [k]
    input: [k] becomes the least value coprime to [m] from the enforced
    value on, so [m < k] and [gcd(m, k) = 1]; the update stops with the
    validation error exactly when offset mode is on, [t = 1] and
    [k < 2m]; otherwise it displays polygons and the generator writes
    neither an error nor a warning, and in tiling mode the [n] wedges
    of the full turn are all there, [n rows (rows + 1) / 2] tiles, and in
    prototile mode the short-period flag of the tile is off. *)
Theorem updateTiling_outcome (fuel : nat) (target : EventTarget)
    (ui : Controls) (cfg : Config) (g : Generator)
    (Hm : 1 <= in_m ui) (Hk : 0 <= in_k ui) (Ht : 1 <= in_t ui)
    (Hmk : target = OnInputM \/ target = OnInputK \/ in_m ui < in_k ui)
    (Hfuel : (Z.to_nat (in_k ui + 2 * in_m ui + 1) <= fuel)%nat) :
  let m := in_m ui in
  let k0 := enforce_m_lt_k target m (in_k ui) in
  let cfg' := match in_fill ui with
              | Some (count, _) => mkConfig count (wedges cfg)
              | None => cfg
              end in
  let g' := match in_fill ui with
            | Some (count, type) =>
                generatePalette cfg' (Some count) (Some type) g
            | None => g
            end in
  exists k n,
    (k0 <= k < k0 + m /\ m < k /\ Z.gcd m k = 1 /\
     forall j, k0 <= j < k -> Z.gcd m j <> 1) /\
    n = parameter_n (in_offset ui) m k (in_t ui) /\
    (n < k <-> in_offset ui = true /\ in_t ui = 1 /\ k < 2 * m) /\
    (n < k ->
     updateTiling fuel target ui cfg g = Some (ValidationError k n cfg' g')) /\
    (k <= n ->
     exists polys g'',
       updateTiling fuel target ui cfg g =
         Some (Displayed k n cfg' polys g'') /\
       console g'' = console g /\
       (in_mode ui = "tiling"%string -> 0 <= in_rows ui ->
        Z.of_nat (length polys) = n * tri (in_rows ui)) /\
       (in_mode ui <> "wedge"%string -> in_mode ui <> "tiling"%string ->
        polys = [prototile m k n] /\
        hasShortPeriod (meta (prototile m k n)) = Some false)).
Proof.
  intros m k0 cfg' g'.
  assert (Hk0 : 0 <= k0 /\ m < k0 /\ k0 <= in_k ui + m + 1).
  { unfold k0, enforce_m_lt_k. fold m.
    destruct Hmk as [->|[->|Hlt]].
    - destruct (Z.leb_spec (in_k ui) m); lia.
    - destruct (Z.leb_spec (in_k ui) m); lia.
    - destruct target; try destruct (Z.leb_spec (in_k ui) m); lia. }
  destruct (proj1 (coprime_adjustment m k0 (proj1 Hk0)) Hm)
    as (k & Hrange & Hg & Hmin & Hloop).
  specialize (Hloop fuel fuel ltac:(fold m in Hfuel; lia)
                ltac:(fold m in Hfuel; lia)).
  set (n := parameter_n (in_offset ui) m k (in_t ui)).
  exists k, n.
  assert (Hgc : console g' = console g).
  { unfold g'. destruct (in_fill ui) as [[count type]|]; reflexivity. }
  assert (Hrun : updateTiling fuel target ui cfg g =
    if n <? k then Some (ValidationError k n cfg' g')
    else
      let '(polygons, g2) :=
        if String.eqb (in_mode ui) "wedge"
        then generateWedge cfg' m k n (in_rows ui) g'
        else if String.eqb (in_mode ui) "tiling"
             then generateTiling cfg' m k n (in_rows ui) (in_offset ui) g'
             else generatePrototile m k n g' in
      Some (Displayed k n cfg' polygons g2)).
  { unfold updateTiling. fold m. fold k0. rewrite Hloop. cbn [obind].
    unfold cfg', g', n.
    destruct (in_fill ui) as [[count type]|]; reflexivity. }
  split; [repeat split; try lia; assumption|].
  split; [reflexivity|].
  split; [apply validation_condition; lia|].
  split.
  - intros Hn. rewrite Hrun.
    now replace (n <? k) with true by (symmetry; apply Z.ltb_lt; exact Hn).
  - intros Hn. rewrite Hrun.
    replace (n <? k) with false by (symmetry; apply Z.ltb_ge; exact Hn).
    assert (Herr : parameter_errors k n = []).
    { unfold parameter_errors.
      now replace (n <? k) with false by (symmetry; apply Z.ltb_ge; exact Hn). }
    destruct (String.eqb_spec (in_mode ui) "wedge") as [Hw|Hw].
    + destruct (generateWedge cfg' m k n (in_rows ui) g') as [polys g2] eqn:E.
      exists polys, g2. split; [reflexivity|]. split.
      * pose proof (generateWedge_state cfg' m k n (in_rows ui) g') as Hs.
        rewrite E in Hs. cbn [fst snd] in Hs. rewrite Hs. cbn [console].
        now rewrite Herr, app_nil_r.
      * split; [|intros Hnw; contradiction].
        intros Hmode. rewrite Hw in Hmode. discriminate.
    + destruct (String.eqb_spec (in_mode ui) "tiling") as [Htl|Htl].
      * destruct (generateTiling cfg' m k n (in_rows ui) (in_offset ui) g')
          as [polys g2] eqn:E.
        exists polys, g2. split; [reflexivity|]. split; [|split].
        -- pose proof (coprime_tiling_console cfg' m k n (in_rows ui)
                         (in_offset ui) g' ltac:(lia) ltac:(lia) Hg) as Hs.
           rewrite E in Hs. cbn [snd] in Hs.
           now rewrite Hs, Herr, app_nil_r.
        -- intros _ Hrows.
           pose proof (coprime_tiling_length cfg' m k n (in_rows ui)
                         (in_offset ui) g' ltac:(lia) ltac:(lia) Hg Hrows)
             as Hl.
           rewrite E in Hl. cbn [fst] in Hl.
           pose proof (ui_wedge_count (in_offset ui) m k (in_t ui)) as Hc.
           cbn zeta in Hc. fold n in Hc.
           rewrite Hl, Hc; [reflexivity|lia].
        -- intros _ Hnt. contradiction.
      * destruct (generatePrototile m k n g') as [polys g2] eqn:E.
        exists polys, g2. split; [reflexivity|]. split.
        -- pose proof (generatePrototile_state m k n g') as Hs.
           rewrite E in Hs. cbn [snd] in Hs. rewrite Hs. cbn [console].
           now rewrite Herr, app_nil_r.
        -- split; [intros Hmode; contradiction|]. intros _ _. split.
           ++ pose proof (generatePrototile_result m k n g') as Hr.
              rewrite E in Hr. exact Hr.
           ++ rewrite prototile_hasShortPeriod, boundary_sequences_spec
                by lia.
              cbn [snd]. rewrite coprime_stop_index by (lia || exact Hg).
              now rewrite Z.ltb_irrefl.
Qed.

(** The theorem at [m = 3], [k = 5], [t = 1] in offset mode, after an
    input on the [k] slider: [k] stays 5, [n = 4 < k], and the update ends
    with the validation error. *)
Lemma updateTiling_outcome_witness :
  let ui := mkControls 3 5 1 true "tiling" 2 (Some (3, "color"%string)) in
  1 <= in_m ui /\ 0 <= in_k ui /\ 1 <= in_t ui /\
  (Z.to_nat (in_k ui + 2 * in_m ui + 1) <= 12)%nat /\
  updateTiling 12 OnInputK ui (TILING_CONFIG 5) new_generator =
  Some (ValidationError 5 4 (TILING_CONFIG 3)
          (generatePalette (TILING_CONFIG 3) (Some 3) (Some "color"%string)
                           new_generator)).
Proof.
  intros ui.
  assert (H1 : 1 <= in_m ui) by (cbn; lia).
  assert (H2 : 0 <= in_k ui) by (cbn; lia).
  assert (H3 : 1 <= in_t ui) by (cbn; lia).
  assert (H4 : (Z.to_nat (in_k ui + 2 * in_m ui + 1) <= 12)%nat)
    by (cbn; lia).
  split; [exact H1|]. split; [exact H2|]. split; [exact H3|].
  split; [exact H4|].
  destruct (updateTiling_outcome 12 OnInputK ui (TILING_CONFIG 5)
              new_generator H1 H2 H3 (or_intror (or_introl eq_refl)) H4)
    as (k & n & (Hrange & _ & _ & Hmin) & Hn & _ & Herr & _).
  cbn in Hrange, Hmin, Hn.
  assert (Hk : k = 5).
  { destruct (Z.eq_dec k 5) as [e|ne]; [exact e|].
    exfalso. apply (Hmin 5); [lia|reflexivity]. }
  subst k. cbn in Hn. subst n. apply Herr. lia.
Defined.

(** * Properties of the renderer *)

(** ** The hit test *)

Lemma Rltb_true (a b : R) : Rltb a b = true <-> (a < b)%R.
Proof.
  unfold Rltb. destruct (Rlt_dec a b); split; intros; try discriminate;
    try reflexivity; try assumption; contradiction.
Qed.

Lemma Rltb_false (a b : R) : Rltb a b = false <-> (b <= a)%R.
Proof.
  unfold Rltb. destruct (Rlt_dec a b); split; intros; try discriminate;
    try reflexivity; lra.
Qed.

(** Where an edge crosses the horizontal line through [y], between the
    abscissas of its two ends. *)
Lemma crossing_abscissa (y xi yi xj yj : R) :
  Rltb y yi <> Rltb y yj ->
  exists s : R,
    (0 <= s <= 1)%R /\
    ((xj - xi) * (y - yi) / (yj - yi) + xi = xi * (1 - s) + xj * s)%R.
Proof.
  intros Hne. exists ((y - yi) / (yj - yi))%R.
  assert (Hd : (yi <= y < yj \/ yj <= y < yi)%R).
  { destruct (Rltb y yi) eqn:Hi, (Rltb y yj) eqn:Hj; try congruence.
    - apply Rltb_true in Hi. apply Rltb_false in Hj. right; lra.
    - apply Rltb_false in Hi. apply Rltb_true in Hj. left; lra. }
  set (s := ((y - yi) / (yj - yi))%R).
  assert (Hs : (s * (yj - yi) = y - yi)%R) by (unfold s; field; lra).
  split.
  - destruct Hd as [Hd|Hd]; split; nra.
  - unfold s. field. lra.
Qed.

Lemma ray_loop_level (x y : R) (c : bool) (pts : list Point) :
  forall (pj : Point) (inside : bool),
    Rltb y (py pj) = c ->
    Forall (fun p => Rltb y (py p) = c) pts ->
    ray_loop x y pts pj inside = inside.
Proof.
  induction pts as [|p pts IH]; intros pj inside Hj Hall; [reflexivity|].
  pose proof (Forall_inv Hall) as Hp. cbn beta in Hp.
  pose proof (Forall_inv_tail Hall) as Hrest. cbn [ray_loop].
  rewrite Hp, Hj, Bool.eqb_reflx. cbn [negb andb]. now apply IH.
Qed.

Lemma ray_loop_right (x y : R) (pts : list Point) :
  forall (pj : Point) (inside : bool),
    (px pj <= x)%R ->
    Forall (fun p => (px p <= x)%R) pts ->
    ray_loop x y pts pj inside = inside.
Proof.
  induction pts as [|p pts IH]; intros pj inside Hj Hall; [reflexivity|].
  pose proof (Forall_inv Hall) as Hp. cbn beta in Hp.
  pose proof (Forall_inv_tail Hall) as Hrest. cbn [ray_loop].
  destruct (Bool.eqb (Rltb y (py p)) (Rltb y (py pj))) eqn:Heq;
    cbn [negb andb]; [now apply IH|].
  apply Bool.eqb_false_iff in Heq.
  destruct (crossing_abscissa y (px p) (py p) (px pj) (py pj) Heq)
    as (s & Hs & ->).
  replace (Rltb x (px p * (1 - s) + px pj * s)) with false
    by (symmetry; apply Rltb_false; nra).
  now apply IH.
Qed.

Lemma last_cons_default (pts : list Point) :
  forall p d : Point, last (p :: pts) d = last pts p.
Proof.
  induction pts as [|q pts IH]; intros p d; [reflexivity|].
  change (last (p :: q :: pts) d) with (last (q :: pts) d).
  now rewrite !IH.
Qed.

Lemma ray_loop_left (x y : R) (pts : list Point) :
  forall (pj : Point) (inside : bool),
    (x < px pj)%R ->
    Forall (fun p => (x < px p)%R) pts ->
    ray_loop x y pts pj inside =
    xorb inside (xorb (Rltb y (py pj)) (Rltb y (py (last pts pj)))).
Proof.
  induction pts as [|p pts IH]; intros pj inside Hj Hall.
  - cbn [ray_loop last]. now rewrite Bool.xorb_nilpotent, Bool.xorb_false_r.
  - pose proof (Forall_inv Hall) as Hp. cbn beta in Hp.
    pose proof (Forall_inv_tail Hall) as Hrest. cbn [ray_loop].
    rewrite last_cons_default.
    rewrite (IH p _ Hp Hrest).
    destruct (Bool.eqb (Rltb y (py p)) (Rltb y (py pj))) eqn:Heq;
      cbn [negb andb].
    + apply Bool.eqb_prop in Heq. now rewrite Heq.
    + pose proof Heq as Hne. apply Bool.eqb_false_iff in Hne.
      destruct (crossing_abscissa y (px p) (py p) (px pj) (py pj) Hne)
        as (s & Hs & ->).
      replace (Rltb x (px p * (1 - s) + px pj * s)) with true
        by (symmetry; apply Rltb_true;
            destruct (Rle_dec s (1 / 2)); nra).
      destruct (Rltb y (py p)), (Rltb y (py pj)), inside,
        (Rltb y (py (last pts p))); cbn in *; congruence.
Qed.

Lemma Forall_last (P : Point -> Prop) (pts : list Point) :
  forall p, Forall P (p :: pts) -> P (last pts p).
Proof.
  induction pts as [|q pts IH]; intros p Hall.
  - exact (Forall_inv Hall).
  - rewrite last_cons_default. apply IH. exact (Forall_inv_tail Hall).
Qed.

(** [isPointInPoly] never reports a point outside the bounding box of the
    path's points as inside: not one to the left of all of them (the ray
    to the right then crosses the closed path an even number of times),
    nor one on or right of their largest abscissa, nor one above or below
    all of them; and an empty path contains nothing. *)
Theorem isPointInPoly_outside_box (x y : R) (pth : list Point)
    (Hout : Forall (fun p => (x < px p)%R) pth \/
            Forall (fun p => (px p <= x)%R) pth \/
            Forall (fun p => (y < py p)%R) pth \/
            Forall (fun p => (py p <= y)%R) pth) :
  isPointInPoly x y pth = false.
Proof.
  unfold isPointInPoly. destruct pth as [|p pts]; [reflexivity|].
  rewrite last_cons_default.
  destruct Hout as [Hl|[Hr|[Hb|Ha]]].
  - rewrite ray_loop_left.
    + rewrite last_cons_default. cbn [xorb]. apply Bool.xorb_nilpotent.
    + exact (Forall_last _ pts p Hl).
    + exact Hl.
  - apply ray_loop_right; [exact (Forall_last _ pts p Hr)|exact Hr].
  - apply (ray_loop_level x y true).
    + apply Rltb_true. exact (Forall_last _ pts p Hb).
    + eapply Forall_impl; [|exact Hb]. intros q Hq. now apply Rltb_true.
  - apply (ray_loop_level x y false).
    + apply Rltb_false. exact (Forall_last _ pts p Ha).
    + eapply Forall_impl; [|exact Ha]. intros q Hq. now apply Rltb_false.
Qed.

(** The theorem for the square with corners (0,0) and (100,100) and the
    point (-1, 50) to its left. *)
Lemma isPointInPoly_outside_box_witness :
  let square := [mkPoint 0 0; mkPoint 100 0; mkPoint 100 100; mkPoint 0 100;
                 mkPoint 0 0] in
  Forall (fun p => (-1 < px p)%R) square /\
  isPointInPoly (-1) 50 square = false.
Proof.
  intros square.
  assert (H : Forall (fun p => (-1 < px p)%R) square)
    by (repeat constructor; cbn; lra).
  split; [exact H|].
  exact (isPointInPoly_outside_box (-1) 50 square (or_introl H)).
Defined.



Lemma to_world_to_canvas (v : Viewport) (wx wy : R) :
  scale v <> 0%R ->
  to_world v (fst (to_canvas v wx wy)) (snd (to_canvas v wx wy)) = (wx, wy).
Proof.
  intros Hs. unfold to_world, to_canvas. cbn [fst snd].
  f_equal; field; exact Hs.
Qed.



(** ** Centring *)

Lemma bounds_point_box (seen : list Point) (box : R * R * R * R) (p : Point) :
  bounding_box seen box ->
  exists box', bounds_point (Some box) p = Some box' /\
               bounding_box (seen ++ [p]) box'.
Proof.
  destruct box as [[[minX maxX] minY] maxY].
  intros (Hin & (a & Ha & Hax) & (b & Hb & Hbx) & (c & Hc & Hcy) &
          (d & Hd & Hdy)).
  cbn [bounds_point]. eexists. split; [reflexivity|].
  assert (Hmm : (minX <= maxX)%R) by (destruct (Hin a Ha); lra).
  assert (Hmm' : (minY <= maxY)%R) by (destruct (Hin c Hc); lra).
  cbn [bounding_box]. split; [|split; [|split; [|split]]].
  - intros q Hq. apply in_app_or in Hq as [Hq|[<-|[]]].
    + destruct (Hin q Hq) as [Hx Hy].
      destruct (Rltb (px p) minX) eqn:E1, (Rltb maxX (px p)) eqn:E2,
        (Rltb (py p) minY) eqn:E3, (Rltb maxY (py p)) eqn:E4;
        try apply Rltb_true in E1; try apply Rltb_false in E1;
        try apply Rltb_true in E2; try apply Rltb_false in E2;
        try apply Rltb_true in E3; try apply Rltb_false in E3;
        try apply Rltb_true in E4; try apply Rltb_false in E4;
        split; lra.
    + destruct (Rltb (px p) minX) eqn:E1, (Rltb maxX (px p)) eqn:E2,
        (Rltb (py p) minY) eqn:E3, (Rltb maxY (py p)) eqn:E4;
        try apply Rltb_true in E1; try apply Rltb_false in E1;
        try apply Rltb_true in E2; try apply Rltb_false in E2;
        try apply Rltb_true in E3; try apply Rltb_false in E3;
        try apply Rltb_true in E4; try apply Rltb_false in E4;
        split; lra.
  - destruct (Rltb (px p) minX).
    + exists p. split; [apply in_or_app; right; left|]; reflexivity.
    + exists a. split; [apply in_or_app; left; exact Ha|exact Hax].
  - destruct (Rltb maxX (px p)).
    + exists p. split; [apply in_or_app; right; left|]; reflexivity.
    + exists b. split; [apply in_or_app; left; exact Hb|exact Hbx].
  - destruct (Rltb (py p) minY).
    + exists p. split; [apply in_or_app; right; left|]; reflexivity.
    + exists c. split; [apply in_or_app; left; exact Hc|exact Hcy].
  - destruct (Rltb maxY (py p)).
    + exists p. split; [apply in_or_app; right; left|]; reflexivity.
    + exists d. split; [apply in_or_app; left; exact Hd|exact Hdy].
Qed.

Lemma bounds_fold_box (pts : list Point) :
  forall (seen : list Point) (box : R * R * R * R),
    bounding_box seen box ->
    exists box', fold_left bounds_point pts (Some box) = Some box' /\
                 bounding_box (seen ++ pts) box'.
Proof.
  induction pts as [|p pts IH]; intros seen box Hbox.
  - exists box. rewrite app_nil_r. split; [reflexivity|exact Hbox].
  - destruct (bounds_point_box seen box p Hbox) as (box1 & E1 & Hbox1).
    destruct (IH _ _ Hbox1) as (box' & E & Hbox').
    exists box'. cbn [fold_left]. rewrite E1, E.
    split; [reflexivity|]. now rewrite <- app_assoc in Hbox'.
Qed.

Lemma bounds_polygons_points (polys : list Polygon) :
  bounds_polygons polys = fold_left bounds_point (all_points polys) None.
Proof.
  unfold bounds_polygons, all_points. generalize (@None (R * R * R * R)).
  induction polys as [|poly polys IH]; intros b; [reflexivity|].
  cbn [fold_left flat_map]. rewrite fold_left_app. apply IH.
Qed.

Lemma bounds_polygons_box (polys : list Polygon) :
  match bounds_polygons polys with
  | None => all_points polys = []
  | Some box => all_points polys <> [] /\ bounding_box (all_points polys) box
  end.
Proof.
  rewrite bounds_polygons_points.
  destruct (all_points polys) as [|p pts]; [reflexivity|].
  cbn [fold_left bounds_point].
  destruct (bounds_fold_box pts [p] (px p, px p, py p, py p))
    as (box' & -> & Hbox).
  - cbn [bounding_box]. split; [|repeat split; exists p; split;
                                   (left; reflexivity) || reflexivity].
    intros q [<-|[]]. split; lra.
  - split; [discriminate|exact Hbox].
Qed.

Lemma fit_scale (cw ch w h : R) :
  (0 <= cw)%R -> (0 <= ch)%R -> (0 <= w)%R -> (0 <= h)%R ->
  let s := Rmin (Rmin (cw / (w + 50 * 2)) (ch / (h + 50 * 2))) 5 in
  (0 <= s <= 5)%R /\
  (s * (w + 100) <= cw)%R /\ (s * (h + 100) <= ch)%R /\
  (s = 5%R \/ (s * (w + 100))%R = cw \/ (s * (h + 100))%R = ch).
Proof.
  intros Hcw Hch Hw Hh.
  set (sx := (cw / (w + 50 * 2))%R). set (sy := (ch / (h + 50 * 2))%R).
  assert (Hsx : (sx * (w + 100) = cw)%R) by (unfold sx; field; lra).
  assert (Hsy : (sy * (h + 100) = ch)%R) by (unfold sy; field; lra).
  assert (Hsx0 : (0 <= sx)%R) by nra.
  assert (Hsy0 : (0 <= sy)%R) by nra.
  cbn zeta. unfold Rmin.
  destruct (Rle_dec sx sy) as [Hxy|Hxy];
    [destruct (Rle_dec sx 5)|destruct (Rle_dec sy 5)];
    (split; [lra|]); (split; [nra|]); (split; [nra|]); auto.
Qed.

(** [autoCenter] leaves the viewport alone when the polygons have no point.
    Otherwise, on a canvas of non-negative size, the new scale is at most
    5 and the largest for which the bounding box of all points with a
    margin of 50 world units fits the canvas; the centre of the box is
    drawn at the centre of the canvas, and every point at least 50 scaled
    units inside the canvas border. *)
Theorem autoCenter_fits (v : Viewport) (polys : list Polygon)
    (Hw : (0 <= canvasWidth v)%R) (Hh : (0 <= canvasHeight v)%R) :
  let v' := autoCenter v polys in
  let cw := canvasWidth v in
  let ch := canvasHeight v in
  (all_points polys = [] -> v' = v) /\
  (all_points polys <> [] ->
   exists minX maxX minY maxY,
     bounding_box (all_points polys) (minX, maxX, minY, maxY) /\
     canvasWidth v' = cw /\ canvasHeight v' = ch /\
     (0 <= scale v' <= 5)%R /\
     (scale v' * (maxX - minX + 100) <= cw)%R /\
     (scale v' * (maxY - minY + 100) <= ch)%R /\
     (scale v' = 5%R \/
      (scale v' * (maxX - minX + 100))%R = cw \/
      (scale v' * (maxY - minY + 100))%R = ch) /\
     to_canvas v' ((minX + maxX) / 2) ((minY + maxY) / 2) =
       ((cw / 2)%R, (ch / 2)%R) /\
     forall p, In p (all_points polys) ->
       (50 * scale v' <= fst (to_canvas v' (px p) (py p))
        <= cw - 50 * scale v')%R /\
       (50 * scale v' <= snd (to_canvas v' (px p) (py p))
        <= ch - 50 * scale v')%R).
Proof.
  intros v' cw ch. unfold v', autoCenter.
  pose proof (bounds_polygons_box polys) as Hb.
  destruct (bounds_polygons polys) as [[[[minX maxX] minY] maxY]|].
  - destruct Hb as [Hne Hbox]. split; [intros He; contradiction|].
    intros _. exists minX, maxX, minY, maxY.
    split; [exact Hbox|].
    destruct Hbox as (Hin & (a & Ha & Hax) & _ & (c & Hc & Hcy) & _).
    assert (Hwd : (0 <= maxX - minX)%R) by (destruct (Hin a Ha); lra).
    assert (Hht : (0 <= maxY - minY)%R) by (destruct (Hin c Hc); lra).
    pose proof (fit_scale cw ch (maxX - minX) (maxY - minY) Hw Hh Hwd Hht)
      as Hfit.
    cbn zeta in Hfit |- *. fold cw ch.
    set (s := Rmin (Rmin (cw / (maxX - minX + 50 * 2))
                         (ch / (maxY - minY + 50 * 2))) 5) in *.
    destruct Hfit as (Hs & Hfw & Hfh & Htight).
    cbn [scale canvasWidth canvasHeight to_canvas offsetX offsetY fst snd].
    split; [reflexivity|]. split; [reflexivity|].
    split; [exact Hs|]. split; [exact Hfw|]. split; [exact Hfh|].
    split; [exact Htight|]. split.
    + unfold to_canvas. cbn [scale offsetX offsetY]. f_equal; field.
    + intros p Hp. destruct (Hin p Hp) as [Hx Hy]. unfold to_canvas.
      cbn [scale offsetX offsetY fst snd]. split; split; nra.
  - split; [reflexivity|]. intros Hne. contradiction.
Qed.

(** The theorem for one square tile of side 100 on a canvas of 800 by 600:
    the scale becomes 3, and the corner (0, 0) is drawn inside the
    canvas. *)
Lemma autoCenter_fits_witness :
  let v := mkViewport 1 0 0 800 600 in
  let square := [mkPoint 0 0; mkPoint 100 0; mkPoint 100 100; mkPoint 0 100;
                 mkPoint 0 0] in
  let tile := mkPolygon square ColorUndefined "#30363d" empty_meta in
  let v' := autoCenter v [tile] in
  (0 <= canvasWidth v)%R /\ (0 <= canvasHeight v)%R /\
  (0 <= scale v' <= 5)%R /\
  (0 <= fst (to_canvas v' 0 0) <= 800)%R.
Proof.
  intros v square tile v'.
  assert (Hw : (0 <= canvasWidth v)%R) by (cbn; lra).
  assert (Hh : (0 <= canvasHeight v)%R) by (cbn; lra).
  split; [exact Hw|]. split; [exact Hh|].
  destruct (proj2 (autoCenter_fits v [tile] Hw Hh) ltac:(discriminate))
    as (minX & maxX & minY & maxY & _ & _ & _ & Hs & _ & _ & _ & _ & Hin).
  fold v' in Hs, Hin. split; [exact Hs|].
  destruct (Hin (mkPoint 0 0) ltac:(left; reflexivity)) as [Hx _].
  cbn [px py] in Hx. change (canvasWidth v) with 800%R in Hx. lra.
Defined.

(** * Placed wedges and warnings *)

Lemma skipped_sorted (k : Z) (cnt : nat) :
  forall (i : Z) (fr : list Z),
    StronglySorted Z.lt (skipped k cnt i fr) /\
    Forall (fun x => i <= x < i + Z.of_nat cnt) (skipped k cnt i fr).
Proof.
  induction cnt as [|cnt IH]; intros i fr; cbn [skipped].
  - split; constructor.
  - destruct (find_j_star fr i) as [j|].
    + destruct (IH (i + 1) (JS.assign fr j (i + k))) as [Hs Hf].
      split; [exact Hs|].
      eapply Forall_impl; [|exact Hf]. cbn beta. intros; lia.
    + destruct (IH (i + 1) fr) as [Hs Hf]. split.
      * constructor; [exact Hs|].
        eapply Forall_impl; [|exact Hf]. cbn beta. intros; lia.
      * constructor; [lia|].
        eapply Forall_impl; [|exact Hf]. cbn beta. intros; lia.
Qed.

Lemma placed_or_skipped (k n : Z) (cnt : nat) :
  forall (i : Z) (fr : list Z) (x : Z),
    i <= x < i + Z.of_nat cnt ->
    (In x (map fst (placements k n cnt i fr)) <->
     ~ In x (skipped k cnt i fr)).
Proof.
  induction cnt as [|cnt IH]; intros i fr x Hx; [lia|].
  cbn [placements skipped].
  destruct (find_j_star fr i) as [j|].
  - cbn [map fst In].
    destruct (Z.eq_dec i x) as [->|Hne].
    + split; [|intros _; left; reflexivity].
      intros _ Hin.
      pose proof (proj2 (skipped_sorted k cnt (x + 1)
                           (JS.assign fr j (x + k)))) as Hf.
      rewrite Forall_forall in Hf. specialize (Hf x Hin). lia.
    + rewrite <- IH by lia. split; [intros [H|H]; [contradiction|exact H]|].
      intros H. right. exact H.
  - cbn [In]. destruct (Z.eq_dec i x) as [->|Hne].
    + split; [|intros H; exfalso; apply H; left; reflexivity].
      intros Hin.
      pose proof (proj2 (placements_sorted k n cnt (x + 1) fr)) as Hf.
      rewrite Forall_forall in Hf. specialize (Hf x Hin). lia.
    + rewrite IH by lia. split.
      * intros H [He|Hin]; [contradiction|exact (H Hin)].
      * intros H Hin. apply H. right. exact Hin.
Qed.

(** Every iteration [i] of the placement loop either places wedge [i] or
    writes the warning for [i], never both: with at least one row, the
    warnings of [generateTiling] come in increasing order of [i], the
    wedges [1 .. steps] with a polygon are the ones without a warning, and
    the result has [(1 + steps - warnings) rows (rows + 1) / 2] polygons,
    twice that in offset mode. *)
Theorem wedges_placed_or_warned (cfg : Config) (m k n rows : Z)
    (isOffset : bool) (g : Generator) (Hrows : 1 <= rows) :
  let steps := Z.of_nat (wedge_iterations isOffset n) in
  exists ws : list Z,
    console (snd (generateTiling cfg m k n rows isOffset g)) =
      console g ++ parameter_errors k n ++ map DirectionNotFound ws /\
    StronglySorted Z.lt ws /\
    Forall (fun i => 1 <= i <= steps) ws /\
    (forall i, 1 <= i <= steps ->
       (In i ws <->
        forall p, In p (primary_polygons cfg m k n rows isOffset g) ->
                  wedgeIndex (meta p) <> Some i)) /\
    Z.of_nat (length (fst (generateTiling cfg m k n rows isOffset g))) =
      (if isOffset then 2 else 1) *
      (1 + steps - Z.of_nat (length ws)) * tri rows.
Proof.
  intros steps.
  set (front0 := removelast (fst (build_u_seq m k false))).
  set (cnt := wedge_iterations isOffset n).
  exists (skipped k cnt 1 front0).
  pose proof (generateWedge_length cfg m k n rows g ltac:(lia)) as Hlen.
  pose proof (tri_pos rows Hrows) as Hpos.
  pose proof (placements_skipped_length k n cnt 1 front0) as Hbal.
  destruct (skipped_sorted k cnt 1 front0) as [Hs Hf].
  split; [|split; [exact Hs|split; [|split]]].
  - rewrite generateTiling_console. fold front0 cnt.
    destruct (length (fst (generateWedge cfg m k n rows g))) as [|len];
      [lia|reflexivity].
  - eapply Forall_impl; [|exact Hf]. cbn beta. unfold steps. fold cnt.
    intros; lia.
  - intros i Hi.
    assert (Hidx : forall x,
      In (Some x) (map (fun p => wedgeIndex (meta p))
                       (primary_polygons cfg m k n rows isOffset g)) <->
      x = 0 \/ In x (map fst (placements k n cnt 1 front0))).
    { intros x. rewrite primary_polygons_run, run_wedge_indices.
      fold front0 cnt. rewrite in_map_iff. split.
      - intros (y & [= ->] & Hin). apply in_flat_map in Hin as (z & Hz & Hr).
        apply repeat_spec in Hr. subst z.
        destruct Hz as [<-|Hz]; [left; reflexivity|right; exact Hz].
      - intros Hx. exists x. split; [reflexivity|]. apply in_flat_map.
        exists x. split; [destruct Hx as [->|Hx]; [left; reflexivity|
                                                  right; exact Hx]|].
        destruct (length (fst (generateWedge cfg m k n rows g)))
          as [|len]; [lia|]. left. reflexivity. }
    pose proof (placed_or_skipped k n cnt 1 front0 i
                  ltac:(unfold steps in Hi; fold cnt in Hi; lia)) as Hps.
    split.
    + intros Hin p Hp Hw.
      assert (Hx : In (Some i) (map (fun p => wedgeIndex (meta p))
                     (primary_polygons cfg m k n rows isOffset g))).
      { rewrite <- Hw.
        exact (in_map (fun p => wedgeIndex (meta p)) _ p Hp). }
      apply Hidx in Hx as [H0|Hx]; [lia|]. apply Hps in Hx. exact (Hx Hin).
    + intros Hnone.
      destruct (in_dec Z.eq_dec i (skipped k cnt 1 front0)) as [Hin|Hnin];
        [exact Hin|].
      exfalso. apply Hps in Hnin.
      assert (Hx : In (Some i) (map (fun p => wedgeIndex (meta p))
                     (primary_polygons cfg m k n rows isOffset g)))
        by (apply Hidx; right; exact Hnin).
      apply in_map_iff in Hx as (p & Hw & Hp). exact (Hnone p Hp Hw).
  - rewrite generateTiling_result, length_app. fold cnt.
    rewrite run_polygons_length. fold front0. unfold steps. fold cnt.
    destruct isOffset.
    + rewrite length_map, run_polygons_length. fold front0. nia.
    + cbn [length]. nia.
Qed.

(** The theorem at [generateTiling(2, 4, 8, 1, false)]. *)
Lemma wedges_placed_or_warned_witness :
  1 <= 1 /\
  exists ws : list Z,
    console (snd (generateTiling (TILING_CONFIG 3) 2 4 8 1 false
                    new_generator)) =
    map DirectionNotFound ws.
Proof.
  split; [lia|].
  destruct (wedges_placed_or_warned (TILING_CONFIG 3) 2 4 8 1 false
              new_generator ltac:(lia)) as (ws & Hc & _).
  exists ws. exact Hc.
Defined.

(** Without rows there is nothing to place: for [rows <= 0] both
    [generateWedge] and [generateTiling] return the empty list, the
    placement loop is not entered, and the console receives only the
    parameter errors of [generatePrototile]. *)
Theorem no_rows_no_tiles (cfg : Config) (m k n rows : Z) (isOffset : bool)
    (g : Generator) (Hrows : rows <= 0) :
  fst (generateWedge cfg m k n rows g) = [] /\
  fst (generateTiling cfg m k n rows isOffset g) = [] /\
  polygons (snd (generateTiling cfg m k n rows isOffset g)) = [] /\
  console (snd (generateTiling cfg m k n rows isOffset g)) =
    console g ++ parameter_errors k n.
Proof.
  assert (Hw : fst (generateWedge cfg m k n rows g) = []).
  { destruct (generateWedge_rows cfg m k n rows g)
      as (bp & d0 & d1 & g' & ->).
    replace (Z.to_nat rows) with O by lia. reflexivity. }
  split; [exact Hw|]. split; [|split].
  - rewrite generateTiling_result.
    rewrite (run_polygons_nil cfg m k n rows g _ Hw).
    destruct isOffset; reflexivity.
  - unfold generateTiling. rewrite tiling_primary_run, Hw.
    cbn [length Nat.eqb snd gen entry_state polygons].
    exact Hw.
  - rewrite generateTiling_console, Hw. cbn [length Nat.eqb].
    now rewrite app_nil_r.
Qed.

(** The theorem at [generateTiling(3, 7, 14, 0, true)]. *)
Lemma no_rows_no_tiles_witness :
  0 <= 0 /\
  fst (generateTiling (TILING_CONFIG 3) 3 7 14 0 true new_generator) = [].
Proof.
  split; [lia|].
  exact (proj1 (proj2 (no_rows_no_tiles (TILING_CONFIG 3) 3 7 14 0 true
                         new_generator ltac:(lia)))).
Defined.

(** ** Zoom and pan *)

Lemma clamp_scale_bounds (s : R) : (1 / 10 <= clamp_scale s <= 20)%R.
Proof.
  unfold clamp_scale, Rmin, Rmax.
  destruct (Rle_dec (1 / 10) s); destruct (Rle_dec _ 20); lra.
Qed.

Lemma fit_scale_pos (cw ch w h : R) :
  (0 < cw)%R -> (0 < ch)%R -> (0 <= w)%R -> (0 <= h)%R ->
  (0 < Rmin (Rmin (cw / (w + 50 * 2)) (ch / (h + 50 * 2))) 5)%R.
Proof.
  intros Hcw Hch Hw Hh.
  assert (Hx : (0 < cw / (w + 50 * 2))%R)
    by (apply Rdiv_lt_0_compat; lra).
  assert (Hy : (0 < ch / (h + 50 * 2))%R)
    by (apply Rdiv_lt_0_compat; lra).
  apply Rmin_glb_lt; [apply Rmin_glb_lt; assumption|lra].
Qed.

Lemma autoCenter_scale_pos (v : Viewport) (polys : list Polygon) :
  (0 < canvasWidth v)%R -> (0 < canvasHeight v)%R ->
  (0 < scale v <= 20)%R ->
  (0 < scale (autoCenter v polys) <= 20)%R /\
  canvasWidth (autoCenter v polys) = canvasWidth v /\
  canvasHeight (autoCenter v polys) = canvasHeight v.
Proof.
  intros Hw Hh Hs. unfold autoCenter.
  pose proof (bounds_polygons_box polys) as Hb.
  destruct (bounds_polygons polys) as [[[[minX maxX] minY] maxY]|];
    [|repeat split; lra].
  destruct Hb as [_ (Hin & (a & Ha & Hax) & _ & (c & Hc & Hcy) & _)].
  assert (Hwd : (0 <= maxX - minX)%R) by (destruct (Hin a Ha); lra).
  assert (Hht : (0 <= maxY - minY)%R) by (destruct (Hin c Hc); lra).
  cbn [scale canvasWidth canvasHeight].
  pose proof (fit_scale_pos _ _ _ _ Hw Hh Hwd Hht) as Hpos.
  pose proof (Rmin_r (Rmin (canvasWidth v / (maxX - minX + 50 * 2))
                           (canvasHeight v / (maxY - minY + 50 * 2))) 5).
  repeat split; lra.
Qed.

Lemma view_step_invariant (v : Viewport) (e : ViewEvent) :
  keeps_canvas_positive e ->
  (0 < scale v <= 20)%R /\ (0 < canvasWidth v)%R /\ (0 < canvasHeight v)%R ->
  (0 < scale (view_step v e) <= 20)%R /\
  (0 < canvasWidth (view_step v e))%R /\
  (0 < canvasHeight (view_step v e))%R.
Proof.
  intros He (Hs & Hw & Hh). destruct e as [dY|dx dy|dx dy d l|polys|w h|];
    cbn [view_step scale canvasWidth canvasHeight].
  - pose proof (clamp_scale_bounds (scale v + - dY * (1 / 1000))).
    repeat split; lra.
  - repeat split; lra.
  - destruct (Rltb 0 l).
    + pose proof (clamp_scale_bounds (scale v * (d / l))).
      repeat split; lra.
    + repeat split; lra.
  - destruct (autoCenter_scale_pos v polys Hw Hh Hs) as (H1 & -> & ->).
    repeat split; lra.
  - destruct He. repeat split; lra.
  - repeat split; lra.
Qed.

(** From a viewport with a scale in (0, 20] on a canvas of positive size,
    no sequence of wheel, drag, pinch, centring and resize events (to a
    positive size) takes the scale out of (0, 20]; a wheel event and a
    pinch with a remembered distance leave it in [0.1, 20]; and a drag
    moves every drawn point by the dragged distance. *)
Theorem view_scale_stays_positive (v : Viewport) (events : list ViewEvent)
    (Hscale : (0 < scale v <= 20)%R)
    (Hwidth : (0 < canvasWidth v)%R) (Hheight : (0 < canvasHeight v)%R)
    (Hevents : Forall keeps_canvas_positive events) :
  let v' := fold_left view_step events v in
  (0 < scale v' <= 20)%R /\
  (forall wx wy,
     to_world v' (fst (to_canvas v' wx wy)) (snd (to_canvas v' wx wy)) =
     (wx, wy)) /\
  (forall deltaY, (1 / 10 <= scale (view_step v' (Wheel deltaY)) <= 20)%R) /\
  (forall dx dy dist last,
     (0 < last)%R ->
     (1 / 10 <= scale (view_step v' (Pinch dx dy dist last)) <= 20)%R) /\
  (forall dx dy wx wy,
     to_canvas (view_step v' (Drag dx dy)) wx wy =
     ((fst (to_canvas v' wx wy) + dx)%R, (snd (to_canvas v' wx wy) + dy)%R)).
Proof.
  intros v'.
  assert (Hinv : (0 < scale v' <= 20)%R /\ (0 < canvasWidth v')%R /\
                 (0 < canvasHeight v')%R).
  { unfold v'. clear v'. revert v Hscale Hwidth Hheight.
    induction Hevents as [|e es He Hes IH]; intros v Hs Hw Hh;
      cbn [fold_left]; [repeat split; lra|].
    destruct (view_step_invariant v e He (conj Hs (conj Hw Hh)))
      as (Hs' & Hw' & Hh').
    apply IH; assumption. }
  destruct Hinv as (Hs & _). split; [exact Hs|]. split; [|split; [|split]].
  - intros wx wy. apply to_world_to_canvas. lra.
  - intros deltaY. cbn [view_step scale]. apply clamp_scale_bounds.
  - intros dx dy dist last Hlast. cbn [view_step scale].
    replace (Rltb 0 last) with true by (symmetry; apply Rltb_true; exact Hlast).
    apply clamp_scale_bounds.
  - intros dx dy wx wy. unfold to_canvas.
    cbn [view_step scale offsetX offsetY fst snd]. f_equal; ring.
Qed.

(** The theorem for the initial viewport on a canvas of 800 by 600, after
    a wheel event, a drag and a resize. *)
Lemma view_scale_stays_positive_witness :
  let v := mkViewport 1 0 0 800 600 in
  let events := [Wheel 5000; Drag 10 (-20); Resize 1024 768] in
  (0 < scale v <= 20)%R /\ (0 < canvasWidth v)%R /\
  (0 < canvasHeight v)%R /\ Forall keeps_canvas_positive events /\
  (0 < scale (fold_left view_step events v) <= 20)%R.
Proof.
  intros v events.
  assert (Hs : (0 < scale v <= 20)%R) by (cbn; lra).
  assert (Hw : (0 < canvasWidth v)%R) by (cbn; lra).
  assert (Hh : (0 < canvasHeight v)%R) by (cbn; lra).
  assert (He : Forall keeps_canvas_positive events).
  { repeat constructor; cbn; lra. }
  split; [exact Hs|]. split; [exact Hw|]. split; [exact Hh|].
  split; [exact He|].
  exact (proj1 (view_scale_stays_positive v events Hs Hw Hh He)).
Defined.
